(** * Retargeting engine of avatar-recoder (src/main.js)

    A shallow embedding of the algorithmic core of [src/main.js]: the
    One Euro filter, the tracker-to-rig coordinate mapper, the damped
    interpolation of the values written to the rig, the arm activation
    hysteresis, the two-bone IK solver and the finger curl estimator,
    together with the properties stated about them.

    Numbers.  A JavaScript number is modelled by a real number: [+], [-],
    [*] and the comparisons are the ones of [R], [Math.PI] is [PI],
    [Math.exp] is [exp], [Math.sqrt] is [sqrt], [Math.acos] is [acos].
    Rounding, overflow and underflow of IEEE doubles are not modelled,
    with one exception: the interpolation factor is also given on
    binary64 numbers ([getLerpFactor_binary64]), where the subtraction
    from 1 rounds.
    The operations that can leave the finite numbers in JavaScript (a
    quotient, [Math.acos], [Math.pow]) are recorded in a log next to the
    value they compute, so that "no undefined value is produced" is a
    statement about that log. *)

From Stdlib Require Import String.
From Stdlib Require Strings.Byte.
From Stdlib Require Import Floats.
From Stdlib Require Import Reals Lra Lia List Bool Sorted RNsatz.
Import ListNotations.
Open Scope R_scope.

(** ** Logged numeric operations *)

Inductive NumOp : Type :=
| OpDiv (num den : R)      (* num / den *)
| OpAcos (x : R)           (* Math.acos(x) *)
| OpPow (base e : R).      (* Math.pow(base, e) *)

(** The operation yields a finite number in JavaScript. *)
Definition defined (op : NumOp) : Prop :=
  match op with
  | OpDiv _ den => den <> 0
  | OpAcos x => -1 <= x <= 1
  | OpPow base e => 0 < base \/ (base = 0 /\ 0 < e)
  end.

(** The divisors of the quotients in a log. *)
Fixpoint divisors (l : list NumOp) : list R :=
  match l with
  | [] => []
  | OpDiv _ den :: l' => den :: divisors l'
  | _ :: l' => divisors l'
  end.

(** A computation: its value and the operations it performed, in order. *)
Definition Traced (A : Type) : Type := (A * list NumOp)%type.

Definition ret {A} (a : A) : Traced A := (a, []).
Definition bind {A B} (m : Traced A) (f : A -> Traced B) : Traced B :=
  (fst (f (fst m)), snd m ++ snd (f (fst m))).
Definition value {A} (m : Traced A) : A := fst m.
Definition trace {A} (m : Traced A) : list NumOp := snd m.

Notation "x <- m ;; k" := (bind m (fun x => k))
  (at level 61, m at next level, right associativity).

Definition div (a b : R) : Traced R := (a / b, [OpDiv a b]).
Definition Math_acos (x : R) : Traced R := (acos x, [OpAcos x]).

(** [Math.pow] on a base that is not negative: [Math.pow(0, e)] is 0 for a
    positive [e], where [Rpower 0 e] is not. *)
Definition Math_pow (base e : R) : Traced R :=
  ((if Req_dec_T base 0 then 0 else Rpower base e), [OpPow base e]).

(** [THREE.MathUtils.clamp(value, min, max)] is
    [Math.max(min, Math.min(max, value))]. *)
Definition clamp (v lo hi : R) : R := Rmax lo (Rmin hi v).

(** A field holding [null] read as a number is 0. *)
Definition num (o : option R) : R :=
  match o with Some v => v | None => 0 end.

(** ** Configuration (main.js, lines 10-13) *)

Definition LERP_SPEED : R := 12.
Definition VIS_THRESHOLD_ON : R := 0.65.
Definition VIS_THRESHOLD_OFF : R := 0.45.

(** ** One Euro filter (main.js, lines 16-66) *)

Record OneEuroFilter : Type := mkOneEuroFilter {
  minCutoff : R;
  beta : R;
  dCutoff : R;
  xPrev : option R;
  dxPrev : option R;
  tPrev : option R
}.

(** [new OneEuroFilter(minCutoff, beta, dCutoff)]; the defaults of the
    constructor are 1.0, 0.007 and 1.0. *)
Definition new_OneEuroFilter (minCutoff beta dCutoff : R) : OneEuroFilter :=
  mkOneEuroFilter minCutoff beta dCutoff None None None.

Definition smoothingFactor (te cutoff : R) : Traced R :=
  let r := 2 * PI * cutoff * te in
  div r (r + 1).

(** [filter(x, t)]: the returned value and the filter after the call. *)
Definition filter (this : OneEuroFilter) (x t : R)
  : Traced (option R * OneEuroFilter) :=
  match tPrev this with
  | None =>
      ret (Some x,
           mkOneEuroFilter (minCutoff this) (beta this) (dCutoff this)
             (Some x) (Some 0) (Some t))
  | Some tp =>
      let te := t - tp in
      if Rle_dec te 0 then ret (xPrev this, this)
      else
        dx <- div (x - num (xPrev this)) te ;;
        alphaDx <- smoothingFactor te (dCutoff this) ;;
        let dxFiltered := alphaDx * dx + (1 - alphaDx) * num (dxPrev this) in
        let cutoff := minCutoff this + beta this * Rabs dxFiltered in
        alpha <- smoothingFactor te cutoff ;;
        let xFiltered := alpha * x + (1 - alpha) * num (xPrev this) in
        ret (Some xFiltered,
             mkOneEuroFilter (minCutoff this) (beta this) (dCutoff this)
               (Some xFiltered) (Some dxFiltered) (Some t))
  end.

Definition reset (this : OneEuroFilter) : OneEuroFilter :=
  mkOneEuroFilter (minCutoff this) (beta this) (dCutoff this) None None None.

(** The three memory fields are set together: once a timestamp is stored,
    so are a value and a derivative. *)
Definition stored (f : OneEuroFilter) : Prop :=
  tPrev f <> None -> xPrev f <> None /\ dxPrev f <> None.



(** [v] lies between [a] and [b], ends included. *)
Definition between (a b v : R) : Prop := Rmin a b <= v <= Rmax a b.



(** ** Landmarks and three.js values *)

(** A tracker landmark; [visibility] is [None] when the field is
    [undefined] or [null]. *)
Module Landmark.
Record t : Type := mk { x : R; y : R; z : R; visibility : option R }.
End Landmark.

(** [THREE.Quaternion]: the fields and the methods the engine calls. *)
Module Quaternion.
Record t : Type := mk { x : R; y : R; z : R; w : R }.

(** [new THREE.Quaternion()] *)
Definition identity : t := mk 0 0 0 1.

Definition lengthSq (q : t) : R :=
  x q * x q + y q * y q + z q * z q + w q * w q.

Definition length (q : t) : R := sqrt (lengthSq q).

(** [normalize()]: a quaternion of length 0 becomes the identity. *)
Definition normalize (q : t) : Traced t :=
  let l := length q in
  if Req_dec_T l 0 then ret identity
  else
    l' <- div 1 l ;;
    ret (mk (x q * l') (y q * l') (z q * l') (w q * l')).

(** [a.multiply(b)] *)
Definition multiply (a b : t) : t :=
  mk (x a * w b + w a * x b + y a * z b - z a * y b)
     (y a * w b + w a * y b + z a * x b - x a * z b)
     (z a * w b + w a * z b + x a * y b - y a * x b)
     (w a * w b - x a * x b - y a * y b - z a * z b).

(** [invert()]: the conjugate; the quaternion is taken to be of unit
    length. *)
Definition invert (q : t) : t := mk (- x q) (- y q) (- z q) (w q).
End Quaternion.

(** [THREE.Vector3]: the fields and the methods the engine calls. *)
Module Vector3.
Record t : Type := mk { x : R; y : R; z : R }.

Definition lengthSq (v : t) : R := x v * x v + y v * y v + z v * z v.
Definition length (v : t) : R := sqrt (lengthSq v).
Definition dot (a b : t) : R := x a * x b + y a * y b + z a * z b.

Definition multiplyScalar (v : t) (s : R) : t :=
  mk (x v * s) (y v * s) (z v * s).

(** [divideScalar(s)] is [multiplyScalar(1 / s)]. *)
Definition divideScalar (v : t) (s : R) : Traced t :=
  s' <- div 1 s ;;
  ret (multiplyScalar v s').

(** [normalize()] is [divideScalar(this.length() || 1)]: the zero vector
    stays the zero vector. *)
Definition normalize (v : t) : Traced t :=
  let l := length v in
  divideScalar v (if Req_dec_T l 0 then 1 else l).

(** [setLength(l)] is [normalize().multiplyScalar(l)]. *)
Definition setLength (v : t) (l : R) : Traced t :=
  n <- normalize v ;;
  ret (multiplyScalar n l).

Definition subVectors (a b : t) : t :=
  mk (x a - x b) (y a - y b) (z a - z b).

Definition crossVectors (a b : t) : t :=
  mk (y a * z b - z a * y b)
     (z a * x b - x a * z b)
     (x a * y b - y a * x b).

Definition distanceToSquared (a b : t) : R :=
  let dx := x a - x b in
  let dy := y a - y b in
  let dz := z a - z b in
  dx * dx + dy * dy + dz * dz.

Definition distanceTo (a b : t) : R := sqrt (distanceToSquared a b).

(** [applyQuaternion(q)]: v + q.w * t + cross(q.xyz, t) with
    t = 2 * cross(q.xyz, v). *)
Definition applyQuaternion (v : t) (q : Quaternion.t) : t :=
  let tx := 2 * (Quaternion.y q * z v - Quaternion.z q * y v) in
  let ty := 2 * (Quaternion.z q * x v - Quaternion.x q * z v) in
  let tz := 2 * (Quaternion.x q * y v - Quaternion.y q * x v) in
  mk (x v + Quaternion.w q * tx + Quaternion.y q * tz - Quaternion.z q * ty)
     (y v + Quaternion.w q * ty + Quaternion.z q * tx - Quaternion.x q * tz)
     (z v + Quaternion.w q * tz + Quaternion.x q * ty - Quaternion.y q * tx).

(** A vector read where a landmark is expected: it has no [visibility]
    field. *)
Definition as_landmark (v : t) : Landmark.t :=
  Landmark.mk (x v) (y v) (z v) None.

Definition of_landmark (l : Landmark.t) : t :=
  mk (Landmark.x l) (Landmark.y l) (Landmark.z l).
End Vector3.

(** [Number.EPSILON] *)
Definition Number_EPSILON : R := / 2 ^ 52.

(** [new THREE.Quaternion().setFromAxisAngle(axis, angle)] *)
Definition setFromAxisAngle (axis : Vector3.t) (angle : R) : Quaternion.t :=
  let halfAngle := angle / 2 in
  let s := sin halfAngle in
  Quaternion.mk (Vector3.x axis * s) (Vector3.y axis * s) (Vector3.z axis * s)
    (cos halfAngle).

(** [new THREE.Quaternion().setFromUnitVectors(vFrom, vTo)] *)
Definition setFromUnitVectors (vFrom vTo : Vector3.t) : Traced Quaternion.t :=
  let r := Vector3.dot vFrom vTo + 1 in
  if Rlt_dec r Number_EPSILON then
    if Rgt_dec (Rabs (Vector3.x vFrom)) (Rabs (Vector3.z vFrom)) then
      Quaternion.normalize
        (Quaternion.mk (- Vector3.y vFrom) (Vector3.x vFrom) 0 0)
    else
      Quaternion.normalize
        (Quaternion.mk 0 (- Vector3.z vFrom) (Vector3.y vFrom) 0)
  else
    Quaternion.normalize
      (Quaternion.mk
         (Vector3.y vFrom * Vector3.z vTo - Vector3.z vFrom * Vector3.y vTo)
         (Vector3.z vFrom * Vector3.x vTo - Vector3.x vFrom * Vector3.z vTo)
         (Vector3.x vFrom * Vector3.y vTo - Vector3.y vFrom * Vector3.x vTo)
         r).

(** [THREE.MathUtils.lerp(x, y, t)] *)
Definition lerp (x y t : R) : R := (1 - t) * x + t * y.

(** ** Coordinate mapper (main.js, lines 2094-2100) *)

Definition mpToVRM (landmark : Landmark.t) (mirror : bool) : Vector3.t :=
  Vector3.mk
    (if mirror then - Landmark.x landmark else Landmark.x landmark)
    (- Landmark.y landmark)
    (- Landmark.z landmark).

(** ** Damped interpolation factor (main.js, lines 2103-2105) *)

Definition getLerpFactor (deltaTime speed : R) : R :=
  1 - exp (- speed * deltaTime).

(** ** Arm activation (main.js, lines 157-158 and 2307-2323) *)

Record ArmActivity : Type := mkArmActivity {
  leftArmActive : bool;
  rightArmActive : bool
}.

(** The module-level initial values. *)
Definition initialArmActivity : ArmActivity := mkArmActivity false false.

Definition gt (a b : R) : bool := if Rgt_dec a b then true else false.
Definition lt (a b : R) : bool := if Rlt_dec a b then true else false.

(** [landmark.visibility ?? 1.0] *)
Definition wristVis (landmark : Landmark.t) : R :=
  match Landmark.visibility landmark with
  | Some v => v
  | None => 1.0
  end.

(** The if / else-if chain written once per arm. *)
Definition hysteresis (armActive : bool) (wristVis : R) : bool :=
  if negb armActive && gt wristVis VIS_THRESHOLD_ON then true
  else if armActive && lt wristVis VIS_THRESHOLD_OFF then false
  else armActive.

(** The activation part of [applyPose]: nothing happens without a loaded
    avatar; reading index 15 or 16 of a shorter array throws ([None]). *)
Definition applyPose_activation (currentVrm : bool)
  (landmarks : list Landmark.t) (st : ArmActivity) : option ArmActivity :=
  if negb currentVrm then Some st
  else
    match nth_error landmarks 15, nth_error landmarks 16 with
    | Some l15, Some l16 =>
        let leftWristVis := wristVis l15 in
        let rightWristVis := wristVis l16 in
        Some (mkArmActivity
                (hysteresis (leftArmActive st) leftWristVis)
                (hysteresis (rightArmActive st) rightWristVis))
    | _, _ => None
    end.

(** The activation of one arm over a sequence of wrist confidences. *)
Fixpoint gate_run (armActive : bool) (confidences : list R) : list bool :=
  match confidences with
  | [] => []
  | c :: cs =>
      let armActive' := hysteresis armActive c in
      armActive' :: gate_run armActive' cs
  end.

(** ** Two-bone IK solver (main.js, lines 2108-2120 and 2184-2262) *)

(** A rig bone as the solver sees it: its local rotation and, when it has
    a parent, the world rotation that the parent reports. *)
Record Bone : Type := mkBone {
  quaternion : Quaternion.t;
  parent : option Quaternion.t
}.

Definition getParentWorldQuaternion (bone : Bone) : Quaternion.t :=
  match parent bone with
  | Some worldQuat => worldQuat
  | None => Quaternion.identity
  end.

Definition worldToLocalQuaternion (worldQuat parentWorldQuat : Quaternion.t)
  : Quaternion.t :=
  let parentInverse := Quaternion.invert parentWorldQuat in
  Quaternion.multiply parentInverse worldQuat.

Definition epsilon : R := 0.001.

(** Step 1: the target and its distance, limited to the reach of the arm. *)
Definition ik_clampTarget (a b : R) (targetPos : Vector3.t)
  : Traced (Vector3.t * R) :=
  let dist := Vector3.length targetPos in
  let maxLen := a + b - epsilon in
  let minLen := Rabs (a - b) + epsilon in
  if Rgt_dec dist maxLen then
    targetPos' <- Vector3.setLength targetPos maxLen ;;
    ret (targetPos', maxLen)
  else if Rlt_dec dist minLen then
    targetPos' <- Vector3.setLength targetPos minLen ;;
    ret (targetPos', minLen)
  else ret (targetPos, dist).

(** Step 2: the angle at the shoulder, by the law of cosines. *)
Definition ik_shoulderAngle (a b c : R) : Traced R :=
  cosShoulderAngle <- div (a * a + c * c - b * b) (2 * a * c) ;;
  Math_acos (clamp cosShoulderAngle (-1) 1).

(** Step 3: the angle at the elbow, by the law of cosines. *)
Definition ik_elbowAngle (a b c : R) : Traced R :=
  cosElbowAngle <- div (a * a + b * b - c * c) (2 * a * b) ;;
  Math_acos (clamp cosElbowAngle (-1) 1).

(** Step 4: the normal of the bend plane, with its two fallbacks. *)
Definition ik_planeNormal (dirToTarget dirToPole : Vector3.t)
  : Traced Vector3.t :=
  let planeNormal := Vector3.crossVectors dirToTarget dirToPole in
  let planeNormal :=
    if Rlt_dec (Vector3.lengthSq planeNormal) 0.0001 then
      let planeNormal :=
        Vector3.crossVectors dirToTarget (Vector3.mk 0 1 0) in
      if Rlt_dec (Vector3.lengthSq planeNormal) 0.0001 then
        Vector3.crossVectors dirToTarget (Vector3.mk 0 0 1)
      else planeNormal
    else planeNormal in
  Vector3.normalize planeNormal.

(** Steps 5 and 6: the world rotation of the upper arm. *)
Definition ik_upperRotation (boneAxis dirToTarget planeNormal : Vector3.t)
  (shoulderAngle : R) : Traced Quaternion.t :=
  let qBend := setFromAxisAngle planeNormal shoulderAngle in
  upperDir <- Vector3.normalize (Vector3.applyQuaternion dirToTarget qBend) ;;
  qUpper <- setFromUnitVectors boneAxis upperDir ;;
  hingeAxis <-
    Vector3.normalize (Vector3.crossVectors boneAxis (Vector3.mk 0 0 1)) ;;
  let currentHinge := Vector3.applyQuaternion hingeAxis qUpper in
  qTwist <- setFromUnitVectors currentHinge planeNormal ;;
  ret (Quaternion.multiply qTwist qUpper).

(** Step 8: the flexion of the elbow about the local Y axis. *)
Definition ik_lowerRotation (boneAxis : Vector3.t) (bendAngle : R)
  : Quaternion.t :=
  setFromAxisAngle (Vector3.mk 0 1 0)
    (- bendAngle * (if Rlt_dec (Vector3.x boneAxis) 0 then 1 else -1)).

(** The local variables of one solve.  [qUpperLocal] and [qLowerLocal] are
    the rotations toward which the two bones are interpolated by
    [factor]. *)
Module IK.
Record locals : Type := mk {
  factor : R;
  dist : R;
  shoulderAngle : R;
  elbowAngle : R;
  dirToTarget : Vector3.t;
  planeNormal : Vector3.t;
  qUpperFinal : Quaternion.t;
  qUpperLocal : Quaternion.t;
  bendAngle : R;
  qLowerLocal : Quaternion.t
}.
End IK.

(** [solveTwoBoneIK]: [None] when a bone is absent and nothing is done. *)
Definition solveTwoBoneIK (upperBone lowerBone : option Bone)
  (upperLength lowerLength : R) (targetPos polePos boneAxis : Vector3.t)
  (deltaTime : R) : Traced (option IK.locals) :=
  match upperBone, lowerBone with
  | Some upper, Some _ =>
      let factor := getLerpFactor deltaTime LERP_SPEED in
      let a := upperLength in
      let b := lowerLength in
      clamped <- ik_clampTarget a b targetPos ;;
      let targetPos := fst clamped in
      let c := snd clamped in
      shoulderAngle <- ik_shoulderAngle a b c ;;
      elbowAngle <- ik_elbowAngle a b c ;;
      dirToTarget <- Vector3.normalize targetPos ;;
      dirToPole <- Vector3.normalize polePos ;;
      planeNormal <- ik_planeNormal dirToTarget dirToPole ;;
      qUpperFinal <-
        ik_upperRotation boneAxis dirToTarget planeNormal shoulderAngle ;;
      let parentWorldQuat := getParentWorldQuaternion upper in
      let qUpperLocal := worldToLocalQuaternion qUpperFinal parentWorldQuat in
      let bendAngle := PI - elbowAngle in
      let qLowerLocal := ik_lowerRotation boneAxis bendAngle in
      ret (Some (IK.mk factor c shoulderAngle elbowAngle dirToTarget
                   planeNormal qUpperFinal qUpperLocal bendAngle qLowerLocal))
  | _, _ => ret None
  end.

(** ** Finger curl (main.js, lines 2457-2499) *)

Inductive Finger : Type := Thumb | Index | Middle | Ring | Little.

Record Joints : Type := mkJoints { mcp : nat; pip : nat; dip : nat; tip : nat }.

Definition FINGER_JOINTS (f : Finger) : Joints :=
  match f with
  | Thumb => mkJoints 1 2 3 4
  | Index => mkJoints 5 6 7 8
  | Middle => mkJoints 9 10 11 12
  | Ring => mkJoints 13 14 15 16
  | Little => mkJoints 17 18 19 20
  end.

(** The keys of [FINGER_CONFIG], in the order of the loop. *)
Definition FINGER_CONFIG : list Finger := [Thumb; Index; Middle; Ring; Little].

(** The curl of one finger from the positions of its four joints. *)
Definition curlOfJoints (mcpPos pipPos dipPos tipPos : Vector3.t) : Traced R :=
  let seg1 := Vector3.distanceTo mcpPos pipPos in
  let seg2 := Vector3.distanceTo pipPos dipPos in
  let seg3 := Vector3.distanceTo dipPos tipPos in
  let totalLength := seg1 + seg2 + seg3 in
  let straightDist := Vector3.distanceTo mcpPos tipPos in
  ratio <- div straightDist totalLength ;;
  let curl := 1 - ratio in
  let curl := clamp curl 0 1 in
  powered <- Math_pow curl 0.7 ;;
  let curl := powered * 1.5 in
  let curl := clamp curl 0 1 in
  ret curl.

(** The body of the loop of [applyFingers] up to the curl: reading a
    landmark that the array does not have throws ([None]). *)
Definition fingerCurl (landmarks : list Landmark.t) (fingerName : Finger)
  : option (Traced R) :=
  let joints := FINGER_JOINTS fingerName in
  match nth_error landmarks (mcp joints), nth_error landmarks (pip joints),
        nth_error landmarks (dip joints), nth_error landmarks (tip joints) with
  | Some m, Some p, Some d, Some t =>
      Some (curlOfJoints (Vector3.of_landmark m) (Vector3.of_landmark p)
              (Vector3.of_landmark d) (Vector3.of_landmark t))
  | _, _, _, _ => None
  end.

(** The curls that [applyFingers] hands to the rig, finger by finger;
    nothing without a loaded avatar. *)
Fixpoint applyFingers_loop (landmarks : list Landmark.t) (fs : list Finger)
  : option (list (Finger * Traced R)) :=
  match fs with
  | [] => Some []
  | f :: fs' =>
      match fingerCurl landmarks f with
      | None => None
      | Some curl =>
          match applyFingers_loop landmarks fs' with
          | None => None
          | Some rest => Some ((f, curl) :: rest)
          end
      end
  end.

Definition applyFingers (currentVrm : bool) (landmarks : list Landmark.t)
  : option (list (Finger * Traced R)) :=
  if negb currentVrm then Some []
  else applyFingers_loop landmarks FINGER_CONFIG.

(** A straight finger: the four joints lie on one line, in order from the
    knuckle to the tip, and the tip is away from the knuckle. *)
Definition straight_finger (mcpPos pipPos dipPos tipPos : Vector3.t) : Prop :=
  exists (d : Vector3.t) (s t u : R),
    Vector3.lengthSq d <> 0 /\ 0 <= s <= t /\ t <= u /\ 0 < u /\
    Vector3.subVectors pipPos mcpPos = Vector3.multiplyScalar d s /\
    Vector3.subVectors dipPos mcpPos = Vector3.multiplyScalar d t /\
    Vector3.subVectors tipPos mcpPos = Vector3.multiplyScalar d u.

(** A quaternion that is a rotation. *)
Definition unit_quaternion (q : Quaternion.t) : Prop := Quaternion.lengthSq q = 1.

Definition unit_vector (v : Vector3.t) : Prop := Vector3.lengthSq v = 1.

(** ** Runs of the filter, the 3D filter and the pose filter bank
       (main.js, lines 69-111) *)


Record OneEuroFilter3D : Type := mkOneEuroFilter3D {
  xFilter : OneEuroFilter;
  yFilter : OneEuroFilter;
  zFilter : OneEuroFilter
}.

(** [new OneEuroFilter3D(minCutoff, beta)]: the three filters take the
    default [dCutoff] of 1.0. *)
Definition new_OneEuroFilter3D (minCutoff beta : R) : OneEuroFilter3D :=
  mkOneEuroFilter3D (new_OneEuroFilter minCutoff beta 1.0)
    (new_OneEuroFilter minCutoff beta 1.0)
    (new_OneEuroFilter minCutoff beta 1.0).

(** [OneEuroFilter3D.filter(point, t)]: the three coordinates are filtered
    in the order x, y, z and [visibility] is copied.  A coordinate is read
    as a number ([null] as 0). *)
Definition filter3D (this : OneEuroFilter3D) (point : Landmark.t) (t : R)
  : Traced (Landmark.t * OneEuroFilter3D) :=
  rx <- filter (xFilter this) (Landmark.x point) t ;;
  ry <- filter (yFilter this) (Landmark.y point) t ;;
  rz <- filter (zFilter this) (Landmark.z point) t ;;
  ret (Landmark.mk (num (fst rx)) (num (fst ry)) (num (fst rz))
         (Landmark.visibility point),
       mkOneEuroFilter3D (snd rx) (snd ry) (snd rz)).

Definition reset3D (this : OneEuroFilter3D) : OneEuroFilter3D :=
  mkOneEuroFilter3D (reset (xFilter this)) (reset (yFilter this))
    (reset (zFilter this)).

(** [landmarks.map((lm, i) => bank[i].filter(lm, t))]: the filters are
    used and updated in order; a landmark beyond the end of the bank
    throws (the result is [None]), the filters used before it stay
    updated. *)
Fixpoint filter_bank (bank : list OneEuroFilter3D) (lms : list Landmark.t)
  (t : R) {struct lms}
  : Traced (option (list Landmark.t) * list OneEuroFilter3D) :=
  match lms with
  | [] => ret (Some [], bank)
  | lm :: lms' =>
      match bank with
      | [] => ret (None, [])
      | f :: bank' =>
          r <- filter3D f lm t ;;
          rest <- filter_bank bank' lms' t ;;
          ret (match fst rest with
               | Some out => Some (fst r :: out)
               | None => None
               end,
               snd r :: snd rest)
      end
  end.

Record PoseFilters : Type := mkPoseFilters {
  pf_landmarks : list OneEuroFilter3D;
  pf_worldLandmarks : list OneEuroFilter3D
}.

(** The bank built on the first call: 33 filters per array. *)
Definition new_PoseFilters : PoseFilters :=
  mkPoseFilters (repeat (new_OneEuroFilter3D 1.5 0.01) 33)
    (repeat (new_OneEuroFilter3D 1.5 0.01) 33).

(** [getFilteredPoseLandmarks(landmarks, worldLandmarks, timestamp)] with
    the module variable [poseFilters] passed in and out.  The result is
    [None] when a filter is missing for a landmark. *)
Definition getFilteredPoseLandmarks (poseFilters : option PoseFilters)
  (landmarks : list Landmark.t) (worldLandmarks : option (list Landmark.t))
  (timestamp : R)
  : Traced (option (list Landmark.t * option (list Landmark.t)) *
            option PoseFilters) :=
  let poseFilters :=
    match poseFilters with
    | Some pf => pf
    | None => new_PoseFilters
    end in
  let t := timestamp / 1000 in
  fl <- filter_bank (pf_landmarks poseFilters) landmarks t ;;
  match fst fl with
  | None =>
      ret (None,
           Some (mkPoseFilters (snd fl) (pf_worldLandmarks poseFilters)))
  | Some filteredLandmarks =>
      match worldLandmarks with
      | None =>
          ret (Some (filteredLandmarks, None),
               Some (mkPoseFilters (snd fl) (pf_worldLandmarks poseFilters)))
      | Some wl =>
          fw <- filter_bank (pf_worldLandmarks poseFilters) wl t ;;
          ret (match fst fw with
               | Some filteredWorldLandmarks =>
                   Some (filteredLandmarks, Some filteredWorldLandmarks)
               | None => None
               end,
               Some (mkPoseFilters (snd fl) (snd fw)))
      end
  end.

(** ** Loss of the pose (main.js, lines 2122-2147) *)


(** ** The arm targets of [applyPose] (main.js, lines 2272-2275 and
       2326-2345) *)


(** The target and the pole handed to the solver: the wrist and the elbow
    relative to the shoulder, scaled from the tracked arm length to the
    arm length of the avatar. *)
Definition armTarget (upperLen lowerLen : R)
  (mpShoulder mpElbow mpWrist : Vector3.t) : Traced (Vector3.t * Vector3.t) :=
  let mpArmLen := Vector3.distanceTo mpShoulder mpElbow +
                  Vector3.distanceTo mpElbow mpWrist in
  let avatarArmLen := upperLen + lowerLen in
  scale <- div avatarArmLen mpArmLen ;;
  let target :=
    Vector3.multiplyScalar (Vector3.subVectors mpWrist mpShoulder) scale in
  let pole :=
    Vector3.multiplyScalar (Vector3.subVectors mpElbow mpShoulder) scale in
  ret (target, pole).




(** The direction of the upper arm in step 5 of the solver: the direction
    to the target turned by the shoulder angle about the plane normal. *)
Definition ik_upperDir (dirToTarget planeNormal : Vector3.t)
  (shoulderAngle : R) : Traced Vector3.t :=
  let qBend := setFromAxisAngle planeNormal shoulderAngle in
  Vector3.normalize (Vector3.applyQuaternion dirToTarget qBend).

(** ** Finger and thumb rotations (main.js, lines 2500-2575) *)

(** [THREE.Euler]: three angles and the order in which they apply; the
    default order is XYZ. *)
Inductive EulerOrder : Type := XYZ | YXZ.

Record Euler : Type := mkEuler {
  euler_x : R;
  euler_y : R;
  euler_z : R;
  euler_order : EulerOrder
}.

(** [new THREE.Quaternion().setFromEuler(euler)] for the two orders that
    the engine uses. *)
Definition setFromEuler (euler : Euler) : Quaternion.t :=
  let c1 := cos (euler_x euler / 2) in
  let c2 := cos (euler_y euler / 2) in
  let c3 := cos (euler_z euler / 2) in
  let s1 := sin (euler_x euler / 2) in
  let s2 := sin (euler_y euler / 2) in
  let s3 := sin (euler_z euler / 2) in
  match euler_order euler with
  | XYZ =>
      Quaternion.mk (s1 * c2 * c3 + c1 * s2 * s3)
        (c1 * s2 * c3 - s1 * c2 * s3)
        (c1 * c2 * s3 + s1 * s2 * c3)
        (c1 * c2 * c3 - s1 * s2 * s3)
  | YXZ =>
      Quaternion.mk (s1 * c2 * c3 + c1 * s2 * s3)
        (c1 * s2 * c3 - s1 * c2 * s3)
        (c1 * c2 * s3 - s1 * s2 * c3)
        (c1 * c2 * c3 + s1 * s2 * s3)
  end.

Definition fingerName (f : Finger) : string :=
  match f with
  | Thumb => "Thumb"
  | Index => "Index"
  | Middle => "Middle"
  | Ring => "Ring"
  | Little => "Little"
  end.

Definition isThumb (f : Finger) : bool :=
  match f with
  | Thumb => true
  | _ => false
  end.

(** [applyFingerCurl(prefix, fingerName, curl, factor)]: the bones that
    exist, in order, each with the rotation toward which it is
    interpolated.  [hasBone] tells whether the rig has a bone of that
    name. *)
Definition applyFingerCurl (hasBone : string -> bool) (prefix fingerName : string)
  (curl : R) : list (string * Quaternion.t) :=
  let boneTypes := ["Proximal"; "Intermediate"; "Distal"]%string in
  let isRight := String.eqb prefix "right" in
  let maxAngles := [PI * 0.45; PI * 0.55; PI * 0.45] in
  flat_map
    (fun bm : string * R =>
       let boneName := (prefix ++ fingerName ++ fst bm)%string in
       if hasBone boneName then
         let angle := curl * snd bm in
         let rotation :=
           setFromEuler (mkEuler 0 0 (if isRight then angle else - angle) XYZ) in
         [(boneName, rotation)]
       else [])
    (combine boneTypes maxAngles).

(** [applyThumbCurl(prefix, curl, factor)] *)
Definition applyThumbCurl (hasBone : string -> bool) (prefix : string)
  (curl : R) : list (string * Quaternion.t) :=
  let isRight := String.eqb prefix "right" in
  let joint := fun (boneName : string) (angle : R) =>
    if hasBone boneName then
      [(boneName,
        setFromEuler (mkEuler 0 (if isRight then - angle else angle) 0 XYZ))]
    else [] in
  joint (prefix ++ "ThumbProximal")%string (curl * PI * 0.4) ++
  joint (prefix ++ "ThumbIntermediate")%string (curl * PI * 0.45) ++
  joint (prefix ++ "ThumbDistal")%string (curl * PI * 0.4).

(** The rotations that [applyFingers] writes for one finger. *)
Definition fingerRotations (hasBone : string -> bool) (prefix : string)
  (f : Finger) (curl : R) : list (string * Quaternion.t) :=
  if isThumb f then applyThumbCurl hasBone prefix curl
  else applyFingerCurl hasBone prefix (fingerName f) curl.

(** The joints of a finger moved by the same similarity: scaled by [k]
    about the origin and shifted by [o]. *)
Definition similar (k : R) (o p : Vector3.t) : Vector3.t :=
  Vector3.mk (k * Vector3.x p + Vector3.x o) (k * Vector3.y p + Vector3.y o)
    (k * Vector3.z p + Vector3.z o).

(** ** Head rotation (main.js, lines 2677-2717), from the Euler angles
       of the face matrix on *)

(** The mirrored and clamped angles of the head. *)
Definition headEuler (euler : Euler) : Euler :=
  let y := euler_y euler * -1 in
  let z := euler_z euler * -1 in
  mkEuler (clamp (euler_x euler) (- PI / 4) (PI / 4))
    (clamp y (- PI / 3) (PI / 3))
    (clamp z (- PI / 6) (PI / 6))
    (euler_order euler).

Definition neckEuler (euler : Euler) : Euler :=
  mkEuler (euler_x euler * 0.3) (euler_y euler * 0.3) (euler_z euler * 0.3) YXZ.

(** The rotations toward which the head and the neck are interpolated,
    with their factors; [euler] is the result of
    [setFromQuaternion(rot, 'YXZ')]. *)
Definition applyHeadRotation_targets (currentVrm hasHead hasNeck : bool)
  (euler : Euler) (deltaTime : R) : list (string * Quaternion.t * R) :=
  if negb currentVrm then []
  else
    let factor := getLerpFactor deltaTime 10 in
    let euler := headEuler euler in
    let mirrorRot := setFromEuler euler in
    (if hasHead then [("head"%string, mirrorRot, factor)] else []) ++
    (if hasNeck then
       [("neck"%string, setFromEuler (neckEuler euler), factor * 0.5)]
     else []).

(** ** Expressions (main.js, lines 2578-2672) *)

Inductive Expression : Type :=
  Aa | Ou | Ih | BlinkLeft | BlinkRight | Happy | Sad | Angry.

(** [getScore(name)]: the score of the first category of that name, 0
    when there is none. *)
Fixpoint getScore (categories : list (string * R)) (name : string) : R :=
  match categories with
  | [] => 0
  | (categoryName, score) :: rest =>
      if String.eqb categoryName name then score else getScore rest name
  end.

(** [applyBlendshapes]: the calls of [setValue], in order.  [getValue]
    gives the current value of an expression, [None] for [null] or
    [undefined]; every expression is read before it is written. *)
Definition applyBlendshapes (currentVrm : bool)
  (getValue : Expression -> option R) (categories : list (string * R))
  (deltaTime : R) : list (Expression * R) :=
  if negb currentVrm then []
  else
    let factor := getLerpFactor deltaTime 15 in
    let getScore := getScore categories in
    let current := fun e =>
      match getValue e with Some v => v | None => 0 end in
    let jawOpen := getScore "jawOpen"%string in
    let mouthPucker := getScore "mouthPucker"%string in
    let mouthFunnel := getScore "mouthFunnel"%string in
    let ouScore := Rmax mouthPucker (mouthFunnel * 0.7) in
    let mouthStretchL := getScore "mouthStretchLeft"%string in
    let mouthStretchR := getScore "mouthStretchRight"%string in
    let ihScore := (mouthStretchL + mouthStretchR) / 2 in
    let blinkL := getScore "eyeBlinkLeft"%string in
    let blinkR := getScore "eyeBlinkRight"%string in
    let currentBlinkL := current BlinkLeft in
    let currentBlinkR := current BlinkRight in
    let eyeSquintL := getScore "eyeSquintLeft"%string in
    let eyeSquintR := getScore "eyeSquintRight"%string in
    let squintBlinkL := Rmin (blinkL + eyeSquintL * 0.3) 0.8 in
    let squintBlinkR := Rmin (blinkR + eyeSquintR * 0.3) 0.8 in
    let smileL := getScore "mouthSmileLeft"%string in
    let smileR := getScore "mouthSmileRight"%string in
    let smileScore := (smileL + smileR) / 2 in
    let happyScore :=
      if Rgt_dec smileScore 0.3 then Rmin (smileScore * 0.5) 0.5 else 0 in
    let browInnerUp := getScore "browInnerUp"%string in
    let browDownL := getScore "browDownLeft"%string in
    let browDownR := getScore "browDownRight"%string in
    let sadTarget :=
      if Rgt_dec browInnerUp 0.3 then Rmin (browInnerUp * 0.5) 0.4 else 0 in
    let angryScore := (browDownL + browDownR) / 2 in
    let angryTarget := if Rgt_dec angryScore 0.3 then angryScore * 0.4 else 0 in
    [ (Aa, lerp (current Aa) jawOpen factor);
      (Ou, lerp (current Ou) ouScore factor);
      (Ih, lerp (current Ih) (ihScore * 0.5) factor);
      (BlinkLeft, lerp currentBlinkL blinkL factor);
      (BlinkRight, lerp currentBlinkR blinkR factor);
      (BlinkLeft, lerp currentBlinkL squintBlinkL factor);
      (BlinkRight, lerp currentBlinkR squintBlinkR factor);
      (Happy, lerp (current Happy) happyScore factor);
      (Sad, lerp (current Sad) sadTarget factor);
      (Angry, lerp (current Angry) angryTarget factor) ].

Definition Expression_eqb (a b : Expression) : bool :=
  match a, b with
  | Aa, Aa | Ou, Ou | Ih, Ih | BlinkLeft, BlinkLeft
  | BlinkRight, BlinkRight | Happy, Happy | Sad, Sad | Angry, Angry => true
  | _, _ => false
  end.

(** The value that an expression holds after a sequence of [setValue]
    calls: the value of the last call for it, if any. *)
Fixpoint lastWrite (e : Expression) (writes : list (Expression * R))
  : option R :=
  match writes with
  | [] => None
  | (e', v) :: rest =>
      match lastWrite e rest with
      | Some v' => Some v'
      | None => if Expression_eqb e e' then Some v else None
      end
  end.

(** ** Audio mix and level meters (main.js, lines 979-994 and
       1164-1206) *)

(** [updateAudioMix]: the gains of the microphone and of the tab audio. *)
Definition updateAudioMix (audioMixValue : R) : R * R :=
  let micVolume := (100 - audioMixValue) / 100 in
  let tabVolume := audioMixValue / 100 in
  (micVolume, tabVolume).

(** [getAudioLevel(analyser)] on the byte frequency data of the
    analyser. *)
Definition getAudioLevel (dataArray : list Byte.byte) : Traced R :=
  let sum :=
    fold_left (fun sum b => sum + INR (Byte.to_nat b)) dataArray 0 in
  average <- div sum (INR (length dataArray)) ;;
  ret (Rmin 100 (average * 1.5)).

(** [updateAudioMeters]: the widths, in percent, given to the two bars;
    an absent analyser leaves its bar alone. *)
Definition updateAudioMeters (audioMixValue : R)
  (micAnalyser tabAnalyser : option (list Byte.byte))
  : Traced (option R * option R) :=
  let micGain := (100 - audioMixValue) / 100 in
  let tabGain := audioMixValue / 100 in
  mic <- match micAnalyser with
         | Some data =>
             rawLevel <- getAudioLevel data ;;
             ret (Some (rawLevel * micGain))
         | None => ret None
         end ;;
  tab <- match tabAnalyser with
         | Some data =>
             rawLevel <- getAudioLevel data ;;
             ret (Some (rawLevel * tabGain))
         | None => ret None
         end ;;
  ret (mic, tab).

(** ** Dragging the small avatar (main.js, lines 1295-1326) *)

(** [onDragMove]: the new position of the avatar window; [sceneWrapper]
    is the width and height of the window when the element exists, and
    the position is returned unchanged when no drag is in progress. *)
Definition onDragMove (isDragging : bool) (sceneWrapper : option (R * R))
  (client dragOffset inner : R * R) (miniAvatarPosition : option R * option R)
  : option R * option R :=
  if negb isDragging then miniAvatarPosition
  else
    match sceneWrapper with
    | None => miniAvatarPosition
    | Some (offsetWidth, offsetHeight) =>
        let newX := fst client - fst dragOffset in
        let newY := snd client - snd dragOffset in
        let maxX := fst inner - offsetWidth in
        let maxY := snd inner - offsetHeight in
        let newX := Rmax 0 (Rmin newX maxX) in
        let newY := Rmax 0 (Rmin newY maxY) in
        (Some newX, Some newY)
    end.

(** ** Chat messages (main.js, lines 167 and 180-214) *)

Definition MAX_VISIBLE_MESSAGES : nat := 5.

(** [updateMessageFading]: the oldest messages are dropped while there
    are more than [MAX_VISIBLE_MESSAGES + 1]. *)
Fixpoint updateMessageFading (chatMessages : list string) : list string :=
  match chatMessages with
  | [] => []
  | _ :: rest =>
      if (MAX_VISIBLE_MESSAGES + 1 <? length chatMessages)%nat
      then updateMessageFading rest
      else chatMessages
  end.

(** [addChatMessage(text)]: [trim] is [String.prototype.trim] and
    [messagesContainer] tells whether the container element exists. *)
Definition addChatMessage (trim : string -> string) (messagesContainer : bool)
  (text : string) (chatMessages : list string) : list string :=
  if String.eqb (trim text) "" then chatMessages
  else if negb messagesContainer then chatMessages
  else updateMessageFading (chatMessages ++ [text]).

Definition clearChatMessages (chatMessages : list string) : list string := [].

(** What is proved of one joint rotation of the digit [f]: for the thumb
    a rotation about the local Y axis by an angle of at most
    0.45 * PI * curl, for any other finger a rotation about the local Z
    axis by an angle of at most 0.55 * PI * curl; [sigma] is the sense of
    the rotation. *)
Definition joint_rotation (f : Finger) (curl sigma : R) (q : Quaternion.t)
  : Prop :=
  exists angle,
    0 <= angle <= PI * (if isThumb f then 0.45 else 0.55) * curl /\
    q = if isThumb f
        then Quaternion.mk 0 (- sigma * sin (angle / 2)) 0 (cos (angle / 2))
        else Quaternion.mk 0 0 (sigma * sin (angle / 2)) (cos (angle / 2)).

(** ** Interpolated writes (main.js, the [slerp] and [lerp] calls of
       lines 2139-2142, 2248, 2261, 2300, 2350-2378, 2453, 2528-2571,
       2598-2668, 2702 and 2715) *)

(** [Math.atan2(y, x)]; for y = x = 0 the result is 0. *)
Definition Math_atan2 (y x : R) : R :=
  if Rlt_dec 0 x then atan (y / x)
  else if Rlt_dec x 0 then
    if Rle_dec 0 y then atan (y / x) + PI else atan (y / x) - PI
  else if Rlt_dec 0 y then PI / 2
  else if Rlt_dec y 0 then - PI / 2
  else 0.

(** [a.dot(b)] on quaternions. *)
Definition quaternion_dot (a b : Quaternion.t) : R :=
  Quaternion.x a * Quaternion.x b + Quaternion.y a * Quaternion.y b +
  Quaternion.z a * Quaternion.z b + Quaternion.w a * Quaternion.w b.

(** The quaternion with every field negated: the same rotation. *)
Definition quaternion_neg (q : Quaternion.t) : Quaternion.t :=
  Quaternion.mk (- Quaternion.x q) (- Quaternion.y q) (- Quaternion.z q)
    (- Quaternion.w q).

(** [this.slerp(qb, t)] of three.js (Quaternion.js).  The library has
    had two implementations of it; this one is the earlier.  The
    receiver is left as it is for t = 0 and copied from [qb] for t = 1;
    otherwise
    [qb] is negated when its dot product with the receiver is negative,
    and the two are combined with the weights sin((1 - t) * theta) and
    sin(t * theta) over sin(theta), or, when they almost coincide, with
    the weights 1 - t and t followed by a normalisation. *)
Definition slerp (this qb : Quaternion.t) (t : R) : Traced Quaternion.t :=
  if Req_dec_T t 0 then ret this
  else if Req_dec_T t 1 then ret qb
  else
    let x := Quaternion.x this in
    let y := Quaternion.y this in
    let z := Quaternion.z this in
    let w := Quaternion.w this in
    let cosHalfTheta :=
      w * Quaternion.w qb + x * Quaternion.x qb + y * Quaternion.y qb +
      z * Quaternion.z qb in
    let this' :=
      if Rlt_dec cosHalfTheta 0 then
        Quaternion.mk (- Quaternion.x qb) (- Quaternion.y qb)
          (- Quaternion.z qb) (- Quaternion.w qb)
      else qb in
    let cosHalfTheta :=
      if Rlt_dec cosHalfTheta 0 then - cosHalfTheta else cosHalfTheta in
    if Rge_dec cosHalfTheta 1 then ret this
    else
      let sqrSinHalfTheta := 1 - cosHalfTheta * cosHalfTheta in
      if Rle_dec sqrSinHalfTheta Number_EPSILON then
        let s := 1 - t in
        Quaternion.normalize
          (Quaternion.mk (s * x + t * Quaternion.x this')
             (s * y + t * Quaternion.y this')
             (s * z + t * Quaternion.z this')
             (s * w + t * Quaternion.w this'))
      else
        let sinHalfTheta := sqrt sqrSinHalfTheta in
        let halfTheta := Math_atan2 sinHalfTheta cosHalfTheta in
        ratioA <- div (sin ((1 - t) * halfTheta)) sinHalfTheta ;;
        ratioB <- div (sin (t * halfTheta)) sinHalfTheta ;;
        ret (Quaternion.mk (x * ratioA + Quaternion.x this' * ratioB)
               (y * ratioA + Quaternion.y this' * ratioB)
               (z * ratioA + Quaternion.z this' * ratioB)
               (w * ratioA + Quaternion.w this' * ratioB)).

(** [this.slerp(qb, t)] as the later releases of three.js write it: the
    receiver is left as it is for t <= 0 and copied from [qb] for
    t >= 1; the angle is the arc cosine of the dot product, and the
    linear interpolation with a normalisation is used when the dot
    product is 0.9995 or more. *)
Definition slerp_acos (this qb : Quaternion.t) (t : R) : Traced Quaternion.t :=
  if Rle_dec t 0 then ret this
  else if Rge_dec t 1 then ret qb
  else
    let dot := quaternion_dot this qb in
    let x := if Rlt_dec dot 0 then - Quaternion.x qb else Quaternion.x qb in
    let y := if Rlt_dec dot 0 then - Quaternion.y qb else Quaternion.y qb in
    let z := if Rlt_dec dot 0 then - Quaternion.z qb else Quaternion.z qb in
    let w := if Rlt_dec dot 0 then - Quaternion.w qb else Quaternion.w qb in
    let dot := if Rlt_dec dot 0 then - dot else dot in
    let s := 1 - t in
    if Rlt_dec dot 0.9995 then
      theta <- Math_acos dot ;;
      let sin_theta := sin theta in
      s <- div (sin (s * theta)) sin_theta ;;
      t <- div (sin (t * theta)) sin_theta ;;
      ret (Quaternion.mk (Quaternion.x this * s + x * t)
             (Quaternion.y this * s + y * t)
             (Quaternion.z this * s + z * t)
             (Quaternion.w this * s + w * t))
    else
      Quaternion.normalize
        (Quaternion.mk (Quaternion.x this * s + x * t)
           (Quaternion.y this * s + y * t)
           (Quaternion.z this * s + z * t)
           (Quaternion.w this * s + w * t)).

(** [q] is on the shorter arc from the rotation [current] to the rotation
    [target]: a unit quaternion that combines, with weights that are not
    negative, [current] and a quaternion of the rotation [target]
    ([target] or its negative), and that is at least as close to each of
    the two as they are to one another. *)
Definition rotation_between (current target q : Quaternion.t) : Prop :=
  exists (target' : Quaternion.t) (a b : R),
    (target' = target \/ target' = quaternion_neg target) /\
    0 <= a /\ 0 <= b /\
    q = Quaternion.mk
          (Quaternion.x current * a + Quaternion.x target' * b)
          (Quaternion.y current * a + Quaternion.y target' * b)
          (Quaternion.z current * a + Quaternion.z target' * b)
          (Quaternion.w current * a + Quaternion.w target' * b) /\
    unit_quaternion q /\
    quaternion_dot current target' <= quaternion_dot q target' /\
    quaternion_dot current target' <= quaternion_dot current q.

(** [getLerpFactor] on binary64 numbers, as the engine computes it;
    [Math_exp] is [Math.exp]. *)
Definition getLerpFactor_binary64 (Math_exp : float -> float)
  (deltaTime speed : float) : float :=
  (1 - Math_exp (- speed * deltaTime))%float.

(** The multipliers applied to the factor where a value is written: 1,
    0.5 (spine and neck) and 0.3 (resting arms and hands). *)
Definition write_scales : list R := [1; 0.5; 0.3].

(** [Math.exp(-120)]: the binary64 number nearest to e^-120, which is
    7.667648073722e-53. *)
Definition Math_exp_minus_120 : float := 0x1.d606847fc727ap-174%float.

(** * Properties *)

(** ** Computations *)

Lemma sqrt_of_square (k X : R) : 0 <= k -> X = k * k -> sqrt X = k.
Proof. intros Hk HX. rewrite HX. apply sqrt_square. exact Hk. Qed.

Lemma value_bind {A B} (m : Traced A) (f : A -> Traced B) :
  value (bind m f) = value (f (value m)).
Proof. reflexivity. Qed.

Lemma trace_bind {A B} (m : Traced A) (f : A -> Traced B) :
  trace (bind m f) = trace m ++ trace (f (value m)).
Proof. reflexivity. Qed.

Lemma value_ret {A} (a : A) : value (ret a) = a.
Proof. reflexivity. Qed.

Lemma trace_ret {A} (a : A) : trace (ret a) = [].
Proof. reflexivity. Qed.

Lemma clamp_bounds (v lo hi : R) : lo <= hi -> lo <= clamp v lo hi <= hi.
Proof.
  intros H. unfold clamp. split.
  - apply Rmax_l.
  - apply Rmax_lub; [exact H | apply Rmin_l].
Qed.

Lemma clamp_inside (v lo hi : R) : lo <= v <= hi -> clamp v lo hi = v.
Proof.
  intros [H1 H2]. unfold clamp.
  rewrite (Rmin_right hi v) by exact H2.
  apply Rmax_right. exact H1.
Qed.

Lemma clamp_above (v lo hi : R) : lo <= hi -> hi <= v -> clamp v lo hi = hi.
Proof.
  intros H1 H2. unfold clamp.
  rewrite (Rmin_left hi v) by exact H2.
  apply Rmax_right. exact H1.
Qed.

Lemma clamp_below (v lo hi : R) : lo <= hi -> v <= lo -> clamp v lo hi = lo.
Proof.
  intros H1 H2. unfold clamp.
  rewrite (Rmin_right hi v) by lra.
  apply Rmax_left. exact H2.
Qed.

(** ** One Euro filter *)


(** The filter after a call always holds a value, a derivative and a
    timestamp, provided the three fields were set together before. *)
Lemma filter_stores (f : OneEuroFilter) (x t : R) :
  stored f ->
  let f' := snd (value (filter f x t)) in
  tPrev f' <> None /\ xPrev f' <> None /\ dxPrev f' <> None.
Proof.
  intros Hs. unfold filter.
  destruct (tPrev f) as [tp |] eqn:Ht.
  - destruct (Rle_dec (t - tp) 0).
    + cbn. rewrite Ht. destruct Hs as [Hx Hd]; [rewrite Ht; discriminate |].
      repeat split; [discriminate | exact Hx | exact Hd].
    + cbn. repeat split; discriminate.
  - cbn. repeat split; discriminate.
Qed.

Lemma new_OneEuroFilter_stored (mc b dc : R) :
  stored (new_OneEuroFilter mc b dc).
Proof. intros H. exfalso. apply H. reflexivity. Qed.

Lemma reset_stored (f : OneEuroFilter) : stored (reset f).
Proof. intros H. exfalso. apply H. reflexivity. Qed.

(** The first call returns its input and stores it, with derivative 0. *)
Lemma filter_first_call (f : OneEuroFilter) (x t : R) :
  tPrev f = None ->
  filter f x t =
  ((Some x,
    mkOneEuroFilter (minCutoff f) (beta f) (dCutoff f)
      (Some x) (Some 0) (Some t)), []).
Proof. intros Ht. unfold filter. rewrite Ht. reflexivity. Qed.

(** C3: on a call with memory and a positive elapsed time, the returned
    value is alpha * value + (1 - alpha) * prevFiltered, with
    alpha = r / (r + 1), r = 2 * PI * cutoff * te, the cutoff
    minCutoff + beta * |filtered derivative| and the filtered derivative
    the blend of (value - prevFiltered) / te with the previous derivative
    by alpha(te, dCutoff); the filter then stores the new value, the new
    derivative and the timestamp of the call. *)
Theorem filter_positive_elapsed (f : OneEuroFilter) (xp dp tp x t : R) :
  xPrev f = Some xp -> dxPrev f = Some dp -> tPrev f = Some tp ->
  0 < t - tp ->
  let te := t - tp in
  let alpha_of := fun cutoff => 2 * PI * cutoff * te / (2 * PI * cutoff * te + 1) in
  let dx := (x - xp) / te in
  let dxFiltered :=
    alpha_of (dCutoff f) * dx + (1 - alpha_of (dCutoff f)) * dp in
  let cutoff := minCutoff f + beta f * Rabs dxFiltered in
  let alpha := alpha_of cutoff in
  let xFiltered := alpha * x + (1 - alpha) * xp in
  value (filter f x t) =
  (Some xFiltered,
   mkOneEuroFilter (minCutoff f) (beta f) (dCutoff f)
     (Some xFiltered) (Some dxFiltered) (Some t)).
Proof.
  intros Hx Hd Ht Hte. unfold filter. rewrite Ht.
  destruct (Rle_dec (t - tp) 0) as [Hle | _]; [lra |].
  rewrite Hx, Hd. reflexivity.
Qed.

Lemma filter_positive_elapsed_witness :
  value (filter (mkOneEuroFilter 1 0.007 1 (Some 0) (Some 0) (Some 0)) 1 1) =
  (let te := 1 - 0 in
   let alpha_of := fun cutoff => 2 * PI * cutoff * te / (2 * PI * cutoff * te + 1) in
   let dx := (1 - 0) / te in
   let dxFiltered := alpha_of 1 * dx + (1 - alpha_of 1) * 0 in
   let cutoff := 1 + 0.007 * Rabs dxFiltered in
   let alpha := alpha_of cutoff in
   let xFiltered := alpha * 1 + (1 - alpha) * 0 in
   (Some xFiltered,
    mkOneEuroFilter 1 0.007 1 (Some xFiltered) (Some dxFiltered) (Some 1))).
Proof.
  apply (filter_positive_elapsed
           (mkOneEuroFilter 1 0.007 1 (Some 0) (Some 0) (Some 0)) 0 0 0 1 1);
    [reflexivity | reflexivity | reflexivity | lra].
Defined.

(** The quotients of a call: none when the elapsed time is not positive,
    otherwise the elapsed time first, then the two denominators of the
    smoothing factors. *)
Lemma filter_divisors (f : OneEuroFilter) (tp x t : R) :
  tPrev f = Some tp ->
  (t - tp <= 0 -> trace (filter f x t) = []) /\
  (0 < t - tp ->
   exists d1 d2, divisors (trace (filter f x t)) = [t - tp; d1; d2]).
Proof.
  intros Ht. unfold filter. rewrite Ht. split; intros Hte.
  - destruct (Rle_dec (t - tp) 0); [reflexivity | lra].
  - destruct (Rle_dec (t - tp) 0); [lra |].
    eexists. eexists. reflexivity.
Qed.

(** C7: a call whose timestamp is not after the stored one returns the
    stored value, leaves the filter as it was and performs no quotient at
    all; a second such call returns the same value. *)
Theorem filter_nonpositive_elapsed (f : OneEuroFilter) (tp x t : R) :
  tPrev f = Some tp -> t <= tp ->
  value (filter f x t) = (xPrev f, f) /\
  trace (filter f x t) = [] /\
  forall x' t', t' <= tp ->
    fst (value (filter (snd (value (filter f x t))) x' t')) =
    fst (value (filter f x t)).
Proof.
  intros Ht Hle.
  assert (Hstep : forall y s, s <= tp -> filter f y s = ((xPrev f, f), [])).
  { intros y s Hs. unfold filter. rewrite Ht.
    destruct (Rle_dec (s - tp) 0); [reflexivity | lra]. }
  rewrite (Hstep x t Hle). cbn [value trace fst snd].
  repeat split. intros x' t' Hle'. rewrite (Hstep x' t' Hle'). reflexivity.
Qed.

Lemma filter_nonpositive_elapsed_witness :
  let f := mkOneEuroFilter 1.5 0.01 1 (Some 0.25) (Some 0) (Some 2) in
  value (filter f 0.75 2) = (xPrev f, f) /\
  trace (filter f 0.75 2) = [] /\
  forall x' t', t' <= 2 ->
    fst (value (filter (snd (value (filter f 0.75 2))) x' t')) =
    fst (value (filter f 0.75 2)).
Proof.
  intros f.
  apply (filter_nonpositive_elapsed f 2 0.75 2); [reflexivity | lra].
Defined.













(** ** Arm activation *)

Ltac compare_reals :=
  repeat match goal with
         | |- context [Rgt_dec ?a ?b] => destruct (Rgt_dec a b)
         | |- context [Rlt_dec ?a ?b] => destruct (Rlt_dec a b)
         | |- context [Rle_dec ?a ?b] => destruct (Rle_dec a b)
         end.

Lemma hysteresis_inactive (v : R) :
  hysteresis false v = true <-> v > VIS_THRESHOLD_ON.
Proof.
  unfold hysteresis, gt, lt. cbn [negb andb].
  destruct (Rgt_dec v VIS_THRESHOLD_ON); split; intros H;
    try reflexivity; try assumption; try discriminate; contradiction.
Qed.

Lemma hysteresis_active (v : R) :
  hysteresis true v = false <-> v < VIS_THRESHOLD_OFF.
Proof.
  unfold hysteresis, gt, lt. cbn [negb andb].
  destruct (Rlt_dec v VIS_THRESHOLD_OFF); split; intros H;
    try reflexivity; try assumption; try discriminate; contradiction.
Qed.

Lemma hysteresis_hold (s : bool) (v : R) :
  VIS_THRESHOLD_OFF <= v <= VIS_THRESHOLD_ON -> hysteresis s v = s.
Proof.
  intros [H1 H2]. unfold hysteresis, gt, lt.
  destruct s; cbn [negb andb]; compare_reals; try reflexivity; lra.
Qed.



(** C9: a wrist landmark without a visibility field counts as confidence
    1.0, which is above 0.65: on a processed frame the arm of that wrist
    is active afterwards, whether it was active or not. *)
Theorem missing_visibility_activates
  (landmarks : list Landmark.t) (l15 l16 : Landmark.t) (st : ArmActivity) :
  nth_error landmarks 15 = Some l15 ->
  nth_error landmarks 16 = Some l16 ->
  (Landmark.visibility l15 = None ->
   wristVis l15 = 1.0 /\
   exists st', applyPose_activation true landmarks st = Some st' /\
               leftArmActive st' = true) /\
  (Landmark.visibility l16 = None ->
   wristVis l16 = 1.0 /\
   exists st', applyPose_activation true landmarks st = Some st' /\
               rightArmActive st' = true).
Proof.
  intros H15 H16.
  assert (Hone : forall s, hysteresis s 1.0 = true).
  { intros s. unfold hysteresis, gt, lt, VIS_THRESHOLD_ON, VIS_THRESHOLD_OFF.
    destruct s; cbn [negb andb]; compare_reals; try reflexivity; lra. }
  unfold applyPose_activation. cbn [negb]. rewrite H15, H16.
  split; intros Hvis; (split; [unfold wristVis; rewrite Hvis; reflexivity |]);
    eexists; (split; [reflexivity |]).
  - cbn [leftArmActive]. unfold wristVis at 1. rewrite Hvis. apply Hone.
  - cbn [rightArmActive]. unfold wristVis at 1. rewrite Hvis. apply Hone.
Qed.

Lemma missing_visibility_activates_witness :
  let l := Landmark.mk 0.5 0.5 0 None in
  (Landmark.visibility l = None ->
   wristVis l = 1.0 /\
   exists st', applyPose_activation true (repeat l 33) initialArmActivity
               = Some st' /\ leftArmActive st' = true) /\
  (Landmark.visibility l = None ->
   wristVis l = 1.0 /\
   exists st', applyPose_activation true (repeat l 33) initialArmActivity
               = Some st' /\ rightArmActive st' = true).
Proof.
  intros l.
  apply (missing_visibility_activates (repeat l 33) l l initialArmActivity);
    reflexivity.
Defined.

(** ** Coordinate mapper *)

(** C8: the mapping depends on the point and the flag only; y and z come
    out the same for both values of the flag, the mirrored mapping
    negates x, and mapping twice with the mirror gives back the x it
    started from. *)
Theorem mpToVRM_mirror (l : Landmark.t) :
  Vector3.y (mpToVRM l true) = Vector3.y (mpToVRM l false) /\
  Vector3.z (mpToVRM l true) = Vector3.z (mpToVRM l false) /\
  Vector3.x (mpToVRM l true) = - Landmark.x l /\
  Vector3.x (mpToVRM l false) = Landmark.x l /\
  Vector3.x (mpToVRM (Vector3.as_landmark (mpToVRM l true)) true) =
  Landmark.x l.
Proof.
  unfold mpToVRM, Vector3.as_landmark.
  cbn [Vector3.x Vector3.y Vector3.z Landmark.x Landmark.y Landmark.z].
  repeat split. apply Ropp_involutive.
Qed.

(** ** Damped interpolation *)

Lemma getLerpFactor_range (deltaTime speed : R) :
  0 <= deltaTime -> 0 < speed -> 0 <= getLerpFactor deltaTime speed < 1.
Proof.
  intros Hdt Hs. unfold getLerpFactor.
  pose proof (exp_pos (- speed * deltaTime)) as Hpos.
  assert (Hle : exp (- speed * deltaTime) <= 1).
  { rewrite <- exp_0.
    destruct (Req_dec (- speed * deltaTime) 0) as [He | Hne].
    - rewrite He. lra.
    - left. apply exp_increasing. nra. }
  lra.
Qed.

Lemma lerp_between (x y t : R) :
  0 <= t <= 1 ->
  between x y (lerp x y t) /\ Rabs (lerp x y t - y) <= Rabs (x - y).
Proof.
  intros Ht. unfold lerp. split.
  - unfold between, Rmin, Rmax. destruct (Rle_dec x y); nra.
  - replace ((1 - t) * x + t * y - y) with ((1 - t) * (x - y)) by ring.
    rewrite Rabs_mult, (Rabs_pos_eq (1 - t)) by lra.
    pose proof (Rabs_pos (x - y)). nra.
Qed.

(** ** Vectors and quaternions *)

Lemma Forall_defined_app (l1 l2 : list NumOp) :
  Forall defined l1 -> Forall defined l2 -> Forall defined (l1 ++ l2).
Proof. intros H1 H2. apply Forall_app. split; assumption. Qed.

Lemma vector_lengthSq_nonneg (v : Vector3.t) : 0 <= Vector3.lengthSq v.
Proof. unfold Vector3.lengthSq. nra. Qed.

Lemma vector_length_zero (v : Vector3.t) :
  Vector3.length v = 0 <-> Vector3.lengthSq v = 0.
Proof.
  unfold Vector3.length. split; intros H.
  - apply sqrt_eq_0; [apply vector_lengthSq_nonneg | exact H].
  - rewrite H. apply sqrt_0.
Qed.

Lemma vector_length_sqr (v : Vector3.t) :
  Vector3.length v * Vector3.length v = Vector3.lengthSq v.
Proof. apply sqrt_sqrt, vector_lengthSq_nonneg. Qed.

Lemma vector_length_nonneg (v : Vector3.t) : 0 <= Vector3.length v.
Proof. apply sqrt_pos. Qed.

Lemma multiplyScalar_lengthSq (v : Vector3.t) (s : R) :
  Vector3.lengthSq (Vector3.multiplyScalar v s) = Vector3.lengthSq v * (s * s).
Proof.
  unfold Vector3.lengthSq, Vector3.multiplyScalar.
  cbn [Vector3.x Vector3.y Vector3.z]. ring.
Qed.

(** [normalize] multiplies the vector by a scalar. *)
Lemma vector_normalize_value (v : Vector3.t) :
  value (Vector3.normalize v) =
  Vector3.multiplyScalar v
    (1 / (if Req_dec_T (Vector3.length v) 0 then 1 else Vector3.length v)).
Proof. reflexivity. Qed.

Lemma vector_normalize_defined (v : Vector3.t) :
  Forall defined (trace (Vector3.normalize v)).
Proof.
  unfold Vector3.normalize, Vector3.divideScalar, bind, div, ret, trace.
  cbn [fst snd app]. constructor; [| constructor]. cbn [defined].
  destruct (Req_dec_T (Vector3.length v) 0); [lra | assumption].
Qed.

Lemma vector_normalize_unit (v : Vector3.t) :
  Vector3.lengthSq v <> 0 -> unit_vector (value (Vector3.normalize v)).
Proof.
  intros Hv. unfold unit_vector.
  rewrite vector_normalize_value, multiplyScalar_lengthSq.
  destruct (Req_dec_T (Vector3.length v) 0) as [Hz | Hnz].
  - apply vector_length_zero in Hz. contradiction.
  - rewrite <- (vector_length_sqr v). field. exact Hnz.
Qed.

Lemma vector_normalize_zero (v : Vector3.t) :
  Vector3.lengthSq v = 0 ->
  Vector3.lengthSq (value (Vector3.normalize v)) = 0.
Proof.
  intros Hv. rewrite vector_normalize_value, multiplyScalar_lengthSq, Hv.
  ring.
Qed.

Lemma vector_setLength_defined (v : Vector3.t) (l : R) :
  Forall defined (trace (Vector3.setLength v l)).
Proof.
  unfold Vector3.setLength. rewrite trace_bind, trace_ret, app_nil_r.
  apply vector_normalize_defined.
Qed.

Lemma vector_setLength_lengthSq (v : Vector3.t) (l : R) :
  Vector3.lengthSq v <> 0 ->
  Vector3.lengthSq (value (Vector3.setLength v l)) = l * l.
Proof.
  intros Hv. unfold Vector3.setLength. rewrite value_bind, value_ret.
  rewrite multiplyScalar_lengthSq.
  pose proof (vector_normalize_unit v Hv) as Hu. unfold unit_vector in Hu.
  rewrite Hu. ring.
Qed.

Lemma quaternion_lengthSq_nonneg (q : Quaternion.t) :
  0 <= Quaternion.lengthSq q.
Proof. unfold Quaternion.lengthSq. nra. Qed.

Lemma quaternion_identity_unit : unit_quaternion Quaternion.identity.
Proof.
  unfold unit_quaternion, Quaternion.lengthSq, Quaternion.identity.
  cbn [Quaternion.x Quaternion.y Quaternion.z Quaternion.w]. ring.
Qed.

(** Whatever it is given, [normalize] returns a rotation, and its quotient
    has a divisor other than 0. *)
Lemma quaternion_normalize_unit (q : Quaternion.t) :
  unit_quaternion (value (Quaternion.normalize q)) /\
  Forall defined (trace (Quaternion.normalize q)).
Proof.
  unfold Quaternion.normalize.
  destruct (Req_dec_T (Quaternion.length q) 0) as [Hz | Hnz].
  - split; [apply quaternion_identity_unit | constructor].
  - split.
    + rewrite value_bind, value_ret. unfold div, value. cbn [fst].
      unfold unit_quaternion, Quaternion.lengthSq.
      cbn [Quaternion.x Quaternion.y Quaternion.z Quaternion.w].
      assert (Hl : Quaternion.length q * Quaternion.length q =
                   Quaternion.lengthSq q)
        by apply sqrt_sqrt, quaternion_lengthSq_nonneg.
      unfold Quaternion.lengthSq in Hl.
      generalize dependent (Quaternion.length q). intros l Hnz Hl.
      transitivity ((Quaternion.x q * Quaternion.x q +
                     Quaternion.y q * Quaternion.y q +
                     Quaternion.z q * Quaternion.z q +
                     Quaternion.w q * Quaternion.w q) / (l * l)).
      * field. exact Hnz.
      * rewrite <- Hl. field. exact Hnz.
    + rewrite trace_bind, trace_ret, app_nil_r. unfold div, trace.
      cbn [snd]. constructor; [exact Hnz | constructor].
Qed.

Lemma setFromUnitVectors_unit (vFrom vTo : Vector3.t) :
  unit_quaternion (value (setFromUnitVectors vFrom vTo)) /\
  Forall defined (trace (setFromUnitVectors vFrom vTo)).
Proof.
  unfold setFromUnitVectors.
  destruct (Rlt_dec _ _); [destruct (Rgt_dec _ _) |];
    apply quaternion_normalize_unit.
Qed.

Lemma quaternion_multiply_lengthSq (p q : Quaternion.t) :
  Quaternion.lengthSq (Quaternion.multiply p q) =
  Quaternion.lengthSq p * Quaternion.lengthSq q.
Proof.
  unfold Quaternion.lengthSq, Quaternion.multiply.
  cbn [Quaternion.x Quaternion.y Quaternion.z Quaternion.w]. ring.
Qed.

Lemma quaternion_multiply_unit (p q : Quaternion.t) :
  unit_quaternion p -> unit_quaternion q ->
  unit_quaternion (Quaternion.multiply p q).
Proof.
  unfold unit_quaternion. intros Hp Hq.
  rewrite quaternion_multiply_lengthSq, Hp, Hq. ring.
Qed.

Lemma quaternion_invert_unit (q : Quaternion.t) :
  unit_quaternion q -> unit_quaternion (Quaternion.invert q).
Proof.
  unfold unit_quaternion, Quaternion.lengthSq, Quaternion.invert.
  cbn [Quaternion.x Quaternion.y Quaternion.z Quaternion.w].
  intros H. rewrite <- H. ring.
Qed.

Lemma setFromAxisAngle_unit (axis : Vector3.t) (angle : R) :
  unit_vector axis -> unit_quaternion (setFromAxisAngle axis angle).
Proof.
  unfold unit_vector, Vector3.lengthSq, unit_quaternion, Quaternion.lengthSq,
    setFromAxisAngle.
  cbn [Quaternion.x Quaternion.y Quaternion.z Quaternion.w].
  intros H. pose proof (sin2_cos2 (angle / 2)) as Hsc. unfold Rsqr in Hsc.
  generalize dependent (sin (angle / 2)). intros s.
  generalize dependent (cos (angle / 2)). intros c Hsc. nra.
Qed.

(** ** Two-bone IK solver *)

Lemma div_between (n d : R) : 0 < d -> - d < n < d -> -1 < n / d < 1.
Proof.
  intros Hd [H1 H2]. split.
  - apply (Rmult_lt_reg_r d); [exact Hd |].
    unfold Rdiv. rewrite Rmult_assoc, Rinv_l by lra. lra.
  - apply (Rmult_lt_reg_r d); [exact Hd |].
    unfold Rdiv. rewrite Rmult_assoc, Rinv_l by lra. lra.
Qed.

(** Step 1.  The clamped distance is positive; it lies in
    [|a - b| + epsilon, a + b - epsilon] when that interval is not empty;
    a target that is not the origin stays away from the origin. *)
Lemma ik_clampTarget_spec (a b : R) (targetPos : Vector3.t) :
  0 < a -> 0 < b -> epsilon < a + b ->
  let r := value (ik_clampTarget a b targetPos) in
  0 < snd r /\
  Forall defined (trace (ik_clampTarget a b targetPos)) /\
  (Vector3.lengthSq targetPos <> 0 -> Vector3.lengthSq (fst r) <> 0) /\
  (Rabs (a - b) + epsilon <= a + b - epsilon ->
   Rabs (a - b) + epsilon <= snd r <= a + b - epsilon) /\
  (Vector3.length targetPos > a + b - epsilon -> snd r = a + b - epsilon) /\
  (Vector3.length targetPos <= a + b - epsilon ->
   Vector3.length targetPos < Rabs (a - b) + epsilon ->
   snd r = Rabs (a - b) + epsilon).
Proof.
  intros Ha Hb Hab. unfold ik_clampTarget.
  pose proof (Rabs_pos (a - b)) as Habs.
  assert (Heps : 0 < epsilon) by (unfold epsilon; lra).
  destruct (Rgt_dec (Vector3.length targetPos) (a + b - epsilon)) as [Hgt | Hle];
    [| destruct (Rlt_dec (Vector3.length targetPos)
                   (Rabs (a - b) + epsilon)) as [Hlt | Hge]];
    cbn zeta; rewrite ?value_bind, ?trace_bind, ?value_ret, ?trace_ret,
      ?app_nil_r; cbn [fst snd].
  - repeat split; try lra.
    + apply vector_setLength_defined.
    + intros Hv. rewrite (vector_setLength_lengthSq _ _ Hv). nra.
  - repeat split; try lra.
    + apply vector_setLength_defined.
    + intros Hv. rewrite (vector_setLength_lengthSq _ _ Hv). nra.
  - repeat split; try lra.
    constructor.
Qed.

(** Steps 2 and 3 perform a quotient by 2ac, respectively 2ab, and take the
    arc cosine of a number in [-1, 1]. *)
Lemma ik_shoulderAngle_defined (a b c : R) :
  0 < a -> 0 < c -> Forall defined (trace (ik_shoulderAngle a b c)).
Proof.
  intros Ha Hc. unfold ik_shoulderAngle, Math_acos, div, bind, trace.
  cbn [fst snd app]. constructor; [| constructor; [| constructor]].
  - cbn [defined]. nra.
  - cbn [defined]. apply clamp_bounds. lra.
Qed.

Lemma ik_elbowAngle_defined (a b c : R) :
  0 < a -> 0 < b -> Forall defined (trace (ik_elbowAngle a b c)).
Proof.
  intros Ha Hb. unfold ik_elbowAngle, Math_acos, div, bind, trace.
  cbn [fst snd app]. constructor; [| constructor; [| constructor]].
  - cbn [defined]. nra.
  - cbn [defined]. apply clamp_bounds. lra.
Qed.

(** Within the reach of the arm the cosine of step 3 needs no clamping:
    the elbow angle is the angle of the triangle of sides a, b, c opposite
    to c, strictly between 0 and PI. *)
Lemma ik_elbowAngle_triangle (a b c : R) :
  0 < a -> 0 < b -> Rabs (a - b) < c < a + b ->
  let cosElbowAngle := (a * a + b * b - c * c) / (2 * a * b) in
  -1 < cosElbowAngle < 1 /\
  value (ik_elbowAngle a b c) = acos cosElbowAngle /\
  0 < value (ik_elbowAngle a b c) < PI /\
  cos (value (ik_elbowAngle a b c)) = cosElbowAngle.
Proof.
  intros Ha Hb [Hc1 Hc2] cosE.
  assert (Hcos : -1 < cosE < 1).
  { assert (Hsq : (a - b) * (a - b) < c * c).
    { pose proof (Rabs_pos (a - b)).
      replace ((a - b) * (a - b)) with (Rabs (a - b) * Rabs (a - b)).
      - nra.
      - unfold Rabs. destruct (Rcase_abs (a - b)); ring. }
    assert (Hab : 0 < a * b) by (apply Rmult_lt_0_compat; assumption).
    assert (Hc : 0 < c) by (pose proof (Rabs_pos (a - b)); lra).
    assert (Hsq' : c * c < (a + b) * (a + b)).
    { apply Rmult_le_0_lt_compat; lra. }
    apply div_between; [lra |].
    split; lra. }
  assert (Hval : value (ik_elbowAngle a b c) = acos cosE).
  { unfold ik_elbowAngle, Math_acos, div, bind, value. cbn [fst].
    fold cosE. rewrite clamp_inside by lra. reflexivity. }
  rewrite Hval. repeat split; try lra.
  - apply acos_bound_lt. exact Hcos.
  - apply acos_bound_lt. exact Hcos.
  - apply cos_acos. lra.
Qed.

(** Step 4.  For a unit direction to the target the normal that is
    normalised is never the zero vector: it is the cross product with the
    pole direction, or with the up axis when that one is degenerate, or
    with the forward axis when both are; the result is a unit vector. *)
Lemma ik_planeNormal_spec (dirToTarget dirToPole : Vector3.t) :
  unit_vector dirToTarget ->
  let n0 := Vector3.crossVectors dirToTarget dirToPole in
  let n1 := Vector3.crossVectors dirToTarget (Vector3.mk 0 1 0) in
  let n2 := Vector3.crossVectors dirToTarget (Vector3.mk 0 0 1) in
  exists n,
    value (ik_planeNormal dirToTarget dirToPole) =
    value (Vector3.normalize n) /\
    Vector3.lengthSq n <> 0 /\
    unit_vector (value (ik_planeNormal dirToTarget dirToPole)) /\
    ((0.0001 <= Vector3.lengthSq n0 /\ n = n0) \/
     (Vector3.lengthSq n0 < 0.0001 /\ 0.0001 <= Vector3.lengthSq n1 /\
      n = n1) \/
     (Vector3.lengthSq n0 < 0.0001 /\ Vector3.lengthSq n1 < 0.0001 /\
      0.9999 < Vector3.lengthSq n2 /\ n = n2)).
Proof.
  intros Hu n0 n1 n2. unfold ik_planeNormal. fold n0 n1 n2.
  destruct (Rlt_dec (Vector3.lengthSq n0) 0.0001) as [H0 | H0];
    [destruct (Rlt_dec (Vector3.lengthSq n1) 0.0001) as [H1 | H1] |].
  - assert (H2 : 0.9999 < Vector3.lengthSq n2).
    { revert Hu H1. unfold unit_vector, n1, n2, Vector3.lengthSq,
        Vector3.crossVectors. cbn [Vector3.x Vector3.y Vector3.z].
      intros Hu H1. nra. }
    exists n2. repeat split; try reflexivity; try lra.
    + apply vector_normalize_unit. lra.
    + right. right. repeat split; try assumption; reflexivity.
  - exists n1. repeat split; try reflexivity; try lra.
    + apply vector_normalize_unit. lra.
    + right. left. repeat split; try assumption; try lra; reflexivity.
  - exists n0. repeat split; try reflexivity; try lra.
    + apply vector_normalize_unit. lra.
    + left. split; [lra | reflexivity].
Qed.

Lemma ik_planeNormal_defined (dirToTarget dirToPole : Vector3.t) :
  Forall defined (trace (ik_planeNormal dirToTarget dirToPole)).
Proof. unfold ik_planeNormal. apply vector_normalize_defined. Qed.

(** Steps 5 and 6 return a rotation whatever directions they are given. *)
Lemma ik_upperRotation_unit (boneAxis dirToTarget planeNormal : Vector3.t)
  (shoulderAngle : R) :
  unit_quaternion
    (value (ik_upperRotation boneAxis dirToTarget planeNormal shoulderAngle)) /\
  Forall defined
    (trace (ik_upperRotation boneAxis dirToTarget planeNormal shoulderAngle)).
Proof.
  unfold ik_upperRotation. cbn zeta.
  rewrite !value_bind, !trace_bind, value_ret, trace_ret. split.
  - apply quaternion_multiply_unit; apply setFromUnitVectors_unit.
  - apply Forall_defined_app; [apply vector_normalize_defined |].
    apply Forall_defined_app; [apply setFromUnitVectors_unit |].
    apply Forall_defined_app; [apply vector_normalize_defined |].
    apply Forall_defined_app; [apply setFromUnitVectors_unit | constructor].
Qed.

Lemma ik_lowerRotation_unit (boneAxis : Vector3.t) (bendAngle : R) :
  unit_quaternion (ik_lowerRotation boneAxis bendAngle).
Proof.
  unfold ik_lowerRotation. apply setFromAxisAngle_unit.
  unfold unit_vector, Vector3.lengthSq. cbn [Vector3.x Vector3.y Vector3.z].
  ring.
Qed.

(** The local variables of a solve with both bones present. *)
Lemma solveTwoBoneIK_value (upper lower : Bone) (a b : R)
  (targetPos polePos boneAxis : Vector3.t) (deltaTime : R) :
  let clamped := value (ik_clampTarget a b targetPos) in
  let c := snd clamped in
  let shoulderAngle := value (ik_shoulderAngle a b c) in
  let elbowAngle := value (ik_elbowAngle a b c) in
  let dirToTarget := value (Vector3.normalize (fst clamped)) in
  let dirToPole := value (Vector3.normalize polePos) in
  let planeNormal := value (ik_planeNormal dirToTarget dirToPole) in
  let qUpperFinal :=
    value (ik_upperRotation boneAxis dirToTarget planeNormal shoulderAngle) in
  value (solveTwoBoneIK (Some upper) (Some lower) a b targetPos polePos
           boneAxis deltaTime) =
  Some (IK.mk (getLerpFactor deltaTime LERP_SPEED) c shoulderAngle elbowAngle
          dirToTarget planeNormal qUpperFinal
          (worldToLocalQuaternion qUpperFinal (getParentWorldQuaternion upper))
          (PI - elbowAngle)
          (ik_lowerRotation boneAxis (PI - elbowAngle))).
Proof. reflexivity. Qed.

(** Every quotient of a solve has a divisor other than 0 and every arc
    cosine an argument in [-1, 1], for bones of positive length that are
    together longer than epsilon. *)
Lemma solveTwoBoneIK_defined (upper lower : Bone) (a b : R)
  (targetPos polePos boneAxis : Vector3.t) (deltaTime : R) :
  0 < a -> 0 < b -> epsilon < a + b ->
  Forall defined
    (trace (solveTwoBoneIK (Some upper) (Some lower) a b targetPos polePos
              boneAxis deltaTime)).
Proof.
  intros Ha Hb Hab. unfold solveTwoBoneIK. cbn zeta.
  destruct (ik_clampTarget_spec a b targetPos Ha Hb Hab) as (Hc & Hd & _).
  rewrite !trace_bind, trace_ret.
  apply Forall_defined_app; [exact Hd |].
  apply Forall_defined_app; [apply ik_shoulderAngle_defined; assumption |].
  apply Forall_defined_app; [apply ik_elbowAngle_defined; assumption |].
  apply Forall_defined_app; [apply vector_normalize_defined |].
  apply Forall_defined_app; [apply vector_normalize_defined |].
  apply Forall_defined_app; [apply ik_planeNormal_defined |].
  apply Forall_defined_app; [apply ik_upperRotation_unit | constructor].
Qed.

Lemma multiplyScalar_one (v : Vector3.t) : Vector3.multiplyScalar v 1 = v.
Proof.
  destruct v as [vx vy vz]. unfold Vector3.multiplyScalar.
  cbn [Vector3.x Vector3.y Vector3.z]. f_equal; ring.
Qed.

Lemma multiplyScalar_twice (v : Vector3.t) (s s' : R) :
  Vector3.multiplyScalar (Vector3.multiplyScalar v s) s' =
  Vector3.multiplyScalar v (s * s').
Proof.
  unfold Vector3.multiplyScalar. cbn [Vector3.x Vector3.y Vector3.z].
  f_equal; ring.
Qed.

(** The clamped target is the target multiplied by a scalar. *)
Lemma ik_clampTarget_parallel (a b : R) (targetPos : Vector3.t) :
  exists s, fst (value (ik_clampTarget a b targetPos)) =
            Vector3.multiplyScalar targetPos s.
Proof.
  unfold ik_clampTarget. cbn zeta.
  destruct (Rgt_dec _ _); [| destruct (Rlt_dec _ _)].
  - rewrite value_bind, value_ret. cbn [fst]. unfold Vector3.setLength.
    rewrite value_bind, value_ret, vector_normalize_value, multiplyScalar_twice.
    eexists. reflexivity.
  - rewrite value_bind, value_ret. cbn [fst]. unfold Vector3.setLength.
    rewrite value_bind, value_ret, vector_normalize_value, multiplyScalar_twice.
    eexists. reflexivity.
  - exists 1. rewrite multiplyScalar_one. reflexivity.
Qed.

Lemma cross_parallel (v : Vector3.t) (s s' : R) :
  Vector3.lengthSq
    (Vector3.crossVectors (Vector3.multiplyScalar v s)
       (Vector3.multiplyScalar v s')) = 0.
Proof.
  unfold Vector3.lengthSq, Vector3.crossVectors, Vector3.multiplyScalar.
  cbn [Vector3.x Vector3.y Vector3.z]. ring.
Qed.

(** C5: for bones of positive length (together longer than epsilon), any
    target and any pole, the solve performs no undefined operation and
    the rotations it hands to the two bones are unit quaternions; for a
    target other than the origin the bend-plane normal is a unit vector,
    obtained from the cross product with the pole direction, or with the
    world up axis when that product is degenerate, or with the world
    forward axis when both are; a pole on the line of the target always
    takes one of the two fallbacks. *)
Theorem solveTwoBoneIK_rotation_valid (upper lower : Bone) (a b : R)
  (targetPos polePos boneAxis : Vector3.t) (deltaTime : R) :
  0 < a -> 0 < b -> epsilon < a + b ->
  exists L,
    value (solveTwoBoneIK (Some upper) (Some lower) a b targetPos polePos
             boneAxis deltaTime) = Some L /\
    Forall defined
      (trace (solveTwoBoneIK (Some upper) (Some lower) a b targetPos polePos
                boneAxis deltaTime)) /\
    unit_quaternion (IK.qUpperFinal L) /\
    unit_quaternion (IK.qLowerLocal L) /\
    (unit_quaternion (getParentWorldQuaternion upper) ->
     unit_quaternion (IK.qUpperLocal L)) /\
    (Vector3.lengthSq targetPos <> 0 ->
     let dirToPole := value (Vector3.normalize polePos) in
     let n0 := Vector3.crossVectors (IK.dirToTarget L) dirToPole in
     let n1 := Vector3.crossVectors (IK.dirToTarget L) (Vector3.mk 0 1 0) in
     let n2 := Vector3.crossVectors (IK.dirToTarget L) (Vector3.mk 0 0 1) in
     unit_vector (IK.dirToTarget L) /\
     unit_vector (IK.planeNormal L) /\
     (exists n,
         IK.planeNormal L = value (Vector3.normalize n) /\
         Vector3.lengthSq n <> 0 /\
         ((0.0001 <= Vector3.lengthSq n0 /\ n = n0) \/
          (Vector3.lengthSq n0 < 0.0001 /\ 0.0001 <= Vector3.lengthSq n1 /\
           n = n1) \/
          (Vector3.lengthSq n0 < 0.0001 /\ Vector3.lengthSq n1 < 0.0001 /\
           0.9999 < Vector3.lengthSq n2 /\ n = n2))) /\
     (forall k, polePos = Vector3.multiplyScalar targetPos k ->
                Vector3.lengthSq n0 = 0)).
Proof.
  intros Ha Hb Hab. eexists. split; [apply solveTwoBoneIK_value |].
  cbn [IK.qUpperFinal IK.qLowerLocal IK.qUpperLocal IK.dirToTarget
         IK.planeNormal].
  destruct (ik_clampTarget_spec a b targetPos Ha Hb Hab)
    as (Hc & Hd & Hnz & _).
  split; [apply solveTwoBoneIK_defined; assumption |].
  split; [apply ik_upperRotation_unit |].
  split; [apply ik_lowerRotation_unit |].
  split.
  { intros Hp. unfold worldToLocalQuaternion.
    apply quaternion_multiply_unit;
      [apply quaternion_invert_unit; exact Hp | apply ik_upperRotation_unit]. }
  intros Ht.
  assert (Hu : unit_vector
                 (value (Vector3.normalize
                           (fst (value (ik_clampTarget a b targetPos)))))).
  { apply vector_normalize_unit, Hnz, Ht. }
  split; [exact Hu |].
  destruct (ik_planeNormal_spec _ (value (Vector3.normalize polePos)) Hu)
    as (n & Hn & Hnn & Hun & Hcase).
  split; [exact Hun |].
  split.
  - exists n. split; [exact Hn |]. split; [exact Hnn | exact Hcase].
  - intros k Hk.
    destruct (ik_clampTarget_parallel a b targetPos) as [s Hs].
    rewrite !vector_normalize_value, Hs, Hk, !multiplyScalar_twice.
    apply cross_parallel.
Qed.

Lemma solveTwoBoneIK_rotation_valid_witness :
  let bone := mkBone Quaternion.identity None in
  let targetPos := Vector3.mk 0.3 0 0 in
  let polePos := Vector3.multiplyScalar targetPos 0.5 in
  exists L,
    value (solveTwoBoneIK (Some bone) (Some bone) 0.3 0.3 targetPos polePos
             (Vector3.mk (-1) 0 0) 0.016) = Some L /\
    Forall defined
      (trace (solveTwoBoneIK (Some bone) (Some bone) 0.3 0.3 targetPos polePos
                (Vector3.mk (-1) 0 0) 0.016)) /\
    unit_quaternion (IK.qUpperFinal L) /\
    unit_quaternion (IK.qLowerLocal L) /\
    unit_vector (IK.planeNormal L).
Proof.
  intros bone targetPos polePos.
  destruct (solveTwoBoneIK_rotation_valid bone bone 0.3 0.3 targetPos polePos
              (Vector3.mk (-1) 0 0) 0.016)
    as (L & HL & Hd & Hu & Hl & _ & Hn).
  - lra.
  - lra.
  - unfold epsilon. lra.
  - exists L. repeat split; try assumption.
    apply Hn. unfold targetPos, Vector3.lengthSq.
    cbn [Vector3.x Vector3.y Vector3.z]. lra.
Defined.

(** C2, as the solver computes it: with bones of positive length and a
    non-empty interval [|a - b| + epsilon, a + b - epsilon], the distance
    used by the law of cosines lies in that interval, so a target at
    distance a + b is solved at a + b - epsilon and a target at distance
    |a - b| at |a - b| + epsilon; the cosine of the elbow angle is then
    strictly between -1 and 1 without clamping, the elbow angle is the
    interior angle of the triangle, strictly between 0 and PI, the flexion
    PI - elbowAngle is strictly between 0 and PI as well, and no
    operation of the solve is undefined. *)
Theorem solveTwoBoneIK_elbow_angle (upper lower : Bone) (a b : R)
  (targetPos polePos boneAxis : Vector3.t) (deltaTime : R) :
  0 < a -> 0 < b -> Rabs (a - b) + epsilon <= a + b - epsilon ->
  exists L,
    value (solveTwoBoneIK (Some upper) (Some lower) a b targetPos polePos
             boneAxis deltaTime) = Some L /\
    Rabs (a - b) + epsilon <= IK.dist L <= a + b - epsilon /\
    (Vector3.length targetPos = a + b -> IK.dist L = a + b - epsilon) /\
    (Vector3.length targetPos = Rabs (a - b) ->
     IK.dist L = Rabs (a - b) + epsilon) /\
    (Rabs (a - b) + epsilon <= Vector3.length targetPos <= a + b - epsilon ->
     IK.dist L = Vector3.length targetPos) /\
    (let cosElbowAngle :=
       (a * a + b * b - IK.dist L * IK.dist L) / (2 * a * b) in
     -1 < cosElbowAngle < 1 /\
     IK.elbowAngle L = acos cosElbowAngle /\
     cos (IK.elbowAngle L) = cosElbowAngle) /\
    0 < IK.elbowAngle L < PI /\
    IK.bendAngle L = PI - IK.elbowAngle L /\
    0 < IK.bendAngle L < PI /\
    Forall defined
      (trace (solveTwoBoneIK (Some upper) (Some lower) a b targetPos polePos
                boneAxis deltaTime)).
Proof.
  intros Ha Hb Hrange.
  assert (Heps : epsilon = 0.001) by reflexivity.
  pose proof (Rabs_pos (a - b)) as Habs.
  assert (Hab : epsilon < a + b) by lra.
  eexists. split; [apply solveTwoBoneIK_value |].
  cbn [IK.dist IK.elbowAngle IK.bendAngle].
  destruct (ik_clampTarget_spec a b targetPos Ha Hb Hab)
    as (Hc & _ & _ & Hin & Hmax & Hmin).
  specialize (Hin Hrange).
  set (c := snd (value (ik_clampTarget a b targetPos))) in *.
  destruct (ik_elbowAngle_triangle a b c Ha Hb ltac:(lra))
    as (Hcos & Hval & Hang & Hcosval).
  split; [exact Hin |].
  split; [intros Hlen; apply Hmax; lra |].
  split; [intros Hlen; apply Hmin; lra |].
  split.
  { intros [Hlo Hhi]. unfold c, ik_clampTarget. cbn zeta.
    destruct (Rgt_dec _ _); [lra |]. destruct (Rlt_dec _ _); [lra |].
    reflexivity. }
  split; [repeat split; try assumption; lra |].
  split; [exact Hang |].
  split; [reflexivity |].
  split; [lra |].
  apply solveTwoBoneIK_defined; assumption.
Qed.

Lemma solveTwoBoneIK_elbow_angle_witness :
  let bone := mkBone Quaternion.identity None in
  exists L,
    value (solveTwoBoneIK (Some bone) (Some bone) 0.3 0.3
             (Vector3.mk 0.3 (-0.3) 0) (Vector3.mk 0.3 0 0)
             (Vector3.mk (-1) 0 0) 0.016) = Some L /\
    0 < IK.elbowAngle L < PI /\
    0 < IK.bendAngle L < PI.
Proof.
  intros bone.
  destruct (solveTwoBoneIK_elbow_angle bone bone 0.3 0.3
              (Vector3.mk 0.3 (-0.3) 0) (Vector3.mk 0.3 0 0)
              (Vector3.mk (-1) 0 0) 0.016)
    as (L & HL & _ & _ & _ & _ & _ & He & _ & Hb & _).
  - lra.
  - lra.
  - unfold epsilon. replace (0.3 - 0.3) with 0 by lra. rewrite Rabs_R0. lra.
  - exists L. repeat split; try assumption; lra.
Defined.

(** The ends of the reach are not solved exactly.  With a = b = 0.3, a
    target at distance a + b is solved at distance a + b - epsilon, with
    an elbow angle other than 0 and a flexion other than 0; a target at
    distance |a - b| is solved at distance |a - b| + epsilon, with an
    elbow angle other than PI and a flexion other than PI. *)
Lemma elbow_angle_boundary_counterexample :
  let bone := mkBone Quaternion.identity None in
  let solve := fun targetPos =>
    value (solveTwoBoneIK (Some bone) (Some bone) 0.3 0.3 targetPos
             (Vector3.mk 0 (-0.3) 0) (Vector3.mk (-1) 0 0) 0.016) in
  Vector3.length (Vector3.mk 0.6 0 0) = 0.3 + 0.3 /\
  (exists L, solve (Vector3.mk 0.6 0 0) = Some L /\
             IK.dist L = 0.599 /\
             IK.elbowAngle L <> 0 /\ IK.bendAngle L <> 0) /\
  Vector3.length (Vector3.mk 0 0 0) = Rabs (0.3 - 0.3) /\
  (exists L, solve (Vector3.mk 0 0 0) = Some L /\
             IK.dist L = 0.001 /\
             IK.elbowAngle L <> PI /\ IK.bendAngle L <> PI).
Proof.
  intros bone solve.
  assert (Hzero : Rabs (0.3 - 0.3) = 0).
  { replace (0.3 - 0.3) with 0 by lra. apply Rabs_R0. }
  assert (Hfar : Vector3.length (Vector3.mk 0.6 0 0) = 0.6).
  { unfold Vector3.length, Vector3.lengthSq.
    cbn [Vector3.x Vector3.y Vector3.z].
    replace (0.6 * 0.6 + 0 * 0 + 0 * 0) with (0.6 * 0.6) by ring.
    apply sqrt_square. lra. }
  assert (Hnear : Vector3.length (Vector3.mk 0 0 0) = 0).
  { unfold Vector3.length, Vector3.lengthSq.
    cbn [Vector3.x Vector3.y Vector3.z].
    replace (0 * 0 + 0 * 0 + 0 * 0) with 0 by ring. apply sqrt_0. }
  assert (Hany : forall targetPos,
             exists L, solve targetPos = Some L /\
                       IK.dist L = snd (value (ik_clampTarget 0.3 0.3 targetPos)) /\
                       0 < IK.elbowAngle L < PI /\
                       IK.bendAngle L = PI - IK.elbowAngle L).
  { intros targetPos. eexists. split; [apply solveTwoBoneIK_value |].
    cbn [IK.dist IK.elbowAngle IK.bendAngle].
    split; [reflexivity |]. split; [| reflexivity].
    assert (Ha : 0 < 0.3) by lra.
    assert (Hab : epsilon < 0.3 + 0.3) by (unfold epsilon; lra).
    destruct (ik_clampTarget_spec 0.3 0.3 targetPos Ha Ha Hab)
      as (_ & _ & _ & Hin & _).
    rewrite Hzero in Hin. unfold epsilon in Hin. specialize (Hin ltac:(lra)).
    apply ik_elbowAngle_triangle; try assumption.
    rewrite Hzero. lra. }
  assert (Ha : 0 < 0.3) by lra.
  assert (Hab : epsilon < 0.3 + 0.3) by (unfold epsilon; lra).
  split; [rewrite Hfar; lra |].
  split.
  - destruct (Hany (Vector3.mk 0.6 0 0)) as (L & HL & Hc & He & Hb).
    destruct (ik_clampTarget_spec 0.3 0.3 (Vector3.mk 0.6 0 0) Ha Ha Hab)
      as (_ & _ & _ & _ & Hmax & _).
    exists L. split; [exact HL |]. split.
    + rewrite Hc, Hmax; [unfold epsilon; lra |].
      rewrite Hfar. unfold epsilon. lra.
    + split; lra.
  - split; [rewrite Hnear, Hzero; reflexivity |].
    destruct (Hany (Vector3.mk 0 0 0)) as (L & HL & Hc & He & Hb).
    destruct (ik_clampTarget_spec 0.3 0.3 (Vector3.mk 0 0 0) Ha Ha Hab)
      as (_ & _ & _ & _ & _ & Hmin).
    exists L. split; [exact HL |]. split.
    + rewrite Hc, Hmin; rewrite ?Hnear, ?Hzero; unfold epsilon; lra.
    + split; lra.
Qed.

(** ** Finger curl *)

(** Two points on a line through [o] with direction [d], at parameters
    [s <= t], are [(t - s) * |d|] apart. *)
Lemma distanceTo_on_line (o p q d : Vector3.t) (s t : R) :
  s <= t ->
  Vector3.subVectors p o = Vector3.multiplyScalar d s ->
  Vector3.subVectors q o = Vector3.multiplyScalar d t ->
  Vector3.distanceTo p q = (t - s) * Vector3.length d.
Proof.
  intros Hst Hp Hq.
  unfold Vector3.subVectors, Vector3.multiplyScalar in Hp, Hq.
  injection Hp as Hpx Hpy Hpz. injection Hq as Hqx Hqy Hqz.
  unfold Vector3.distanceTo, Vector3.distanceToSquared, Vector3.length.
  cbn zeta.
  replace ((Vector3.x p - Vector3.x q) * (Vector3.x p - Vector3.x q) +
           (Vector3.y p - Vector3.y q) * (Vector3.y p - Vector3.y q) +
           (Vector3.z p - Vector3.z q) * (Vector3.z p - Vector3.z q))
    with ((t - s) * (t - s) * Vector3.lengthSq d).
  - rewrite sqrt_mult; [| nra | apply vector_lengthSq_nonneg].
    rewrite sqrt_square by lra. reflexivity.
  - unfold Vector3.lengthSq.
    replace (Vector3.x p - Vector3.x q)
      with ((Vector3.x p - Vector3.x o) - (Vector3.x q - Vector3.x o)) by ring.
    replace (Vector3.y p - Vector3.y q)
      with ((Vector3.y p - Vector3.y o) - (Vector3.y q - Vector3.y o)) by ring.
    replace (Vector3.z p - Vector3.z q)
      with ((Vector3.z p - Vector3.z o) - (Vector3.z q - Vector3.z o)) by ring.
    rewrite Hpx, Hpy, Hpz, Hqx, Hqy, Hqz. ring.
Qed.

Lemma subVectors_self (o : Vector3.t) (d : Vector3.t) :
  Vector3.subVectors o o = Vector3.multiplyScalar d 0.
Proof.
  unfold Vector3.subVectors, Vector3.multiplyScalar. f_equal; ring.
Qed.

(** 0.6 ^ 0.7 * 1.5 is above 1: 0.6 ^ 7 is more than (2/3) ^ 10. *)
Lemma reshaped_curl_saturates : 1 <= Rpower 0.6 0.7 * 1.5.
Proof.
  assert (Hpos : 0 < Rpower 0.6 0.7) by (unfold Rpower; apply exp_pos).
  assert (Hten : Rpower 0.6 0.7 ^ 10 = 0.6 ^ 7).
  { rewrite <- (Rpower_pow 10 _ Hpos), Rpower_mult.
    replace (0.7 * INR 10) with (INR 7) by (simpl; lra).
    apply Rpower_pow. lra. }
  destruct (Rle_lt_dec (2 / 3) (Rpower 0.6 0.7)) as [Hge | Hlt]; [lra |].
  exfalso.
  assert (Hle : Rpower 0.6 0.7 ^ 10 <= (2 / 3) ^ 10).
  { apply pow_incr. lra. }
  rewrite Hten in Hle. lra.
Qed.

(** The curl and the two logged operations, written out. *)
Lemma curlOfJoints_value (mcpPos pipPos dipPos tipPos : Vector3.t) :
  let arcLength := Vector3.distanceTo mcpPos pipPos +
                   Vector3.distanceTo pipPos dipPos +
                   Vector3.distanceTo dipPos tipPos in
  let straightLength := Vector3.distanceTo mcpPos tipPos in
  let raw := clamp (1 - straightLength / arcLength) 0 1 in
  value (curlOfJoints mcpPos pipPos dipPos tipPos) =
  clamp (value (Math_pow raw 0.7) * 1.5) 0 1 /\
  trace (curlOfJoints mcpPos pipPos dipPos tipPos) =
  [OpDiv straightLength arcLength; OpPow raw 0.7].
Proof. split; reflexivity. Qed.

Lemma curlOfJoints_range (mcpPos pipPos dipPos tipPos : Vector3.t) :
  0 <= value (curlOfJoints mcpPos pipPos dipPos tipPos) <= 1.
Proof.
  unfold curlOfJoints. cbn zeta. rewrite !value_bind, value_ret.
  apply clamp_bounds. lra.
Qed.

(** A straight finger has curl 0. *)
Lemma curlOfJoints_straight (mcpPos pipPos dipPos tipPos : Vector3.t) :
  straight_finger mcpPos pipPos dipPos tipPos ->
  value (curlOfJoints mcpPos pipPos dipPos tipPos) = 0 /\
  Forall defined (trace (curlOfJoints mcpPos pipPos dipPos tipPos)).
Proof.
  intros (d & s & t & u & Hd & [Hs Hst] & Htu & Hu & Hp & Hq & Hr).
  assert (Hlen : 0 < Vector3.length d).
  { destruct (vector_length_nonneg d) as [Hlt | Heq]; [exact Hlt |].
    exfalso. apply Hd. apply vector_length_zero. symmetry. exact Heq. }
  pose proof (distanceTo_on_line mcpPos mcpPos pipPos d 0 s Hs
                (subVectors_self mcpPos d) Hp) as H1.
  pose proof (distanceTo_on_line mcpPos pipPos dipPos d s t Hst Hp Hq) as H2.
  pose proof (distanceTo_on_line mcpPos dipPos tipPos d t u Htu Hq Hr) as H3.
  pose proof (distanceTo_on_line mcpPos mcpPos tipPos d 0 u ltac:(lra)
                (subVectors_self mcpPos d) Hr) as H4.
  assert (Htotal : Vector3.distanceTo mcpPos pipPos +
                   Vector3.distanceTo pipPos dipPos +
                   Vector3.distanceTo dipPos tipPos =
                   Vector3.distanceTo mcpPos tipPos).
  { rewrite H1, H2, H3, H4. ring. }
  assert (Hnz : Vector3.distanceTo mcpPos tipPos <> 0).
  { rewrite H4. nra. }
  destruct (curlOfJoints_value mcpPos pipPos dipPos tipPos) as [Hv Ht].
  cbn zeta in Hv, Ht. rewrite Hv, Ht, Htotal.
  replace (Vector3.distanceTo mcpPos tipPos / Vector3.distanceTo mcpPos tipPos)
    with 1 by (field; exact Hnz).
  replace (1 - 1) with 0 by ring.
  rewrite (clamp_inside 0 0 1) by lra.
  unfold Math_pow, value. cbn [fst].
  destruct (Req_dec_T 0 0) as [_ | Hne]; [| contradiction].
  replace (0 * 1.5) with 0 by ring.
  rewrite (clamp_inside 0 0 1) by lra.
  split; [reflexivity |].
  constructor; [exact Hnz |]. constructor; [| constructor].
  cbn [defined]. right. split; [reflexivity | lra].
Qed.

(** A finger whose tip is at 0.4 times its arc length from the knuckle
    has raw curl 0.6 and reshaped curl 1. *)
Lemma curlOfJoints_folded (mcpPos pipPos dipPos tipPos : Vector3.t) :
  let arcLength := Vector3.distanceTo mcpPos pipPos +
                   Vector3.distanceTo pipPos dipPos +
                   Vector3.distanceTo dipPos tipPos in
  let straightLength := Vector3.distanceTo mcpPos tipPos in
  0 < arcLength -> straightLength = 0.4 * arcLength ->
  clamp (1 - straightLength / arcLength) 0 1 = 0.6 /\
  value (curlOfJoints mcpPos pipPos dipPos tipPos) =
  clamp (Rpower 0.6 0.7 * 1.5) 0 1 /\
  value (curlOfJoints mcpPos pipPos dipPos tipPos) = 1 /\
  Forall defined (trace (curlOfJoints mcpPos pipPos dipPos tipPos)).
Proof.
  intros arcLength straightLength Harc Hstraight.
  assert (Hraw : clamp (1 - straightLength / arcLength) 0 1 = 0.6).
  { rewrite Hstraight.
    replace (0.4 * arcLength / arcLength) with 0.4 by (field; lra).
    replace (1 - 0.4) with 0.6 by lra.
    apply clamp_inside. lra. }
  split; [exact Hraw |].
  destruct (curlOfJoints_value mcpPos pipPos dipPos tipPos) as [Hv Ht].
  cbn zeta in Hv, Ht. fold arcLength straightLength in Hv, Ht.
  rewrite Hv, Ht, Hraw. unfold Math_pow, value. cbn [fst].
  destruct (Req_dec_T 0.6 0) as [Hz | _]; [lra |].
  repeat split.
  - apply clamp_above; [lra | apply reshaped_curl_saturates].
  - constructor; [cbn [defined]; lra |]. constructor; [| constructor].
    cbn [defined]. left. lra.
Qed.

(** C6: the curl of a finger whose four joints are in the landmark array
    is clamp(clamp(1 - straight / arc, 0, 1) ^ 0.7 * 1.5, 0, 1), a number
    in [0, 1]; a straight finger has curl 0; a finger whose straight
    length is 0.4 times its arc length has raw curl 0.6 and reshaped curl
    clamp(0.6 ^ 0.7 * 1.5, 0, 1), which is between 0.98 and 1. *)
Theorem finger_curl_formula (landmarks : list Landmark.t) (fingerName : Finger)
  (m p d t : Landmark.t) :
  nth_error landmarks (mcp (FINGER_JOINTS fingerName)) = Some m ->
  nth_error landmarks (pip (FINGER_JOINTS fingerName)) = Some p ->
  nth_error landmarks (dip (FINGER_JOINTS fingerName)) = Some d ->
  nth_error landmarks (tip (FINGER_JOINTS fingerName)) = Some t ->
  let mcpPos := Vector3.of_landmark m in
  let pipPos := Vector3.of_landmark p in
  let dipPos := Vector3.of_landmark d in
  let tipPos := Vector3.of_landmark t in
  let arcLength := Vector3.distanceTo mcpPos pipPos +
                   Vector3.distanceTo pipPos dipPos +
                   Vector3.distanceTo dipPos tipPos in
  let straightLength := Vector3.distanceTo mcpPos tipPos in
  let raw := clamp (1 - straightLength / arcLength) 0 1 in
  exists curl,
    fingerCurl landmarks fingerName = Some curl /\
    (raw <> 0 -> value curl = clamp (Rpower raw 0.7 * 1.5) 0 1) /\
    (raw = 0 -> value curl = 0) /\
    0 <= value curl <= 1 /\
    (Forall defined (trace curl) <-> arcLength <> 0) /\
    (straight_finger mcpPos pipPos dipPos tipPos ->
     value curl = 0 /\ Forall defined (trace curl)) /\
    (0 < arcLength -> straightLength = 0.4 * arcLength ->
     raw = 0.6 /\
     value curl = clamp (Rpower 0.6 0.7 * 1.5) 0 1 /\
     0.98 <= value curl <= 1 /\
     Forall defined (trace curl)).
Proof.
  intros Hm Hp Hd Ht mcpPos pipPos dipPos tipPos arcLength straightLength raw.
  exists (curlOfJoints mcpPos pipPos dipPos tipPos).
  split; [unfold fingerCurl; rewrite Hm, Hp, Hd, Ht; reflexivity |].
  destruct (curlOfJoints_value mcpPos pipPos dipPos tipPos) as [Hv Htr].
  cbn zeta in Hv, Htr. fold arcLength straightLength raw in Hv, Htr.
  split.
  { intros Hraw. rewrite Hv. unfold Math_pow, value. cbn [fst].
    destruct (Req_dec_T raw 0); [contradiction | reflexivity]. }
  split.
  { intros Hraw. rewrite Hv, Hraw. unfold Math_pow, value. cbn [fst].
    destruct (Req_dec_T 0 0) as [_ | Hne]; [| contradiction].
    replace (0 * 1.5) with 0 by ring. apply clamp_inside. lra. }
  split; [apply curlOfJoints_range |].
  split.
  { rewrite Htr. split.
    - intros Hdef. apply Forall_inv in Hdef. exact Hdef.
    - intros Harc. constructor; [exact Harc |]. constructor; [| constructor].
      cbn [defined].
      destruct (clamp_bounds (1 - straightLength / arcLength) 0 1
                  ltac:(lra)) as [[Hpos | Hz] _].
      + left. exact Hpos.
      + right. split; [symmetry; exact Hz | lra]. }
  split; [apply curlOfJoints_straight |].
  intros Harc Hstraight.
  destruct (curlOfJoints_folded mcpPos pipPos dipPos tipPos Harc Hstraight)
    as (Hraw & Hcl & Hone & Hdef).
  repeat split; try assumption; rewrite Hone; lra.
Qed.

Lemma finger_curl_formula_witness :
  let pad := Landmark.mk 0 0 0 None in
  let landmarks :=
    repeat pad 5 ++
    [Landmark.mk 0 0 0 None; Landmark.mk 3 0 0 None;
     Landmark.mk 3 4 0 None; Landmark.mk 0 4 0 None] ++
    repeat pad 12 in
  exists curl,
    fingerCurl landmarks Index = Some curl /\
    value curl = clamp (Rpower 0.6 0.7 * 1.5) 0 1 /\
    0.98 <= value curl <= 1.
Proof.
  intros pad landmarks.
  destruct (finger_curl_formula landmarks Index
              (Landmark.mk 0 0 0 None) (Landmark.mk 3 0 0 None)
              (Landmark.mk 3 4 0 None) (Landmark.mk 0 4 0 None)
              eq_refl eq_refl eq_refl eq_refl)
    as (curl & Hc & _ & _ & _ & _ & _ & Hfold).
  exists curl. split; [exact Hc |].
  assert (Hsq : forall k X, 0 <= k -> X = k * k -> sqrt X = k).
  { intros k X Hk HX. rewrite HX. apply sqrt_square. exact Hk. }
  assert (H1 : Vector3.distanceTo (Vector3.mk 0 0 0) (Vector3.mk 3 0 0) = 3).
  { apply Hsq; [lra |]. unfold Vector3.distanceToSquared.
    cbn [Vector3.x Vector3.y Vector3.z]. ring. }
  assert (H2 : Vector3.distanceTo (Vector3.mk 3 0 0) (Vector3.mk 3 4 0) = 4).
  { apply Hsq; [lra |]. unfold Vector3.distanceToSquared.
    cbn [Vector3.x Vector3.y Vector3.z]. ring. }
  assert (H3 : Vector3.distanceTo (Vector3.mk 3 4 0) (Vector3.mk 0 4 0) = 3).
  { apply Hsq; [lra |]. unfold Vector3.distanceToSquared.
    cbn [Vector3.x Vector3.y Vector3.z]. ring. }
  assert (H4 : Vector3.distanceTo (Vector3.mk 0 0 0) (Vector3.mk 0 4 0) = 4).
  { apply Hsq; [lra |]. unfold Vector3.distanceToSquared.
    cbn [Vector3.x Vector3.y Vector3.z]. ring. }
  unfold Vector3.of_landmark in Hfold.
  cbn [Landmark.x Landmark.y Landmark.z] in Hfold.
  rewrite H1, H2, H3, H4 in Hfold.
  destruct Hfold as (_ & Hv & Hr & _); [lra | lra |].
  split; assumption.
Defined.

(** A hand of 21 landmarks has all the joints of every finger: the loop
    of [applyFingers] yields one curl per finger, in the order of
    [FINGER_CONFIG]. *)
Lemma applyFingers_total (landmarks : list Landmark.t) :
  length landmarks = 21%nat ->
  exists curls,
    applyFingers true landmarks = Some curls /\
    map fst curls = FINGER_CONFIG /\
    Forall (fun fc => fingerCurl landmarks (fst fc) = Some (snd fc) /\
                      0 <= value (snd fc) <= 1) curls.
Proof.
  intros Hlen.
  assert (Hget : forall n, (n < 21)%nat ->
                           exists l, nth_error landmarks n = Some l).
  { intros n Hn. destruct (nth_error landmarks n) eqn:E; [eauto |].
    apply nth_error_None in E. rewrite Hlen in E.
    exfalso. apply (proj1 (Nat.lt_nge n 21) Hn). exact E. }
  assert (Hcurl : forall f, exists c,
             fingerCurl landmarks f = Some c /\ 0 <= value c <= 1).
  { intros f. unfold fingerCurl.
    destruct (Hget (mcp (FINGER_JOINTS f))) as [m Hm];
      [destruct f; cbn; repeat constructor |].
    destruct (Hget (pip (FINGER_JOINTS f))) as [p Hp];
      [destruct f; cbn; repeat constructor |].
    destruct (Hget (dip (FINGER_JOINTS f))) as [d Hd];
      [destruct f; cbn; repeat constructor |].
    destruct (Hget (tip (FINGER_JOINTS f))) as [t Ht];
      [destruct f; cbn; repeat constructor |].
    rewrite Hm, Hp, Hd, Ht. eexists. split; [reflexivity |].
    apply curlOfJoints_range. }
  unfold applyFingers, FINGER_CONFIG. cbn [negb applyFingers_loop].
  destruct (Hcurl Thumb) as (c1 & H1 & R1).
  destruct (Hcurl Index) as (c2 & H2 & R2).
  destruct (Hcurl Middle) as (c3 & H3 & R3).
  destruct (Hcurl Ring) as (c4 & H4 & R4).
  destruct (Hcurl Little) as (c5 & H5 & R5).
  rewrite H1, H2, H3, H4, H5.
  exists [(Thumb, c1); (Index, c2); (Middle, c3); (Ring, c4); (Little, c5)].
  split; [reflexivity |]. split; [reflexivity |].
  repeat (apply Forall_cons; [cbn [fst snd]; split; assumption |]).
  apply Forall_nil.
Qed.

(** ** Interpolated writes *)

Lemma quaternion_dot_le_1 (a b : Quaternion.t) :
  unit_quaternion a -> unit_quaternion b ->
  -1 <= quaternion_dot a b <= 1.
Proof.
  unfold unit_quaternion, Quaternion.lengthSq, quaternion_dot.
  destruct a as [ax ay az aw], b as [bx by_ bz bw].
  cbn [Quaternion.x Quaternion.y Quaternion.z Quaternion.w].
  intros Ha Hb.
  pose proof (Rle_0_sqr (ax - bx)) as H1. pose proof (Rle_0_sqr (ay - by_)) as H2.
  pose proof (Rle_0_sqr (az - bz)) as H3. pose proof (Rle_0_sqr (aw - bw)) as H4.
  pose proof (Rle_0_sqr (ax + bx)) as H5. pose proof (Rle_0_sqr (ay + by_)) as H6.
  pose proof (Rle_0_sqr (az + bz)) as H7. pose proof (Rle_0_sqr (aw + bw)) as H8.
  unfold Rsqr in *. lra.
Qed.

Lemma quaternion_neg_unit (q : Quaternion.t) :
  unit_quaternion q -> unit_quaternion (quaternion_neg q).
Proof.
  unfold unit_quaternion, Quaternion.lengthSq, quaternion_neg.
  cbn [Quaternion.x Quaternion.y Quaternion.z Quaternion.w].
  intros H. rewrite <- H. ring.
Qed.

Lemma quaternion_dot_neg (p q : Quaternion.t) :
  quaternion_dot p (quaternion_neg q) = - quaternion_dot p q.
Proof.
  unfold quaternion_dot, quaternion_neg.
  cbn [Quaternion.x Quaternion.y Quaternion.z Quaternion.w]. ring.
Qed.

Lemma quaternion_dot_self (q : Quaternion.t) :
  quaternion_dot q q = Quaternion.lengthSq q.
Proof. reflexivity. Qed.

(** The angle that [Math.atan2] returns for a sine above 0 and a cosine
    that is not negative. *)
Lemma Math_atan2_first_quadrant (s c : R) :
  0 < s -> 0 <= c -> s * s + c * c = 1 ->
  let theta := Math_atan2 s c in
  sin theta = s /\ cos theta = c /\ 0 < theta <= PI / 2.
Proof.
  intros Hs Hc Hsc theta. unfold theta, Math_atan2.
  pose proof PI_RGT_0 as Hpi.
  destruct (Rlt_dec 0 c) as [Hpos | Hnpos].
  - assert (Hsq : sqrt (1 + (s / c)²) = / c).
    { apply sqrt_of_square; [left; apply Rinv_0_lt_compat; exact Hpos |].
      unfold Rsqr.
      transitivity ((s * s + c * c) / (c * c)); [field; lra |].
      rewrite Hsc. field. lra. }
    rewrite sin_atan, cos_atan, Hsq.
    split; [field; lra |]. split; [field; lra |].
    pose proof (atan_bound (s / c)) as Hb.
    assert (H0 : atan 0 < atan (s / c)).
    { apply atan_increasing. apply Rdiv_lt_0_compat; assumption. }
    rewrite atan_0 in H0. lra.
  - assert (Hc0 : c = 0) by lra. subst c.
    destruct (Rlt_dec 0 0) as [Habs | _]; [lra |].
    destruct (Rlt_dec 0 s) as [_ | Hn]; [| contradiction].
    assert (Hs1 : s = 1) by nra.
    rewrite sin_PI2, cos_PI2. repeat split; lra.
Qed.

(** The angle that [Math.acos] returns for a cosine in [0, 1). *)
Lemma Math_acos_first_quadrant (c : R) :
  0 <= c < 1 ->
  let theta := acos c in
  cos theta = c /\ 0 < sin theta /\ 0 < theta <= PI / 2.
Proof.
  intros Hc theta. pose proof PI_RGT_0 as Hpi.
  assert (Hcos : cos theta = c) by (apply cos_acos; lra).
  assert (Hb : 0 < theta < PI) by (apply acos_bound_lt; lra).
  split; [exact Hcos |]. split; [apply sin_gt_0; lra |].
  split; [lra |].
  apply (cos_decr_0 (PI / 2) theta); try lra.
  rewrite cos_PI2, Hcos. lra.
Qed.

(** The weights of the spherical interpolation: for an angle [theta] of
    at most a quarter turn between the two quaternions, the result is at
    the angle t * theta from the first and (1 - t) * theta from the
    second, so it is closer to the second as soon as t is above 0. *)
Lemma slerp_weights (theta t : R) :
  0 < theta <= PI / 2 -> 0 <= t <= 1 ->
  let A := sin ((1 - t) * theta) / sin theta in
  let B := sin (t * theta) / sin theta in
  0 <= A /\ 0 <= B /\
  A * A + B * B + 2 * A * B * cos theta = 1 /\
  cos theta <= A * cos theta + B /\
  cos theta <= A + B * cos theta /\
  (0 < t -> cos theta < A * cos theta + B).
Proof.
  intros Hth Ht A B. pose proof PI_RGT_0 as Hpi.
  assert (Hs : 0 < sin theta) by (apply sin_gt_0; lra).
  set (al := (1 - t) * theta) in *. set (be := t * theta) in *.
  assert (Hal : 0 <= al <= theta) by (unfold al; nra).
  assert (Hbe : 0 <= be <= theta) by (unfold be; nra).
  assert (Hsum : theta = al + be) by (unfold al, be; ring).
  assert (Hsal : 0 <= sin al) by (apply sin_ge_0; lra).
  assert (Hsbe : 0 <= sin be) by (apply sin_ge_0; lra).
  assert (Hcal : cos theta <= cos al) by (apply cos_decr_1; lra).
  assert (Hcbe : cos theta <= cos be) by (apply cos_decr_1; lra).
  pose proof (sin2_cos2 al) as H1. pose proof (sin2_cos2 be) as H2.
  unfold Rsqr in H1, H2.
  assert (Hsin : sin theta = sin al * cos be + cos al * sin be)
    by (rewrite Hsum; apply sin_plus).
  assert (Hcos : cos theta = cos al * cos be - sin al * sin be)
    by (rewrite Hsum; apply cos_plus).
  assert (HA : A * cos theta + B = cos al).
  { unfold A, B. apply (Rmult_eq_reg_r (sin theta)); [| lra].
    transitivity (sin al * cos theta + sin be); [field; lra |].
    rewrite Hsin, Hcos.
    generalize dependent (sin al). generalize dependent (cos al).
    generalize dependent (sin be). generalize dependent (cos be).
    intros. nsatz. }
  assert (HB : A + B * cos theta = cos be).
  { unfold A, B. apply (Rmult_eq_reg_r (sin theta)); [| lra].
    transitivity (sin al + sin be * cos theta); [field; lra |].
    rewrite Hsin, Hcos.
    generalize dependent (sin al). generalize dependent (cos al).
    generalize dependent (sin be). generalize dependent (cos be).
    intros. nsatz. }
  assert (Hinv : 0 <= / sin theta) by (left; apply Rinv_0_lt_compat; exact Hs).
  split; [apply Rmult_le_pos; assumption |].
  split; [apply Rmult_le_pos; assumption |].
  split; [| split; [rewrite HA; exact Hcal |
                    split; [rewrite HB; exact Hcbe |]]].
  - unfold A, B. apply (Rmult_eq_reg_r (sin theta * sin theta)); [| nra].
    transitivity (sin al * sin al + sin be * sin be +
                  2 * sin al * sin be * cos theta); [field; lra |].
    rewrite Hsin, Hcos.
    generalize dependent (sin al). generalize dependent (cos al).
    generalize dependent (sin be). generalize dependent (cos be).
    intros. nsatz.
  - intros Hpos. rewrite HA. apply cos_decreasing_1; try lra.
    unfold al. nra.
Qed.

(** The weights of the linear interpolation, before normalisation. *)
Lemma nlerp_weights (t d : R) :
  0 < t < 1 -> 0 <= d <= 1 ->
  let s := 1 - t in
  0 < s * s + t * t + 2 * s * t * d <= 1 /\
  d <= s * d + t /\ d <= s + t * d /\
  (d < 1 -> d < s * d + t).
Proof.
  intros Ht Hd. cbn zeta.
  assert (H1 : 0 <= (1 - t) * t * d).
  { apply Rmult_le_pos; [apply Rmult_le_pos |]; lra. }
  assert (H2 : 0 <= (1 - t) * t * (1 - d)).
  { apply Rmult_le_pos; [apply Rmult_le_pos |]; lra. }
  assert (H3 : 0 < (1 - t) * (1 - t)) by (apply Rmult_lt_0_compat; lra).
  assert (H4 : 0 < t * t) by (apply Rmult_lt_0_compat; lra).
  assert (H5 : 0 <= t * (1 - d)) by (apply Rmult_le_pos; lra).
  assert (H6 : 0 <= (1 - t) * (1 - d)) by (apply Rmult_le_pos; lra).
  split; [split; lra |]. split; [lra |]. split; [lra |].
  intros Hd1.
  assert (H7 : 0 < t * (1 - d)) by (apply Rmult_lt_0_compat; lra).
  lra.
Qed.

(** A combination of the current rotation and of a quaternion of the
    target on its side, with weights that are not negative, normalised
    and at least as close to each of the two as they are to one another:
    it is on the arc between them, and closer to the target than the
    current rotation when its dot product with the target is larger. *)
Lemma arc_combination (current target target' : Quaternion.t) (A B : R) :
  unit_quaternion current -> unit_quaternion target ->
  target' = target \/ target' = quaternion_neg target ->
  let d := quaternion_dot current target' in
  0 <= d -> 0 <= A -> 0 <= B ->
  A * A + B * B + 2 * A * B * d = 1 ->
  d <= A * d + B -> d <= A + B * d ->
  let q := Quaternion.mk
             (Quaternion.x current * A + Quaternion.x target' * B)
             (Quaternion.y current * A + Quaternion.y target' * B)
             (Quaternion.z current * A + Quaternion.z target' * B)
             (Quaternion.w current * A + Quaternion.w target' * B) in
  rotation_between current target q /\
  (d < A * d + B ->
   Rabs (quaternion_dot current target) < Rabs (quaternion_dot q target)).
Proof.
  intros Hc Ht Hrep d Hd0 HA HB Hn H1 H2 q.
  assert (Ht' : unit_quaternion target').
  { destruct Hrep as [-> | ->]; [exact Ht | apply quaternion_neg_unit, Ht]. }
  assert (Hl : Quaternion.lengthSq q =
               A * A * Quaternion.lengthSq current +
               B * B * Quaternion.lengthSq target' + 2 * A * B * d).
  { unfold q, d, Quaternion.lengthSq, quaternion_dot.
    cbn [Quaternion.x Quaternion.y Quaternion.z Quaternion.w]. ring. }
  assert (Hd1 : quaternion_dot q target' =
                A * d + B * Quaternion.lengthSq target').
  { unfold q, d, Quaternion.lengthSq, quaternion_dot.
    cbn [Quaternion.x Quaternion.y Quaternion.z Quaternion.w]. ring. }
  assert (Hd2 : quaternion_dot current q =
                A * Quaternion.lengthSq current + B * d).
  { unfold q, d, Quaternion.lengthSq, quaternion_dot.
    cbn [Quaternion.x Quaternion.y Quaternion.z Quaternion.w]. ring. }
  unfold unit_quaternion in Hc, Ht'. rewrite Hc, Ht' in Hl.
  rewrite Ht' in Hd1. rewrite Hc in Hd2.
  split.
  - exists target', A, B. split; [exact Hrep |].
    split; [exact HA |]. split; [exact HB |]. split; [reflexivity |].
    unfold unit_quaternion. fold d. rewrite Hl, Hd1, Hd2.
    split; [lra |]. split; lra.
  - intros Hstrict.
    assert (Habs : Rabs (quaternion_dot current target) = d /\
                   Rabs (quaternion_dot q target) =
                   Rabs (quaternion_dot q target')).
    { unfold d. destruct Hrep as [-> | ->].
      - split; [apply Rabs_pos_eq; exact Hd0 | reflexivity].
      - rewrite !quaternion_dot_neg, Rabs_Ropp. split; [| reflexivity].
        unfold d in Hd0. rewrite quaternion_dot_neg in Hd0.
        rewrite Rabs_left1 by lra. reflexivity. }
    destruct Habs as [-> ->]. rewrite Hd1.
    pose proof (Rle_abs (A * d + B * 1)) as Hle. lra.
Qed.

Lemma quaternion_combination_trivial (q p : Quaternion.t) :
  q = Quaternion.mk (Quaternion.x q * 1 + Quaternion.x p * 0)
        (Quaternion.y q * 1 + Quaternion.y p * 0)
        (Quaternion.z q * 1 + Quaternion.z p * 0)
        (Quaternion.w q * 1 + Quaternion.w p * 0) /\
  p = Quaternion.mk (Quaternion.x q * 0 + Quaternion.x p * 1)
        (Quaternion.y q * 0 + Quaternion.y p * 1)
        (Quaternion.z q * 0 + Quaternion.z p * 1)
        (Quaternion.w q * 0 + Quaternion.w p * 1).
Proof.
  destruct q, p. cbn [Quaternion.x Quaternion.y Quaternion.z Quaternion.w].
  split; f_equal; ring.
Qed.

(** Staying on the current rotation, or landing on the target. *)
Lemma rotation_between_ends (current target : Quaternion.t) :
  unit_quaternion current -> unit_quaternion target ->
  rotation_between current target current /\
  rotation_between current target target /\
  (Rabs (quaternion_dot current target) < 1 ->
   Rabs (quaternion_dot current target) <
   Rabs (quaternion_dot target target)).
Proof.
  intros Hc Ht.
  destruct (quaternion_combination_trivial current target) as [E1 E2].
  pose proof (quaternion_dot_le_1 current target Hc Ht) as Hd.
  split; [| split].
  - exists target, 1, 0. split; [left; reflexivity |].
    split; [lra |]. split; [lra |]. split; [exact E1 |].
    split; [exact Hc |]. rewrite quaternion_dot_self, Hc. lra.
  - exists target, 0, 1. split; [left; reflexivity |].
    split; [lra |]. split; [lra |]. split; [exact E2 |].
    split; [exact Ht |]. rewrite quaternion_dot_self, Ht. lra.
  - intros H. rewrite quaternion_dot_self, Ht, Rabs_R1. exact H.
Qed.

(** The linear interpolation of the current rotation and of a quaternion
    of the target on its side, followed by the normalisation. *)
Lemma nlerp_between (current target target' : Quaternion.t) (t : R) :
  unit_quaternion current -> unit_quaternion target ->
  target' = target \/ target' = quaternion_neg target ->
  0 < t < 1 -> 0 <= quaternion_dot current target' ->
  let s := 1 - t in
  let p := Quaternion.mk
             (Quaternion.x current * s + Quaternion.x target' * t)
             (Quaternion.y current * s + Quaternion.y target' * t)
             (Quaternion.z current * s + Quaternion.z target' * t)
             (Quaternion.w current * s + Quaternion.w target' * t) in
  Forall defined (trace (Quaternion.normalize p)) /\
  rotation_between current target (value (Quaternion.normalize p)) /\
  (quaternion_dot current target' < 1 ->
   Rabs (quaternion_dot current target) <
   Rabs (quaternion_dot (value (Quaternion.normalize p)) target)).
Proof.
  intros Hc Ht Hrep Hrange Hd0 s p.
  assert (Ht' : unit_quaternion target').
  { destruct Hrep as [-> | ->]; [exact Ht | apply quaternion_neg_unit, Ht]. }
  set (d := quaternion_dot current target') in *.
  pose proof (quaternion_dot_le_1 current target' Hc Ht') as Hd1. fold d in Hd1.
  assert (Hp : Quaternion.lengthSq p = s * s + t * t + 2 * s * t * d).
  { unfold unit_quaternion in Hc, Ht'.
    transitivity (s * s * Quaternion.lengthSq current +
                  t * t * Quaternion.lengthSq target' +
                  2 * s * t * quaternion_dot current target').
    - unfold p, Quaternion.lengthSq, quaternion_dot.
      cbn [Quaternion.x Quaternion.y Quaternion.z Quaternion.w]. ring.
    - rewrite Hc, Ht'. fold d. ring. }
  assert (Hs : 0 < s < 1) by (unfold s; lra).
  destruct (nlerp_weights t d ltac:(lra) ltac:(lra))
    as ([Hppos Hple] & W1 & W2 & W3).
  fold s in Hppos, Hple, W1, W2, W3. rewrite <- Hp in Hppos, Hple.
  set (l := Quaternion.length p).
  assert (Hl : l * l = Quaternion.lengthSq p) by (apply sqrt_sqrt; lra).
  assert (Hlpos : 0 < l) by (apply sqrt_lt_R0; exact Hppos).
  assert (Hl1 : l <= 1).
  { destruct (Rle_dec l 1) as [H | H]; [exact H |].
    assert (1 * 1 < l * l) by (apply Rmult_le_0_lt_compat; lra). lra. }
  destruct (quaternion_normalize_unit p) as [_ Hdef].
  split; [exact Hdef |].
  assert (Hv : value (Quaternion.normalize p) =
               Quaternion.mk
                 (Quaternion.x current * (s / l) + Quaternion.x target' * (t / l))
                 (Quaternion.y current * (s / l) + Quaternion.y target' * (t / l))
                 (Quaternion.z current * (s / l) + Quaternion.z target' * (t / l))
                 (Quaternion.w current * (s / l) + Quaternion.w target' * (t / l))).
  { unfold Quaternion.normalize. fold l.
    destruct (Req_dec_T l 0) as [Hz | _]; [lra |].
    rewrite value_bind, value_ret. unfold div, value. cbn [fst].
    unfold p. cbn [Quaternion.x Quaternion.y Quaternion.z Quaternion.w].
    f_equal; field; lra. }
  rewrite Hv.
  assert (Hinv : 0 < / l) by (apply Rinv_0_lt_compat; exact Hlpos).
  assert (Hinv1 : 1 <= / l).
  { rewrite <- Rinv_1. apply Rinv_le_contravar; lra. }
  assert (HA : 0 <= s / l) by (apply Rmult_le_pos; lra).
  assert (HB : 0 <= t / l) by (apply Rmult_le_pos; lra).
  assert (E1 : s / l * d + t / l = (s * d + t) * / l) by (field; lra).
  assert (E2 : s / l + t / l * d = (s + t * d) * / l) by (field; lra).
  assert (G1 : s * d + t <= (s * d + t) * / l).
  { rewrite <- (Rmult_1_r (s * d + t)) at 1. apply Rmult_le_compat_l; lra. }
  assert (G2 : s + t * d <= (s + t * d) * / l).
  { rewrite <- (Rmult_1_r (s + t * d)) at 1. apply Rmult_le_compat_l; lra. }
  destruct (arc_combination current target target' (s / l) (t / l) Hc Ht Hrep)
    as [Hbetween Hprogress]; fold d; try assumption.
  - transitivity ((s * s + t * t + 2 * s * t * d) / (l * l));
      [field; lra |]. rewrite Hl, Hp. field. lra.
  - rewrite E1. lra.
  - rewrite E2. lra.
  - split; [exact Hbetween |].
    intros Hlt. apply Hprogress. fold d. rewrite E1.
    specialize (W3 Hlt). lra.
Qed.

(** [slerp] between two rotations with a parameter in [0, 1]: the result
    is a rotation on the arc from the current one to the target, closer
    to the target than the current one as soon as the parameter is above
    0, and no quotient is undefined. *)
Lemma slerp_between (current target : Quaternion.t) (t : R) :
  unit_quaternion current -> unit_quaternion target -> 0 <= t <= 1 ->
  rotation_between current target (value (slerp current target t)) /\
  Forall defined (trace (slerp current target t)) /\
  (t = 0 -> value (slerp current target t) = current) /\
  (t = 1 -> value (slerp current target t) = target) /\
  (0 < t -> Rabs (quaternion_dot current target) < 1 ->
   Rabs (quaternion_dot current target) <
   Rabs (quaternion_dot (value (slerp current target t)) target)).
Proof.
  intros Hc Ht Hrange.
  destruct (rotation_between_ends current target Hc Ht)
    as (Hstay & Hland & Hlanded).
  unfold slerp.
  destruct (Req_dec_T t 0) as [H0 | H0].
  { split; [exact Hstay |]. split; [constructor |].
    split; [reflexivity |]. split; intros; lra. }
  destruct (Req_dec_T t 1) as [H1 | H1].
  { split; [exact Hland |]. split; [constructor |].
    split; [intros; lra |]. split; [reflexivity |].
    intros _. exact Hlanded. }
  cbn zeta.
  replace (Quaternion.w current * Quaternion.w target +
           Quaternion.x current * Quaternion.x target +
           Quaternion.y current * Quaternion.y target +
           Quaternion.z current * Quaternion.z target)
    with (quaternion_dot current target) by (unfold quaternion_dot; ring).
  set (d0 := quaternion_dot current target).
  change (Quaternion.mk (- Quaternion.x target) (- Quaternion.y target)
            (- Quaternion.z target) (- Quaternion.w target))
    with (quaternion_neg target).
  set (target' := if Rlt_dec d0 0 then quaternion_neg target else target).
  set (d := if Rlt_dec d0 0 then - d0 else d0).
  assert (Hrep : target' = target \/ target' = quaternion_neg target).
  { unfold target'. destruct (Rlt_dec d0 0); [right | left]; reflexivity. }
  assert (Hd : d = quaternion_dot current target').
  { unfold d, target'. destruct (Rlt_dec d0 0);
      [rewrite quaternion_dot_neg |]; reflexivity. }
  assert (Hd0 : 0 <= d) by (unfold d; destruct (Rlt_dec d0 0); lra).
  assert (Hdabs : d = Rabs d0).
  { unfold d, Rabs. destruct (Rlt_dec d0 0), (Rcase_abs d0); lra. }
  assert (Hends : forall q : Quaternion.t,
             (t = 0 -> q = current) /\ (t = 1 -> q = target)).
  { intros q. split; intros; contradiction. }
  destruct (Rge_dec d 1) as [Hge | Hlt].
  { split; [exact Hstay |]. split; [constructor |].
    split; [apply Hends |]. split; [apply Hends |].
    intros _ Habs. rewrite <- Hdabs in Habs. lra. }
  assert (Hd1 : d < 1) by lra.
  destruct (Rle_dec (1 - d * d) Number_EPSILON) as [Hsmall | Hlarge].
  - (* linear interpolation, then normalisation *)
    destruct (nlerp_between current target target' t Hc Ht Hrep ltac:(lra)
                ltac:(rewrite <- Hd; exact Hd0))
      as (Hdef & Hbetween & Hprogress).
    cbn zeta in Hdef, Hbetween, Hprogress.
    match goal with
    | |- context [Quaternion.normalize ?p] =>
        replace p with
          (Quaternion.mk
             (Quaternion.x current * (1 - t) + Quaternion.x target' * t)
             (Quaternion.y current * (1 - t) + Quaternion.y target' * t)
             (Quaternion.z current * (1 - t) + Quaternion.z target' * t)
             (Quaternion.w current * (1 - t) + Quaternion.w target' * t))
          by (f_equal; ring)
    end.
    split; [exact Hbetween |]. split; [exact Hdef |].
    split; [apply Hends |]. split; [apply Hends |].
    intros _ _. apply Hprogress. rewrite <- Hd. exact Hd1.
  - (* the sines of the two parts of the angle *)
    assert (Heps : 0 < Number_EPSILON).
    { unfold Number_EPSILON. apply Rinv_0_lt_compat. apply pow_lt. lra. }
    set (sinH := sqrt (1 - d * d)).
    assert (HsinH : 0 < sinH) by (apply sqrt_lt_R0; lra).
    assert (Hsq : sinH * sinH = 1 - d * d) by (apply sqrt_sqrt; lra).
    destruct (Math_atan2_first_quadrant sinH d HsinH Hd0 ltac:(lra))
      as (Hsin & Hcos & Hth).
    set (theta := Math_atan2 sinH d) in *.
    rewrite !value_bind, value_ret, !trace_bind, trace_ret, app_nil_r.
    unfold div, value, trace. cbn [fst snd app].
    destruct (slerp_weights theta t Hth Hrange)
      as (HA & HB & Hn & D1 & D2 & D3).
    rewrite Hsin in HA, HB, Hn, D1, D2, D3. rewrite Hcos in Hn, D1, D2, D3.
    rewrite Hd in Hn, D1, D2, D3.
    destruct (arc_combination current target target' _ _ Hc Ht Hrep
                ltac:(rewrite <- Hd; exact Hd0) HA HB Hn D1 D2)
      as [Hbetween Hprogress].
    split; [exact Hbetween |]. split.
    { constructor; [cbn [defined]; lra |].
      constructor; [cbn [defined]; lra | constructor]. }
    split; [apply Hends |]. split; [apply Hends |].
    intros Hpos _. apply Hprogress. apply D3. exact Hpos.
Qed.

(** The same for the implementation with the arc cosine. *)
Lemma slerp_acos_between (current target : Quaternion.t) (t : R) :
  unit_quaternion current -> unit_quaternion target -> 0 <= t <= 1 ->
  rotation_between current target (value (slerp_acos current target t)) /\
  Forall defined (trace (slerp_acos current target t)) /\
  (t = 0 -> value (slerp_acos current target t) = current) /\
  (t = 1 -> value (slerp_acos current target t) = target) /\
  (0 < t -> Rabs (quaternion_dot current target) < 1 ->
   Rabs (quaternion_dot current target) <
   Rabs (quaternion_dot (value (slerp_acos current target t)) target)).
Proof.
  intros Hc Ht Hrange.
  destruct (rotation_between_ends current target Hc Ht)
    as (Hstay & Hland & Hlanded).
  unfold slerp_acos.
  destruct (Rle_dec t 0) as [H0 | H0].
  { split; [exact Hstay |]. split; [constructor |].
    split; [reflexivity |]. split; intros; lra. }
  destruct (Rge_dec t 1) as [H1 | H1].
  { split; [exact Hland |]. split; [constructor |].
    split; [intros; lra |]. split; [reflexivity |].
    intros _. exact Hlanded. }
  cbn zeta.
  set (d0 := quaternion_dot current target).
  set (target' := if Rlt_dec d0 0 then quaternion_neg target else target).
  set (d := if Rlt_dec d0 0 then - d0 else d0).
  assert (Hx : (if Rlt_dec d0 0 then - Quaternion.x target
                else Quaternion.x target) = Quaternion.x target')
    by (unfold target'; destruct (Rlt_dec d0 0); reflexivity).
  assert (Hy : (if Rlt_dec d0 0 then - Quaternion.y target
                else Quaternion.y target) = Quaternion.y target')
    by (unfold target'; destruct (Rlt_dec d0 0); reflexivity).
  assert (Hz : (if Rlt_dec d0 0 then - Quaternion.z target
                else Quaternion.z target) = Quaternion.z target')
    by (unfold target'; destruct (Rlt_dec d0 0); reflexivity).
  assert (Hw : (if Rlt_dec d0 0 then - Quaternion.w target
                else Quaternion.w target) = Quaternion.w target')
    by (unfold target'; destruct (Rlt_dec d0 0); reflexivity).
  rewrite Hx, Hy, Hz, Hw.
  assert (Hrep : target' = target \/ target' = quaternion_neg target).
  { unfold target'. destruct (Rlt_dec d0 0); [right | left]; reflexivity. }
  assert (Ht' : unit_quaternion target').
  { destruct Hrep as [-> | ->]; [exact Ht | apply quaternion_neg_unit, Ht]. }
  assert (Hd : d = quaternion_dot current target').
  { unfold d, target'. destruct (Rlt_dec d0 0);
      [rewrite quaternion_dot_neg |]; reflexivity. }
  assert (Hd0 : 0 <= d) by (unfold d; destruct (Rlt_dec d0 0); lra).
  pose proof (quaternion_dot_le_1 current target' Hc Ht') as Hd1.
  rewrite <- Hd in Hd1.
  assert (Hdabs : d = Rabs d0).
  { unfold d, Rabs. destruct (Rlt_dec d0 0), (Rcase_abs d0); lra. }
  assert (Hends : forall q : Quaternion.t,
             (t = 0 -> q = current) /\ (t = 1 -> q = target)).
  { intros q. split; intros; lra. }
  destruct (Rlt_dec d 0.9995) as [Hslerp | Hlerp].
  - destruct (Math_acos_first_quadrant d ltac:(lra)) as (Hcos & Hsin & Hth).
    cbn zeta in Hcos, Hsin, Hth.
    rewrite !value_bind, value_ret, !trace_bind, trace_ret, app_nil_r.
    unfold Math_acos, div, value, trace. cbn [fst snd app].
    set (theta := acos d) in *.
    destruct (slerp_weights theta t Hth Hrange)
      as (HA & HB & Hn & D1 & D2 & D3).
    rewrite Hcos in Hn, D1, D2, D3. rewrite Hd in Hn, D1, D2, D3.
    destruct (arc_combination current target target' _ _ Hc Ht Hrep
                ltac:(rewrite <- Hd; exact Hd0) HA HB Hn D1 D2)
      as [Hbetween Hprogress].
    split; [exact Hbetween |]. split.
    { constructor; [cbn [defined]; lra |].
      constructor; [cbn [defined]; lra |].
      constructor; [cbn [defined]; lra | constructor]. }
    split; [apply Hends |]. split; [apply Hends |].
    intros Hpos _. apply Hprogress. apply D3. lra.
  - destruct (nlerp_between current target target' t Hc Ht Hrep ltac:(lra)
                ltac:(rewrite <- Hd; exact Hd0))
      as (Hdef & Hbetween & Hprogress).
    cbn zeta in Hdef, Hbetween, Hprogress.
    split; [exact Hbetween |]. split; [exact Hdef |].
    split; [apply Hends |]. split; [apply Hends |].
    intros _ Habs. apply Hprogress. rewrite <- Hd.
    fold d0 in Habs. rewrite <- Hdabs in Habs. exact Habs.
Qed.

(** A value written with [lerp] moves toward its target. *)
Lemma lerp_progress (x y t : R) :
  0 < t <= 1 -> x <> y -> Rabs (lerp x y t - y) < Rabs (x - y).
Proof.
  intros Ht Hne. unfold lerp.
  replace ((1 - t) * x + t * y - y) with ((1 - t) * (x - y)) by ring.
  rewrite Rabs_mult, (Rabs_pos_eq (1 - t)) by lra.
  assert (Hpos : 0 < Rabs (x - y)) by (apply Rabs_pos_lt; lra).
  assert (H : 0 < t * Rabs (x - y)) by (apply Rmult_lt_0_compat; lra).
  lra.
Qed.

(** C10, with the interval closed at 1: for a frame time that is not
    negative and a positive speed the factor 1 - exp(-speed * deltaTime)
    is a real number of [0, 1), and so are its multiples by 0.5 and 0.3
    that are used where a value is written.  For every parameter of the
    closed interval [0, 1], which covers the factor and the value 1 to
    which double precision can round it, an expression written with
    [lerp] lies between the current value and the target, no farther
    from the target than the current value was and strictly closer when
    the parameter is above 0; a rotation written with [slerp] between
    two rotations is a rotation on the arc from the current one to the
    target, strictly closer to the target when the parameter is above 0,
    obtained without an undefined quotient or arc cosine, for either
    implementation of [slerp]; with the parameter 1 both land exactly on
    the target. *)
Theorem getLerpFactor_convex (deltaTime speed : R) :
  0 <= deltaTime -> 0 < speed ->
  let factor := getLerpFactor deltaTime speed in
  0 <= factor < 1 /\
  Forall (fun k => 0 <= factor * k < 1) write_scales /\
  forall t, 0 <= t <= 1 ->
    (forall current target,
       between current target (lerp current target t) /\
       Rabs (lerp current target t - target) <= Rabs (current - target) /\
       (0 < t -> current <> target ->
        Rabs (lerp current target t - target) < Rabs (current - target))) /\
    (forall current target,
       unit_quaternion current -> unit_quaternion target ->
       Forall
         (fun written : Traced Quaternion.t =>
            rotation_between current target (value written) /\
            Forall defined (trace written) /\
            (0 < t -> Rabs (quaternion_dot current target) < 1 ->
             Rabs (quaternion_dot current target) <
             Rabs (quaternion_dot (value written) target)))
         [slerp current target t; slerp_acos current target t]) /\
    (t = 1 ->
     (forall current target, lerp current target t = target) /\
     (forall current target,
        value (slerp current target t) = target /\
        value (slerp_acos current target t) = target)).
Proof.
  intros Hdt Hs factor.
  pose proof (getLerpFactor_range deltaTime speed Hdt Hs) as H.
  fold factor in H.
  split; [exact H |]. split.
  - unfold write_scales.
    constructor; [lra |]. constructor; [lra |]. constructor; [lra |].
    constructor.
  - intros t Ht. split; [| split].
    + intros current target.
      destruct (lerp_between current target t Ht) as [Hb Hd].
      split; [exact Hb |]. split; [exact Hd |].
      intros Hpos Hne. apply lerp_progress; [lra | exact Hne].
    + intros current target Hc Hu.
      destruct (slerp_between current target t Hc Hu Ht)
        as (Hb & Hd & _ & _ & Hp).
      destruct (slerp_acos_between current target t Hc Hu Ht)
        as (Hb' & Hd' & _ & _ & Hp').
      constructor; [repeat split; assumption |].
      constructor; [repeat split; assumption | constructor].
    + intros H1. subst t. split; intros current target.
      * unfold lerp. ring.
      * split.
        -- unfold slerp. destruct (Req_dec_T 1 0) as [Habs | _]; [lra |].
           destruct (Req_dec_T 1 1) as [_ | Habs]; [reflexivity | lra].
        -- unfold slerp_acos. destruct (Rle_dec 1 0) as [Habs | _]; [lra |].
           destruct (Rge_dec 1 1) as [_ | Habs]; [reflexivity | lra].
Qed.

Lemma getLerpFactor_convex_witness :
  let factor := getLerpFactor 0.016 LERP_SPEED in
  0 <= factor < 1 /\
  Forall (fun k => 0 <= factor * k < 1) write_scales /\
  forall t, 0 <= t <= 1 ->
    (forall current target,
       between current target (lerp current target t) /\
       Rabs (lerp current target t - target) <= Rabs (current - target) /\
       (0 < t -> current <> target ->
        Rabs (lerp current target t - target) < Rabs (current - target))) /\
    (forall current target,
       unit_quaternion current -> unit_quaternion target ->
       Forall
         (fun written : Traced Quaternion.t =>
            rotation_between current target (value written) /\
            Forall defined (trace written) /\
            (0 < t -> Rabs (quaternion_dot current target) < 1 ->
             Rabs (quaternion_dot current target) <
             Rabs (quaternion_dot (value written) target)))
         [slerp current target t; slerp_acos current target t]) /\
    (t = 1 ->
     (forall current target, lerp current target t = target) /\
     (forall current target,
        value (slerp current target t) = target /\
        value (slerp_acos current target t) = target)).
Proof.
  apply (getLerpFactor_convex 0.016 LERP_SPEED); unfold LERP_SPEED; lra.
Defined.

(** With the interval open at 1 the statement fails on the numbers of
    the engine: for a frame of 10 s at the speed 12, -speed * deltaTime
    is -120, [Math.exp] returns a number below 2^-54 and the subtraction
    from 1 rounds to 1 itself, which is not below 1.  Every value of
    [Math.exp] up to 2^-54 gives the same. *)
Lemma getLerpFactor_binary64_counterexample :
  (- 12 * 10 = -120)%float /\
  getLerpFactor_binary64 (fun _ => Math_exp_minus_120) 10 12 = 1%float /\
  (getLerpFactor_binary64 (fun _ => Math_exp_minus_120) 10 12 <? 1)%float
  = false /\
  getLerpFactor_binary64 (fun _ => 0x1p-54%float) 10 12 = 1%float.
Proof. repeat split. Qed.

(** * Further properties *)

(** ** One Euro filter: any input *)










Lemma ratio_increasing (r1 r2 : R) :
  0 < r1 -> r1 < r2 -> r1 / (r1 + 1) < r2 / (r2 + 1).
Proof.
  intros H1 H2.
  apply (Rmult_lt_reg_r ((r1 + 1) * (r2 + 1))); [nra |].
  replace (r1 / (r1 + 1) * ((r1 + 1) * (r2 + 1))) with (r1 * (r2 + 1))
    by (field; lra).
  replace (r2 / (r2 + 1) * ((r1 + 1) * (r2 + 1))) with (r2 * (r1 + 1))
    by (field; lra).
  nra.
Qed.

(** X3: the smoothing factor grows with the cutoff and with the elapsed
    time: a higher cutoff, or a longer gap between samples, gives the new
    sample more weight. *)
Theorem smoothingFactor_increasing (te1 te2 cutoff1 cutoff2 : R) :
  0 < te1 -> 0 < cutoff1 ->
  (te1 < te2 /\ cutoff1 <= cutoff2) \/ (te1 <= te2 /\ cutoff1 < cutoff2) ->
  value (smoothingFactor te1 cutoff1) < value (smoothingFactor te2 cutoff2).
Proof.
  intros Hte Hc Hlt. unfold smoothingFactor, div, value. cbn [fst].
  pose proof PI_RGT_0 as Hpi.
  assert (Hpc : 0 < 2 * PI * cutoff1) by nra.
  apply ratio_increasing.
  - nra.
  - destruct Hlt as [[H1 H2] | [H1 H2]].
    + assert (2 * PI * cutoff1 <= 2 * PI * cutoff2) by nra. nra.
    + assert (2 * PI * cutoff1 < 2 * PI * cutoff2) by nra. nra.
Qed.

Lemma smoothingFactor_increasing_witness :
  value (smoothingFactor 0.016 1.5) < value (smoothingFactor 0.033 1.5).
Proof.
  apply (smoothingFactor_increasing 0.016 0.033 1.5 1.5); lra.
Defined.

(** ** Pose filter bank *)

Lemma filter_first_value (f : OneEuroFilter) (x t : R) :
  tPrev f = None -> fst (value (filter f x t)) = Some x /\
                    trace (filter f x t) = [].
Proof.
  intros H. rewrite (filter_first_call f x t H). split; reflexivity.
Qed.

(** A new 3D filter returns the point it is given. *)
Lemma filter3D_first (mc b : R) (point : Landmark.t) (t : R) :
  fst (value (filter3D (new_OneEuroFilter3D mc b) point t)) = point /\
  trace (filter3D (new_OneEuroFilter3D mc b) point t) = [].
Proof.
  destruct point as [px py pz pv]. split; reflexivity.
Qed.

Lemma filter3D_visibility (f : OneEuroFilter3D) (point : Landmark.t) (t : R) :
  Landmark.visibility (fst (value (filter3D f point t))) =
  Landmark.visibility point.
Proof. reflexivity. Qed.

(** The bank fails exactly when it has fewer filters than there are
    landmarks; otherwise it returns one landmark per input landmark, with
    the visibility of the input, and keeps its number of filters. *)
Lemma filter_bank_spec (t : R) (lms : list Landmark.t) :
  forall bank : list OneEuroFilter3D,
    let r := value (filter_bank bank lms t) in
    (fst r = None <-> (length bank < length lms)%nat) /\
    (forall out, fst r = Some out ->
                 map Landmark.visibility out = map Landmark.visibility lms) /\
    ((length lms <= length bank)%nat -> length (snd r) = length bank).
Proof.
  induction lms as [| lm lms IH]; intros bank.
  - cbn. split; [| split].
    + split; [discriminate | intros H; inversion H].
    + intros out H. inversion H. reflexivity.
    + reflexivity.
  - destruct bank as [| f bank].
    + cbn. split; [| split].
      * split; [intros _; apply Nat.lt_0_succ | reflexivity].
      * discriminate.
      * intros H. inversion H.
    + cbn [filter_bank]. rewrite !value_bind, value_ret. cbn [fst snd].
      destruct (IH bank) as (Hnone & Hvis & Hlen). cbn zeta in Hnone, Hvis, Hlen.
      destruct (fst (value (filter_bank bank lms t))) as [out' |] eqn:E.
      * split; [| split].
        -- split; [discriminate |].
           intros H. cbn [length] in H. apply Nat.succ_lt_mono in H.
           apply Hnone in H. discriminate.
        -- intros out H. inversion H. cbn [map]. f_equal.
           apply Hvis. reflexivity.
        -- intros H. cbn [length] in *. f_equal. apply Hlen.
           apply Nat.succ_le_mono. exact H.
      * split; [| split].
        -- split; [| reflexivity]. intros _. cbn [length].
           apply -> Nat.succ_lt_mono. apply Hnone. reflexivity.
        -- discriminate.
        -- intros H. cbn [length] in *. f_equal. apply Hlen.
           apply Nat.succ_le_mono. exact H.
Qed.

(** A bank of new filters returns the landmarks it is given and performs
    no quotient. *)
Lemma filter_bank_first (mc b t : R) (lms : list Landmark.t) :
  forall n, (length lms <= n)%nat ->
    fst (value (filter_bank (repeat (new_OneEuroFilter3D mc b) n) lms t)) =
    Some lms /\
    trace (filter_bank (repeat (new_OneEuroFilter3D mc b) n) lms t) = [].
Proof.
  induction lms as [| lm lms IH]; intros n Hn; [split; reflexivity |].
  destruct n as [| n]; [inversion Hn |].
  cbn [repeat filter_bank]. rewrite !value_bind, !trace_bind, value_ret, trace_ret.
  cbn [fst snd]. cbn [length] in Hn. apply Nat.succ_le_mono in Hn.
  destruct (IH n Hn) as [Hv Ht]. destruct (filter3D_first mc b lm t) as [H1 H2].
  rewrite Hv, Ht, H1, H2. split; reflexivity.
Qed.

Lemma nth_error_same_visibility (out lms : list Landmark.t) (n : nat) :
  map Landmark.visibility out = map Landmark.visibility lms ->
  match nth_error out n, nth_error lms n with
  | Some a, Some b => Landmark.visibility a = Landmark.visibility b
  | None, None => True
  | _, _ => False
  end.
Proof.
  intros H.
  assert (Hn : nth_error (map Landmark.visibility out) n =
               nth_error (map Landmark.visibility lms) n) by (rewrite H; reflexivity).
  rewrite !nth_error_map in Hn.
  destruct (nth_error out n), (nth_error lms n); cbn in Hn;
    try discriminate; [injection Hn as Hn; exact Hn | exact I].
Qed.

Lemma applyPose_activation_visibility (currentVrm : bool)
  (out lms : list Landmark.t) (st : ArmActivity) :
  map Landmark.visibility out = map Landmark.visibility lms ->
  applyPose_activation currentVrm out st =
  applyPose_activation currentVrm lms st.
Proof.
  intros H. unfold applyPose_activation.
  destruct (negb currentVrm); [reflexivity |].
  pose proof (nth_error_same_visibility out lms 15 H) as H15.
  pose proof (nth_error_same_visibility out lms 16 H) as H16.
  destruct (nth_error out 15) as [a |], (nth_error lms 15) as [a' |];
    try contradiction;
    destruct (nth_error out 16) as [b |], (nth_error lms 16) as [b' |];
    try contradiction; try reflexivity.
  unfold wristVis. rewrite H15, H16. reflexivity.
Qed.

(** X4: on the first pose frame, with at most 33 landmarks in each array,
    the filtered landmarks are the landmarks themselves (coordinates and
    visibility) and no quotient is evaluated. *)
Theorem getFilteredPoseLandmarks_first_frame (landmarks : list Landmark.t)
  (worldLandmarks : option (list Landmark.t)) (timestamp : R) :
  (length landmarks <= 33)%nat ->
  (forall wl, worldLandmarks = Some wl -> (length wl <= 33)%nat) ->
  fst (value (getFilteredPoseLandmarks None landmarks worldLandmarks
                timestamp)) = Some (landmarks, worldLandmarks) /\
  trace (getFilteredPoseLandmarks None landmarks worldLandmarks timestamp)
  = [].
Proof.
  intros Hl Hw. unfold getFilteredPoseLandmarks, new_PoseFilters.
  cbn [pf_landmarks pf_worldLandmarks].
  destruct (filter_bank_first 1.5 0.01 (timestamp / 1000) landmarks 33 Hl)
    as [Hv Ht].
  rewrite value_bind, trace_bind, Hv, Ht.
  destruct worldLandmarks as [wl |].
  - destruct (filter_bank_first 1.5 0.01 (timestamp / 1000) wl 33
                (Hw wl eq_refl)) as [Hv' Ht'].
    rewrite value_bind, trace_bind, Hv', Ht'. split; reflexivity.
  - split; reflexivity.
Qed.

Lemma getFilteredPoseLandmarks_first_frame_witness :
  let landmarks := repeat (Landmark.mk 0.5 0.5 0 (Some 0.9)) 33 in
  fst (value (getFilteredPoseLandmarks None landmarks (Some landmarks) 1000))
  = Some (landmarks, Some landmarks) /\
  trace (getFilteredPoseLandmarks None landmarks (Some landmarks) 1000) = [].
Proof.
  intros landmarks.
  apply (getFilteredPoseLandmarks_first_frame landmarks (Some landmarks) 1000).
  - apply Nat.le_refl.
  - intros wl H. injection H as <-. apply Nat.le_refl.
Defined.

(** X5: a pose frame fails exactly when an array has more landmarks than
    its bank has filters (33 for the bank built on the first call): the
    filter that is looked up does not exist. *)
Theorem getFilteredPoseLandmarks_fails_iff (poseFilters : option PoseFilters)
  (landmarks : list Landmark.t) (worldLandmarks : option (list Landmark.t))
  (timestamp : R) :
  let pf := match poseFilters with Some pf => pf | None => new_PoseFilters end in
  fst (value (getFilteredPoseLandmarks poseFilters landmarks worldLandmarks
                timestamp)) = None <->
  ((length (pf_landmarks pf) < length landmarks)%nat \/
   exists wl, worldLandmarks = Some wl /\
              (length (pf_worldLandmarks pf) < length wl)%nat).
Proof.
  intros pf. unfold getFilteredPoseLandmarks. fold pf.
  destruct (filter_bank_spec (timestamp / 1000) landmarks (pf_landmarks pf))
    as (Hnone & _ & _). cbn zeta in Hnone.
  rewrite value_bind.
  destruct (fst (value (filter_bank (pf_landmarks pf) landmarks
                          (timestamp / 1000)))) as [out |] eqn:E.
  - assert (Hok : ~ (length (pf_landmarks pf) < length landmarks)%nat).
    { intros H. apply Hnone in H. discriminate. }
    destruct worldLandmarks as [wl |].
    + destruct (filter_bank_spec (timestamp / 1000) wl (pf_worldLandmarks pf))
        as (Hnone' & _ & _). cbn zeta in Hnone'.
      rewrite value_bind, value_ret. cbn [fst].
      destruct (fst (value (filter_bank (pf_worldLandmarks pf) wl
                              (timestamp / 1000)))) as [outw |] eqn:E'.
      * split; [discriminate |].
        intros [H | (wl' & Hwl & H)]; [contradiction |].
        injection Hwl as <-. apply Hnone' in H. discriminate.
      * split; [| reflexivity]. intros _. right. exists wl.
        split; [reflexivity | apply Hnone'; reflexivity].
    + rewrite value_ret. cbn [fst]. split; [discriminate |].
      intros [H | (wl' & Hwl & _)]; [contradiction | discriminate].
  - rewrite value_ret. cbn [fst]. split; [| reflexivity].
    intros _. left. apply Hnone. reflexivity.
Qed.

(** X6: filtering never touches the visibility of a landmark, so the arm
    activation decided on the filtered landmarks is the one that the raw
    landmarks give. *)
Theorem getFilteredPoseLandmarks_keeps_activation
  (poseFilters : option PoseFilters) (landmarks : list Landmark.t)
  (worldLandmarks : option (list Landmark.t)) (timestamp : R)
  (filteredLandmarks : list Landmark.t)
  (filteredWorldLandmarks : option (list Landmark.t))
  (currentVrm : bool) (st : ArmActivity) :
  fst (value (getFilteredPoseLandmarks poseFilters landmarks worldLandmarks
                timestamp)) =
  Some (filteredLandmarks, filteredWorldLandmarks) ->
  map Landmark.visibility filteredLandmarks =
  map Landmark.visibility landmarks /\
  applyPose_activation currentVrm filteredLandmarks st =
  applyPose_activation currentVrm landmarks st.
Proof.
  intros H.
  assert (Hvis : map Landmark.visibility filteredLandmarks =
                 map Landmark.visibility landmarks).
  { unfold getFilteredPoseLandmarks in H. rewrite value_bind in H.
    set (pf := match poseFilters with
               | Some pf => pf
               | None => new_PoseFilters
               end) in H.
    destruct (filter_bank_spec (timestamp / 1000) landmarks (pf_landmarks pf))
      as (_ & Hv & _). cbn zeta in Hv.
    destruct (fst (value (filter_bank (pf_landmarks pf) landmarks
                            (timestamp / 1000)))) as [out |] eqn:E;
      [| discriminate H].
    assert (Hout : out = filteredLandmarks).
    { destruct worldLandmarks as [wl |].
      - rewrite value_bind, value_ret in H. cbn [fst] in H.
        destruct (fst (value (filter_bank (pf_worldLandmarks pf) wl
                                (timestamp / 1000)))); [| discriminate H].
        injection H as H _. exact H.
      - rewrite value_ret in H. cbn [fst] in H. injection H as H _. exact H. }
    rewrite <- Hout. apply Hv. reflexivity. }
  split; [exact Hvis | apply applyPose_activation_visibility; exact Hvis].
Qed.

Lemma getFilteredPoseLandmarks_keeps_activation_witness :
  let landmarks := repeat (Landmark.mk 0.5 0.5 0 (Some 0.9)) 33 in
  map Landmark.visibility landmarks = map Landmark.visibility landmarks /\
  applyPose_activation true landmarks initialArmActivity =
  applyPose_activation true landmarks initialArmActivity.
Proof.
  intros landmarks.
  apply (getFilteredPoseLandmarks_keeps_activation None landmarks None 1000
           landmarks None true initialArmActivity).
  reflexivity.
Defined.

(** ** Arm activation over time *)

Lemma last_cons_default {A : Type} (l : list A) (a d d' : A) :
  last (a :: l) d = last (a :: l) d'.
Proof.
  revert a. induction l as [| b l IH]; intros a; [reflexivity |].
  change (last (b :: l) d = last (b :: l) d'). apply IH.
Qed.

Lemma last_app_cons {A : Type} (l l' : list A) (a d : A) :
  last (l ++ a :: l') d = last (a :: l') d.
Proof.
  induction l as [| b l IH]; [reflexivity |].
  cbn [app]. destruct (l ++ a :: l') eqn:E.
  - destruct l; discriminate E.
  - rewrite <- IH. reflexivity.
Qed.

Lemma gate_run_app (s : bool) (cs1 cs2 : list R) :
  gate_run s (cs1 ++ cs2) =
  gate_run s cs1 ++ gate_run (last (gate_run s cs1) s) cs2.
Proof.
  revert s. induction cs1 as [| c cs1 IH]; intros s; [reflexivity |].
  cbn [app gate_run]. rewrite IH. f_equal. f_equal. f_equal.
  destruct (gate_run (hysteresis s c) cs1) as [| b l]; [reflexivity |].
  change (last (b :: l) (hysteresis s c) = last (b :: l) s).
  apply last_cons_default.
Qed.

Lemma gate_run_hold (s : bool) (cs : list R) :
  Forall (fun c => VIS_THRESHOLD_OFF <= c <= VIS_THRESHOLD_ON) cs ->
  gate_run s cs = repeat s (length cs).
Proof.
  induction cs as [| c cs IH]; intros H; [reflexivity |].
  apply Forall_cons_iff in H. destruct H as [Hc Hcs].
  cbn [gate_run length repeat]. rewrite (hysteresis_hold s c Hc), (IH Hcs).
  reflexivity.
Qed.

Lemma last_repeat (s d : bool) (n : nat) : last (s :: repeat s n) d = s.
Proof.
  induction n as [| n IH]; [reflexivity |].
  cbn [repeat]. exact IH.
Qed.

(** X7: confidences that stay between the two thresholds never change the
    state of an arm, however long the sequence: no flicker. *)
Theorem gate_run_no_flicker (s : bool) (cs : list R) :
  Forall (fun c => 0.45 <= c <= 0.65) cs ->
  gate_run s cs = repeat s (length cs).
Proof. apply gate_run_hold. Qed.

Lemma gate_run_no_flicker_witness :
  gate_run true [0.5; 0.46; 0.64; 0.5] = repeat true 4.
Proof.
  apply (gate_run_no_flicker true [0.5; 0.46; 0.64; 0.5]).
  repeat constructor; lra.
Defined.

(** X8: the state of an arm after a sequence of frames is decided by the
    last confidence outside the dead zone alone: active when it was above
    0.65, inactive when it was below 0.45, whatever came before it and
    whatever dead-zone confidences came after it. *)
Theorem gate_run_last_decisive (s : bool) (before : list R) (c : R)
  (later : list R) :
  Forall (fun c' => 0.45 <= c' <= 0.65) later ->
  (0.65 < c -> last (gate_run s (before ++ c :: later)) s = true) /\
  (c < 0.45 -> last (gate_run s (before ++ c :: later)) s = false).
Proof.
  intros Hlater.
  assert (Hlast : last (gate_run s (before ++ c :: later)) s =
                  hysteresis (last (gate_run s before) s) c).
  { rewrite gate_run_app. cbn [gate_run].
    rewrite (gate_run_hold _ later Hlater), last_app_cons.
    apply last_repeat. }
  rewrite Hlast. split; intros Hc.
  - destruct (last (gate_run s before) s).
    + destruct (hysteresis true c) eqn:E; [reflexivity |].
      apply hysteresis_active in E. unfold VIS_THRESHOLD_OFF in E. lra.
    + apply hysteresis_inactive. unfold VIS_THRESHOLD_ON. lra.
  - destruct (last (gate_run s before) s).
    + apply hysteresis_active. unfold VIS_THRESHOLD_OFF. lra.
    + destruct (hysteresis false c) eqn:E; [| reflexivity].
      apply hysteresis_inactive in E. unfold VIS_THRESHOLD_ON in E. lra.
Qed.

Lemma gate_run_last_decisive_witness :
  (0.65 < 0.7 ->
   last (gate_run false ([0.2; 0.9; 0.1] ++ 0.7 :: [0.5; 0.6])) false = true) /\
  (0.7 < 0.45 ->
   last (gate_run false ([0.2; 0.9; 0.1] ++ 0.7 :: [0.5; 0.6])) false = false).
Proof.
  apply (gate_run_last_decisive false [0.2; 0.9; 0.1] 0.7 [0.5; 0.6]).
  repeat constructor; lra.
Defined.



(** ** Coordinate mapper: all three coordinates *)

(** X10: the mapping preserves distances for either value of the mirror
    flag, so lengths measured between mapped landmarks are the lengths
    between the tracked landmarks. *)
Theorem mpToVRM_isometry (a b : Landmark.t) (mirror : bool) :
  Vector3.distanceTo (mpToVRM a mirror) (mpToVRM b mirror) =
  Vector3.distanceTo (Vector3.of_landmark a) (Vector3.of_landmark b).
Proof.
  unfold Vector3.distanceTo, Vector3.distanceToSquared, mpToVRM,
    Vector3.of_landmark.
  cbn [Vector3.x Vector3.y Vector3.z]. f_equal.
  destruct mirror; ring.
Qed.

(** X11: for either value of the mirror flag, mapping a point twice gives
    back its three coordinates. *)
Theorem mpToVRM_involution (l : Landmark.t) (mirror : bool) :
  mpToVRM (Vector3.as_landmark (mpToVRM l mirror)) mirror =
  Vector3.of_landmark l.
Proof.
  unfold mpToVRM, Vector3.as_landmark, Vector3.of_landmark.
  cbn [Vector3.x Vector3.y Vector3.z Landmark.x Landmark.y Landmark.z].
  destruct mirror; f_equal; ring.
Qed.

(** ** Damped interpolation over several frames *)

Lemma getLerpFactor_complement (deltaTime speed : R) :
  1 - getLerpFactor deltaTime speed = exp (- speed * deltaTime).
Proof. unfold getLerpFactor. ring. Qed.

(** X12: the interpolation does not depend on the frame rate: easing
    toward a target over a frame of length d1 and then over a frame of
    length d2 gives the value of a single frame of length d1 + d2. *)
Theorem getLerpFactor_frame_rate_independent (current target d1 d2 speed : R) :
  lerp (lerp current target (getLerpFactor d1 speed)) target
    (getLerpFactor d2 speed) =
  lerp current target (getLerpFactor (d1 + d2) speed).
Proof.
  unfold lerp.
  pose proof (getLerpFactor_complement d1 speed) as H1.
  pose proof (getLerpFactor_complement d2 speed) as H2.
  pose proof (getLerpFactor_complement (d1 + d2) speed) as H12.
  replace (- speed * (d1 + d2)) with (- speed * d1 + - speed * d2) in H12
    by ring.
  rewrite exp_plus, <- H1, <- H2 in H12.
  set (f1 := getLerpFactor d1 speed) in *.
  set (f2 := getLerpFactor d2 speed) in *.
  set (f12 := getLerpFactor (d1 + d2) speed) in *.
  replace f12 with (1 - (1 - f1) * (1 - f2)) by lra. ring.
Qed.



(** ** World and local rotations *)

(** X14: for a parent whose world rotation is a unit quaternion, the
    parent rotation composed with the local rotation that
    [worldToLocalQuaternion] computes is the world rotation it was given,
    and the local rotation of a unit world rotation is a unit quaternion;
    for a bone without parent the local rotation is the world rotation. *)
Theorem worldToLocalQuaternion_round_trip (worldQuat : Quaternion.t)
  (bone : Bone) :
  (unit_quaternion (getParentWorldQuaternion bone) ->
   Quaternion.multiply (getParentWorldQuaternion bone)
     (worldToLocalQuaternion worldQuat (getParentWorldQuaternion bone))
   = worldQuat /\
   (unit_quaternion worldQuat ->
    unit_quaternion
      (worldToLocalQuaternion worldQuat (getParentWorldQuaternion bone)))) /\
  (parent bone = None ->
   worldToLocalQuaternion worldQuat (getParentWorldQuaternion bone)
   = worldQuat).
Proof.
  split.
  - intros Hp. split.
    + destruct worldQuat as [wx wy wz ww].
      destruct (getParentWorldQuaternion bone) as [px py pz pw].
      unfold unit_quaternion, Quaternion.lengthSq in Hp.
      unfold worldToLocalQuaternion, Quaternion.multiply, Quaternion.invert.
      cbn [Quaternion.x Quaternion.y Quaternion.z Quaternion.w] in *.
      f_equal; nsatz.
    + intros Hw. unfold worldToLocalQuaternion.
      apply quaternion_multiply_unit;
        [apply quaternion_invert_unit; exact Hp | exact Hw].
  - intros Hnone. unfold getParentWorldQuaternion. rewrite Hnone.
    destruct worldQuat as [wx wy wz ww].
    unfold worldToLocalQuaternion, Quaternion.multiply, Quaternion.invert,
      Quaternion.identity.
    cbn [Quaternion.x Quaternion.y Quaternion.z Quaternion.w].
    f_equal; ring.
Qed.

Lemma worldToLocalQuaternion_round_trip_witness :
  let bone := mkBone Quaternion.identity (Some (Quaternion.mk 0 1 0 0)) in
  let worldQuat := Quaternion.mk 0 0 1 0 in
  Quaternion.multiply (getParentWorldQuaternion bone)
    (worldToLocalQuaternion worldQuat (getParentWorldQuaternion bone))
  = worldQuat.
Proof.
  intros bone worldQuat.
  apply (proj1 (worldToLocalQuaternion_round_trip worldQuat bone)).
  unfold unit_quaternion, Quaternion.lengthSq, bone, getParentWorldQuaternion.
  cbn [parent Quaternion.x Quaternion.y Quaternion.z Quaternion.w]. lra.
Defined.

(** ** Two-bone IK solver: geometry of the solution *)

Lemma lengthSq_zero_components (v : Vector3.t) :
  Vector3.lengthSq v = 0 ->
  Vector3.x v = 0 /\ Vector3.y v = 0 /\ Vector3.z v = 0.
Proof. unfold Vector3.lengthSq. intros H. repeat split; nra. Qed.

(** The vector and the distance returned by step 1. *)
Lemma ik_clampTarget_scaled (a b : R) (targetPos : Vector3.t) :
  0 < a -> 0 < b -> epsilon < a + b ->
  let r := value (ik_clampTarget a b targetPos) in
  (Vector3.lengthSq targetPos <> 0 ->
   Vector3.length (fst r) = snd r /\
   exists s, 0 < s /\ fst r = Vector3.multiplyScalar targetPos s) /\
  (Vector3.lengthSq targetPos = 0 ->
   Vector3.lengthSq (fst r) = 0 /\ snd r = Rabs (a - b) + epsilon).
Proof.
  intros Ha Hb Hab.
  pose proof (Rabs_pos (a - b)) as Habs.
  assert (Heps : epsilon = 0.001) by reflexivity.
  cbn zeta. split.
  - intros Hv.
    assert (Hlen : 0 < Vector3.length targetPos).
    { destruct (vector_length_nonneg targetPos) as [H | H]; [exact H |].
      exfalso. apply Hv. apply vector_length_zero. symmetry. exact H. }
    assert (Hscaled : forall l, 0 < l ->
               Vector3.length (value (Vector3.setLength targetPos l)) = l /\
               exists s, 0 < s /\ value (Vector3.setLength targetPos l) =
                                  Vector3.multiplyScalar targetPos s).
    { intros l Hl. split.
      - unfold Vector3.length. apply sqrt_of_square; [lra |].
        apply vector_setLength_lengthSq. exact Hv.
      - unfold Vector3.setLength.
        rewrite value_bind, value_ret, vector_normalize_value,
          multiplyScalar_twice.
        destruct (Req_dec_T (Vector3.length targetPos) 0); [lra |].
        eexists. split; [| reflexivity].
        apply Rmult_lt_0_compat; [| exact Hl].
        apply Rdiv_lt_0_compat; lra. }
    unfold ik_clampTarget. cbn zeta.
    destruct (Rgt_dec _ _); [| destruct (Rlt_dec _ _)];
      rewrite ?value_bind, ?value_ret; cbn [fst snd].
    + apply Hscaled. lra.
    + apply Hscaled. lra.
    + split; [reflexivity |]. exists 1. split; [lra |].
      symmetry. apply multiplyScalar_one.
  - intros Hv.
    assert (Hlen : Vector3.length targetPos = 0)
      by (apply vector_length_zero; exact Hv).
    unfold ik_clampTarget. cbn zeta. rewrite Hlen.
    destruct (Rgt_dec 0 (a + b - epsilon)); [lra |].
    destruct (Rlt_dec 0 (Rabs (a - b) + epsilon)); [| lra].
    rewrite value_bind, value_ret. cbn [fst snd]. split; [| reflexivity].
    unfold Vector3.setLength. rewrite value_bind, value_ret.
    rewrite multiplyScalar_lengthSq, (vector_normalize_zero _ Hv). ring.
Qed.

(** X15: step 1 of the solver keeps the target vector and the distance
    consistent.  A target other than the origin is replaced by a positive
    multiple of itself whose length is the clamped distance; a target at
    the origin stays at the origin although the distance that is used is
    |a - b| + epsilon. *)
Theorem ik_clampTarget_consistent (a b : R) (targetPos : Vector3.t) :
  0 < a -> 0 < b -> epsilon < a + b ->
  let r := value (ik_clampTarget a b targetPos) in
  (Vector3.lengthSq targetPos <> 0 ->
   Vector3.length (fst r) = snd r /\
   exists s, 0 < s /\ fst r = Vector3.multiplyScalar targetPos s) /\
  (Vector3.lengthSq targetPos = 0 ->
   Vector3.lengthSq (fst r) = 0 /\ snd r = Rabs (a - b) + epsilon).
Proof. apply ik_clampTarget_scaled. Qed.

Lemma ik_clampTarget_consistent_witness :
  let r := value (ik_clampTarget 0.3 0.3 (Vector3.mk 0 0 0)) in
  Vector3.lengthSq (fst r) = 0 /\ snd r = Rabs (0.3 - 0.3) + epsilon.
Proof.
  apply (ik_clampTarget_consistent 0.3 0.3 (Vector3.mk 0 0 0));
    unfold epsilon, Vector3.lengthSq; cbn [Vector3.x Vector3.y Vector3.z];
    lra.
Defined.

(** X16: within the reach of the arm the elbow angle grows with the
    distance of the target, so the flexion PI - elbowAngle shrinks: a
    farther target gives a straighter arm. *)
Theorem ik_elbowAngle_increasing (a b c1 c2 : R) :
  0 < a -> 0 < b -> Rabs (a - b) < c1 -> c1 < c2 -> c2 < a + b ->
  value (ik_elbowAngle a b c1) < value (ik_elbowAngle a b c2) /\
  PI - value (ik_elbowAngle a b c2) < PI - value (ik_elbowAngle a b c1).
Proof.
  intros Ha Hb H1 H12 H2.
  destruct (ik_elbowAngle_triangle a b c1 Ha Hb ltac:(lra))
    as (_ & _ & Hr1 & Hc1).
  destruct (ik_elbowAngle_triangle a b c2 Ha Hb ltac:(lra))
    as (_ & _ & Hr2 & Hc2).
  assert (Hlt : value (ik_elbowAngle a b c1) < value (ik_elbowAngle a b c2)).
  { apply cos_decreasing_0; try lra.
    rewrite Hc1, Hc2.
    pose proof (Rabs_pos (a - b)) as Habs.
    assert (Hab : 0 < 2 * a * b) by nra.
    unfold Rdiv. apply Rmult_lt_compat_r; [apply Rinv_0_lt_compat; exact Hab |].
    nra. }
  split; lra.
Qed.

Lemma ik_elbowAngle_increasing_witness :
  value (ik_elbowAngle 0.3 0.25 0.2) < value (ik_elbowAngle 0.3 0.25 0.5) /\
  PI - value (ik_elbowAngle 0.3 0.25 0.5) <
  PI - value (ik_elbowAngle 0.3 0.25 0.2).
Proof.
  apply (ik_elbowAngle_increasing 0.3 0.25 0.2 0.5); try lra.
  unfold Rabs. destruct (Rcase_abs (0.3 - 0.25)); lra.
Defined.

(** Within the reach of the arm the cosine of step 2 needs no clamping. *)
Lemma ik_shoulderAngle_triangle (a b c : R) :
  0 < a -> 0 < b -> Rabs (a - b) < c < a + b ->
  let cosShoulderAngle := (a * a + c * c - b * b) / (2 * a * c) in
  -1 < cosShoulderAngle < 1 /\
  0 < value (ik_shoulderAngle a b c) < PI /\
  cos (value (ik_shoulderAngle a b c)) = cosShoulderAngle.
Proof.
  intros Ha Hb [Hc1 Hc2] cosS.
  assert (Hc : 0 < c) by (pose proof (Rabs_pos (a - b)); lra).
  assert (Hd : - b < a - c < b).
  { unfold Rabs in Hc1. destruct (Rcase_abs (a - b)); lra. }
  assert (Hd' : - c < a - b < c).
  { unfold Rabs in Hc1. destruct (Rcase_abs (a - b)); lra. }
  assert (Hcos : -1 < cosS < 1).
  { assert (Hac : 0 < a * c) by (apply Rmult_lt_0_compat; assumption).
    assert (H1 : 0 < (a + c - b) * (a + c + b))
      by (apply Rmult_lt_0_compat; lra).
    assert (H2 : 0 < (b - (a - c)) * (b + (a - c)))
      by (apply Rmult_lt_0_compat; lra).
    apply div_between; [lra |]. split; lra. }
  assert (Hval : value (ik_shoulderAngle a b c) = acos cosS).
  { unfold ik_shoulderAngle, Math_acos, div, bind, value. cbn [fst].
    fold cosS. rewrite clamp_inside by lra. reflexivity. }
  rewrite Hval. repeat split; try lra.
  - apply acos_bound_lt. exact Hcos.
  - apply acos_bound_lt. exact Hcos.
  - apply cos_acos. lra.
Qed.

(** Turning a unit vector [d] about a unit axis [n] perpendicular to it,
    with the quaternion of [setFromAxisAngle]: the result is a unit
    vector, perpendicular to the axis, at the given angle from [d]. *)
Lemma applyQuaternion_axis_angle (d n : Vector3.t) (angle : R) :
  unit_vector d -> unit_vector n -> Vector3.dot n d = 0 ->
  let v := Vector3.applyQuaternion d (setFromAxisAngle n angle) in
  unit_vector v /\ Vector3.dot v d = cos angle /\ Vector3.dot v n = 0.
Proof.
  intros Hd Hn Hnd.
  assert (Hcos : cos angle = 1 - 2 * sin (angle / 2) * sin (angle / 2)).
  { replace angle with (2 * (angle / 2)) at 1 by field. apply cos_2a_sin. }
  pose proof (sin2_cos2 (angle / 2)) as Hsc. unfold Rsqr in Hsc.
  cbn zeta. rewrite Hcos.
  destruct d as [dx dy dz]. destruct n as [nx ny nz].
  unfold unit_vector, Vector3.lengthSq, Vector3.dot, Vector3.applyQuaternion,
    setFromAxisAngle in *.
  cbn [Vector3.x Vector3.y Vector3.z Quaternion.x Quaternion.y Quaternion.z
         Quaternion.w] in *.
  generalize dependent (sin (angle / 2)). intros s.
  generalize dependent (cos (angle / 2)). intros c Hsc.
  repeat split; nsatz.
Qed.

Lemma normalize_of_unit (v : Vector3.t) :
  unit_vector v -> value (Vector3.normalize v) = v.
Proof.
  intros Hv. rewrite vector_normalize_value.
  assert (Hl : Vector3.length v = 1).
  { unfold Vector3.length. rewrite Hv. apply sqrt_1. }
  rewrite Hl. destruct (Req_dec_T 1 0); [lra |].
  replace (1 / 1) with 1 by field. apply multiplyScalar_one.
Qed.

Lemma cross_perpendicular (d w : Vector3.t) (k : R) :
  Vector3.dot (Vector3.multiplyScalar (Vector3.crossVectors d w) k) d = 0.
Proof.
  unfold Vector3.dot, Vector3.multiplyScalar, Vector3.crossVectors.
  cbn [Vector3.x Vector3.y Vector3.z]. ring.
Qed.

Lemma ik_planeNormal_perpendicular (dirToTarget dirToPole : Vector3.t) :
  Vector3.dot (value (ik_planeNormal dirToTarget dirToPole)) dirToTarget = 0.
Proof.
  unfold ik_planeNormal. cbn zeta.
  destruct (Rlt_dec _ _); [destruct (Rlt_dec _ _) |];
    rewrite vector_normalize_value; apply cross_perpendicular.
Qed.

(** The upper-arm rotation of steps 5 and 6 starts from [ik_upperDir]. *)
Lemma ik_upperRotation_upperDir (boneAxis dirToTarget planeNormal : Vector3.t)
  (shoulderAngle : R) :
  ik_upperRotation boneAxis dirToTarget planeNormal shoulderAngle =
  (upperDir <- ik_upperDir dirToTarget planeNormal shoulderAngle ;;
   qUpper <- setFromUnitVectors boneAxis upperDir ;;
   hingeAxis <-
     Vector3.normalize (Vector3.crossVectors boneAxis (Vector3.mk 0 0 1)) ;;
   let currentHinge := Vector3.applyQuaternion hingeAxis qUpper in
   qTwist <- setFromUnitVectors currentHinge planeNormal ;;
   ret (Quaternion.multiply qTwist qUpper)).
Proof. reflexivity. Qed.

Lemma distanceToSquared_scaled (u d : Vector3.t) (a c : R) :
  Vector3.distanceToSquared (Vector3.multiplyScalar u a)
    (Vector3.multiplyScalar d c) =
  Vector3.lengthSq u * (a * a) - 2 * a * c * Vector3.dot u d +
  Vector3.lengthSq d * (c * c).
Proof.
  unfold Vector3.distanceToSquared, Vector3.multiplyScalar, Vector3.lengthSq,
    Vector3.dot.
  cbn [Vector3.x Vector3.y Vector3.z]. ring.
Qed.

(** Unfolding vectors and quaternions to their coordinates. *)
Ltac vq_unfold :=
  unfold unit_quaternion, unit_vector, Quaternion.lengthSq, Vector3.lengthSq,
    Vector3.dot, Vector3.applyQuaternion, Quaternion.multiply,
    Vector3.crossVectors in *;
  cbn [Vector3.x Vector3.y Vector3.z Quaternion.x Quaternion.y Quaternion.z
         Quaternion.w] in *.

(** Applying a product of two rotations applies the right one first. *)
Lemma applyQuaternion_multiply (v : Vector3.t) (p q : Quaternion.t) :
  unit_quaternion p -> unit_quaternion q ->
  Vector3.applyQuaternion v (Quaternion.multiply p q) =
  Vector3.applyQuaternion (Vector3.applyQuaternion v q) p.
Proof.
  destruct v as [vx vy vz], p as [px py pz pw], q as [qx qy qz qw].
  intros Hp Hq. vq_unfold. f_equal; nsatz.
Qed.

(** A rotation keeps the dot product of two vectors. *)
Lemma applyQuaternion_dot (u v : Vector3.t) (q : Quaternion.t) :
  unit_quaternion q ->
  Vector3.dot (Vector3.applyQuaternion u q) (Vector3.applyQuaternion v q) =
  Vector3.dot u v.
Proof.
  destruct u as [ux uy uz], v as [vx vy vz], q as [qx qy qz qw].
  intros Hq. vq_unfold. nsatz.
Qed.

(** The value of [Quaternion.normalize]: the quaternion multiplied by a
    scalar, unless its length is 0. *)
Lemma quaternion_normalize_scaled (q : Quaternion.t) :
  Quaternion.lengthSq q <> 0 ->
  exists k,
    k * k * Quaternion.lengthSq q = 1 /\
    value (Quaternion.normalize q) =
    Quaternion.mk (Quaternion.x q * k) (Quaternion.y q * k)
      (Quaternion.z q * k) (Quaternion.w q * k).
Proof.
  intros Hq. unfold Quaternion.normalize.
  assert (Hl : Quaternion.length q * Quaternion.length q =
               Quaternion.lengthSq q)
    by apply sqrt_sqrt, quaternion_lengthSq_nonneg.
  destruct (Req_dec_T (Quaternion.length q) 0) as [Hz | Hnz].
  - exfalso. apply Hq. rewrite <- Hl, Hz. ring.
  - exists (1 / Quaternion.length q). split.
    + rewrite <- Hl. field. exact Hnz.
    + reflexivity.
Qed.

(** Away from the half-turn, the rotation of [setFromUnitVectors] takes
    the first unit vector to the second. *)
Lemma setFromUnitVectors_maps (vFrom vTo : Vector3.t) :
  unit_vector vFrom -> unit_vector vTo ->
  Number_EPSILON <= Vector3.dot vFrom vTo + 1 ->
  Vector3.applyQuaternion vFrom (value (setFromUnitVectors vFrom vTo)) = vTo.
Proof.
  intros Hf Ht Hr.
  assert (Heps : 0 < Number_EPSILON).
  { unfold Number_EPSILON. apply Rinv_0_lt_compat. apply pow_lt. lra. }
  unfold setFromUnitVectors. cbn zeta.
  destruct (Rlt_dec (Vector3.dot vFrom vTo + 1) Number_EPSILON) as [Hlt | _];
    [lra |].
  set (q := Quaternion.mk _ _ _ _).
  assert (Hq : Quaternion.lengthSq q = 2 * (Vector3.dot vFrom vTo + 1)).
  { unfold q. destruct vFrom as [fx fy fz], vTo as [tx ty tz].
    vq_unfold. nsatz. }
  destruct (quaternion_normalize_scaled q) as (k & Hk & Hv).
  { rewrite Hq. lra. }
  rewrite Hv. rewrite Hq in Hk. unfold q. clear Hv Hq q.
  destruct vFrom as [fx fy fz], vTo as [tx ty tz].
  vq_unfold. f_equal; nsatz.
Qed.

(** Away from the half-turn, the rotation of [setFromUnitVectors] between
    two vectors perpendicular to [u] leaves [u] where it is. *)
Lemma setFromUnitVectors_fixes (vFrom vTo u : Vector3.t) :
  Vector3.dot vFrom u = 0 -> Vector3.dot vTo u = 0 ->
  Number_EPSILON <= Vector3.dot vFrom vTo + 1 ->
  Vector3.applyQuaternion u (value (setFromUnitVectors vFrom vTo)) = u.
Proof.
  intros Hf Ht Hr.
  unfold setFromUnitVectors. cbn zeta.
  destruct (Rlt_dec (Vector3.dot vFrom vTo + 1) Number_EPSILON) as [Hlt | _];
    [lra |].
  set (q := Quaternion.mk _ _ _ _).
  assert (Hv : exists k, value (Quaternion.normalize q) =
                         Quaternion.mk (Quaternion.x q * k) (Quaternion.y q * k)
                           (Quaternion.z q * k)
                           (Quaternion.w (value (Quaternion.normalize q)))).
  { unfold Quaternion.normalize.
    destruct (Req_dec_T (Quaternion.length q) 0).
    - exists 0. unfold ret, value, Quaternion.identity. cbn [fst Quaternion.w].
      f_equal; ring.
    - exists (1 / Quaternion.length q). reflexivity. }
  destruct Hv as (k & Hv). rewrite Hv.
  generalize (Quaternion.w (value (Quaternion.normalize q))). intros w.
  unfold q. clear Hv q Hr.
  destruct vFrom as [fx fy fz], vTo as [tx ty tz], u as [ux uy uz].
  vq_unfold. f_equal; nsatz.
Qed.

Lemma dot_comm (u v : Vector3.t) : Vector3.dot u v = Vector3.dot v u.
Proof. unfold Vector3.dot. ring. Qed.

(** Away from the two half-turns of step 6, the world rotation of the
    upper arm takes the axis of the bone to the direction of step 5. *)
Lemma ik_upperRotation_maps (boneAxis dirToTarget planeNormal : Vector3.t)
  (shoulderAngle : R) :
  unit_vector boneAxis ->
  let upperDir :=
    value (ik_upperDir dirToTarget planeNormal shoulderAngle) in
  let qUpper := value (setFromUnitVectors boneAxis upperDir) in
  let hingeAxis :=
    value (Vector3.normalize
             (Vector3.crossVectors boneAxis (Vector3.mk 0 0 1))) in
  let currentHinge := Vector3.applyQuaternion hingeAxis qUpper in
  unit_vector upperDir -> Vector3.dot upperDir planeNormal = 0 ->
  Number_EPSILON <= Vector3.dot boneAxis upperDir + 1 ->
  Number_EPSILON <= Vector3.dot currentHinge planeNormal + 1 ->
  Vector3.applyQuaternion boneAxis
    (value (ik_upperRotation boneAxis dirToTarget planeNormal shoulderAngle)) =
  upperDir.
Proof.
  intros Hb upperDir qUpper hingeAxis currentHinge Hu Hperp Hswing Htwist.
  rewrite ik_upperRotation_upperDir.
  rewrite !value_bind, value_ret. fold upperDir. fold qUpper. fold hingeAxis.
  cbn zeta. fold currentHinge.
  pose proof (setFromUnitVectors_maps boneAxis upperDir Hb Hu Hswing) as Hmap.
  fold qUpper in Hmap.
  destruct (setFromUnitVectors_unit boneAxis upperDir) as [HqU _].
  fold qUpper in HqU.
  destruct (setFromUnitVectors_unit currentHinge planeNormal) as [HqT _].
  rewrite applyQuaternion_multiply by assumption.
  rewrite Hmap.
  apply setFromUnitVectors_fixes; [| rewrite dot_comm; exact Hperp | exact Htwist].
  unfold currentHinge. rewrite <- Hmap at 1.
  rewrite applyQuaternion_dot by exact HqU.
  unfold hingeAxis. rewrite vector_normalize_value. apply cross_perpendicular.
Qed.

(** X17: the rotation that the solver computes for the upper arm closes
    the triangle, away from the two half-turns of step 6.  For bones of
    positive length, a target other than the origin and a unit bone
    axis, when the bone axis is not opposite to the direction of step 5
    and the rotated hinge is not opposite to the normal of the bend
    plane (the cases in which [setFromUnitVectors] turns by half a turn
    about an axis of its own choice), the world rotation [qUpperFinal]
    takes the bone axis to the direction of step 5: a unit vector in the
    bend plane, at the shoulder angle from the direction to the target.
    The elbow, at the distance a along it, is then exactly at the
    distance b from the clamped target, and a target whose distance is
    already within [|a - b| + epsilon, a + b - epsilon] is that target
    itself. *)
Theorem solveTwoBoneIK_reaches_target (upper lower : Bone) (a b : R)
  (targetPos polePos boneAxis : Vector3.t) (deltaTime : R) :
  let clamped := value (ik_clampTarget a b targetPos) in
  let wrist := fst clamped in
  let dirToTarget := value (Vector3.normalize wrist) in
  let planeNormal :=
    value (ik_planeNormal dirToTarget (value (Vector3.normalize polePos))) in
  let shoulderAngle := value (ik_shoulderAngle a b (snd clamped)) in
  let upperDir := value (ik_upperDir dirToTarget planeNormal shoulderAngle) in
  let qUpper := value (setFromUnitVectors boneAxis upperDir) in
  let hingeAxis :=
    value (Vector3.normalize
             (Vector3.crossVectors boneAxis (Vector3.mk 0 0 1))) in
  let currentHinge := Vector3.applyQuaternion hingeAxis qUpper in
  0 < a -> 0 < b -> Rabs (a - b) + epsilon <= a + b - epsilon ->
  Vector3.lengthSq targetPos <> 0 ->
  unit_vector boneAxis ->
  Number_EPSILON <= Vector3.dot boneAxis upperDir + 1 ->
  Number_EPSILON <= Vector3.dot currentHinge planeNormal + 1 ->
  exists L,
    value (solveTwoBoneIK (Some upper) (Some lower) a b targetPos polePos
             boneAxis deltaTime) = Some L /\
    let bone := Vector3.applyQuaternion boneAxis (IK.qUpperFinal L) in
    let elbow := Vector3.multiplyScalar bone a in
    bone = upperDir /\
    unit_vector bone /\
    Vector3.dot bone (IK.planeNormal L) = 0 /\
    Vector3.dot bone (IK.dirToTarget L) = cos (IK.shoulderAngle L) /\
    wrist = Vector3.multiplyScalar (IK.dirToTarget L) (IK.dist L) /\
    Vector3.length elbow = a /\
    Vector3.distanceTo elbow wrist = b /\
    (Rabs (a - b) + epsilon <= Vector3.length targetPos <= a + b - epsilon ->
     wrist = targetPos).
Proof.
  intros clamped wrist dirToTarget planeNormal shoulderAngle upperDir qUpper
    hingeAxis currentHinge Ha Hb Hrange Ht Hbone Hswing Htwist.
  assert (Heps : epsilon = 0.001) by reflexivity.
  pose proof (Rabs_pos (a - b)) as Habs.
  assert (Hab : epsilon < a + b) by lra.
  eexists. split; [apply solveTwoBoneIK_value |].
  cbn [IK.dirToTarget IK.planeNormal IK.shoulderAngle IK.dist IK.qUpperFinal].
  fold clamped. fold wrist. fold dirToTarget. fold planeNormal.
  fold shoulderAngle.
  destruct (ik_clampTarget_spec a b targetPos Ha Hb Hab)
    as (Hc & _ & Hnz & Hin & _).
  specialize (Hnz Ht). specialize (Hin Hrange).
  destruct (ik_clampTarget_scaled a b targetPos Ha Hb Hab) as [Hsc _].
  destruct (Hsc Ht) as [Hlen _]. cbn zeta in Hlen.
  fold clamped in Hc, Hnz, Hin, Hlen. fold wrist in Hnz, Hlen.
  set (c := snd clamped) in *.
  assert (Hd : unit_vector dirToTarget) by (apply vector_normalize_unit; exact Hnz).
  destruct (ik_planeNormal_spec dirToTarget (value (Vector3.normalize polePos)) Hd)
    as (_ & _ & _ & Hn & _). fold planeNormal in Hn.
  pose proof (ik_planeNormal_perpendicular dirToTarget
                (value (Vector3.normalize polePos))) as Hperp.
  fold planeNormal in Hperp.
  destruct (applyQuaternion_axis_angle dirToTarget planeNormal shoulderAngle
              Hd Hn Hperp) as (Hv & Hvd & Hvn).
  cbn zeta in Hv, Hvd, Hvn.
  assert (Hup : upperDir =
                Vector3.applyQuaternion dirToTarget
                  (setFromAxisAngle planeNormal shoulderAngle)).
  { unfold upperDir, ik_upperDir. apply normalize_of_unit. exact Hv. }
  rewrite <- Hup in Hv, Hvd, Hvn.
  destruct (ik_shoulderAngle_triangle a b c Ha Hb ltac:(lra))
    as (_ & _ & Hcos). fold shoulderAngle in Hcos. cbn zeta in Hcos.
  assert (Hwrist : wrist = Vector3.multiplyScalar dirToTarget c).
  { unfold dirToTarget. rewrite vector_normalize_value, multiplyScalar_twice, Hlen.
    destruct (Req_dec_T c 0); [lra |].
    replace (1 / c * c) with 1 by (field; lra).
    symmetry. apply multiplyScalar_one. }
  assert (Hmaps :
    Vector3.applyQuaternion boneAxis
      (value (ik_upperRotation boneAxis dirToTarget planeNormal shoulderAngle)) =
    upperDir).
  { apply ik_upperRotation_maps; assumption. }
  cbn zeta. rewrite Hmaps.
  split; [reflexivity |]. split; [exact Hv |]. split; [exact Hvn |].
  split; [exact Hvd |]. split; [exact Hwrist |]. split; [| split].
  - unfold Vector3.length. apply sqrt_of_square; [lra |].
    rewrite multiplyScalar_lengthSq, Hv. ring.
  - unfold Vector3.distanceTo. apply sqrt_of_square; [lra |].
    rewrite Hwrist, distanceToSquared_scaled, Hv, Hd, Hvd, Hcos.
    field. lra.
  - intros [Hlo Hhi]. unfold wrist, clamped, ik_clampTarget. cbn zeta.
    destruct (Rgt_dec _ _); [lra |]. destruct (Rlt_dec _ _); [lra |].
    reflexivity.
Qed.

Lemma Number_EPSILON_small : 0 < Number_EPSILON <= 1.
Proof.
  unfold Number_EPSILON.
  assert (H : 1 <= 2 ^ 52) by (apply pow_R1_Rle; lra).
  split.
  - apply Rinv_0_lt_compat. lra.
  - rewrite <- Rinv_1. apply Rinv_le_contravar; lra.
Qed.

(** The frame of a solve with the bones 0.3 and 0.5, the wrist 0.4 away
    along X and the pole along Y: the target is not clamped, the bend
    plane is the XY plane and the angle at the shoulder is a right
    angle. *)
Lemma reach_example_frame :
  value (ik_clampTarget 0.3 0.5 (Vector3.mk 0.4 0 0)) =
  (Vector3.mk 0.4 0 0, 0.4) /\
  value (Vector3.normalize (Vector3.mk 0.4 0 0)) = Vector3.mk 1 0 0 /\
  value (Vector3.normalize (Vector3.mk 0 0.3 0)) = Vector3.mk 0 1 0 /\
  value (ik_planeNormal (Vector3.mk 1 0 0) (Vector3.mk 0 1 0)) =
  Vector3.mk 0 0 1 /\
  value (Vector3.normalize
           (Vector3.crossVectors (Vector3.mk 1 0 0) (Vector3.mk 0 0 1))) =
  Vector3.mk 0 (-1) 0 /\
  cos (value (ik_shoulderAngle 0.3 0.5 0.4)) = 0.
Proof.
  assert (Habs : Rabs (0.3 - 0.5) = 0.2).
  { rewrite Rabs_left by lra. lra. }
  assert (Hnorm : forall x y z l : R,
             0 < l -> x * x + y * y + z * z = l * l ->
             value (Vector3.normalize (Vector3.mk x y z)) =
             Vector3.mk (x / l) (y / l) (z / l)).
  { intros x y z l Hl Hsq. rewrite vector_normalize_value.
    assert (Hlen : Vector3.length (Vector3.mk x y z) = l).
    { unfold Vector3.length, Vector3.lengthSq.
      cbn [Vector3.x Vector3.y Vector3.z].
      apply sqrt_of_square; [lra | exact Hsq]. }
    rewrite Hlen. destruct (Req_dec_T l 0); [lra |].
    unfold Vector3.multiplyScalar. cbn [Vector3.x Vector3.y Vector3.z].
    f_equal; field; lra. }
  split; [| split; [| split; [| split; [| split]]]].
  - unfold ik_clampTarget. cbn zeta.
    assert (Hlen : Vector3.length (Vector3.mk 0.4 0 0) = 0.4).
    { unfold Vector3.length, Vector3.lengthSq.
      cbn [Vector3.x Vector3.y Vector3.z].
      apply sqrt_of_square; lra. }
    rewrite Hlen, Habs. unfold epsilon.
    destruct (Rgt_dec 0.4 (0.3 + 0.5 - 0.001)); [lra |].
    destruct (Rlt_dec 0.4 (0.2 + 0.001)); [lra |]. reflexivity.
  - rewrite (Hnorm 0.4 0 0 0.4) by lra. f_equal; lra.
  - rewrite (Hnorm 0 0.3 0 0.3) by lra. f_equal; lra.
  - unfold ik_planeNormal. cbn zeta.
    unfold Vector3.crossVectors. cbn [Vector3.x Vector3.y Vector3.z].
    destruct (Rlt_dec _ 0.0001) as [Hlt | _].
    { unfold Vector3.lengthSq in Hlt. cbn [Vector3.x Vector3.y Vector3.z] in Hlt.
      lra. }
    rewrite (Hnorm _ _ _ 1) by lra. f_equal; lra.
  - unfold Vector3.crossVectors. cbn [Vector3.x Vector3.y Vector3.z].
    rewrite (Hnorm _ _ _ 1) by lra. f_equal; lra.
  - destruct (ik_shoulderAngle_triangle 0.3 0.5 0.4) as (_ & _ & Hcos);
      [lra | lra | rewrite Habs; lra |].
    cbn zeta in Hcos. rewrite Hcos.
    replace (0.3 * 0.3 + 0.4 * 0.4 - 0.5 * 0.5) with 0 by lra.
    unfold Rdiv. apply Rmult_0_l.
Qed.

(** In that solve neither rotation of step 6 is a half-turn, for the bone
    axis X. *)
Lemma reach_example_turns :
  let clamped := value (ik_clampTarget 0.3 0.5 (Vector3.mk 0.4 0 0)) in
  let wrist := fst clamped in
  let dirToTarget := value (Vector3.normalize wrist) in
  let planeNormal :=
    value (ik_planeNormal dirToTarget
             (value (Vector3.normalize (Vector3.mk 0 0.3 0)))) in
  let shoulderAngle := value (ik_shoulderAngle 0.3 0.5 (snd clamped)) in
  let upperDir := value (ik_upperDir dirToTarget planeNormal shoulderAngle) in
  let qUpper := value (setFromUnitVectors (Vector3.mk 1 0 0) upperDir) in
  let hingeAxis :=
    value (Vector3.normalize
             (Vector3.crossVectors (Vector3.mk 1 0 0) (Vector3.mk 0 0 1))) in
  let currentHinge := Vector3.applyQuaternion hingeAxis qUpper in
  Number_EPSILON <= Vector3.dot (Vector3.mk 1 0 0) upperDir + 1 /\
  Number_EPSILON <= Vector3.dot currentHinge planeNormal + 1.
Proof.
  destruct reach_example_frame as (E1 & E2 & E3 & E4 & E5 & E6).
  pose proof Number_EPSILON_small as Heps.
  cbn zeta. rewrite E1. cbn [fst snd]. rewrite E2, E3, E4, E5.
  set (theta := value (ik_shoulderAngle 0.3 0.5 0.4)) in *.
  assert (Hd : unit_vector (Vector3.mk 1 0 0)).
  { unfold unit_vector, Vector3.lengthSq. cbn [Vector3.x Vector3.y Vector3.z].
    ring. }
  assert (Hn : unit_vector (Vector3.mk 0 0 1)).
  { unfold unit_vector, Vector3.lengthSq. cbn [Vector3.x Vector3.y Vector3.z].
    ring. }
  assert (Hnd : Vector3.dot (Vector3.mk 0 0 1) (Vector3.mk 1 0 0) = 0).
  { unfold Vector3.dot. cbn [Vector3.x Vector3.y Vector3.z]. ring. }
  destruct (applyQuaternion_axis_angle _ _ theta Hd Hn Hnd) as (Hv & Hvd & Hvn).
  cbn zeta in Hv, Hvd, Hvn. rewrite E6 in Hvd.
  unfold ik_upperDir. cbn zeta. rewrite (normalize_of_unit _ Hv).
  generalize dependent (Vector3.applyQuaternion (Vector3.mk 1 0 0)
                          (setFromAxisAngle (Vector3.mk 0 0 1) theta)).
  intros [vx vy vz] Hv Hvd Hvn.
  unfold unit_vector, Vector3.lengthSq, Vector3.dot in Hv, Hvd, Hvn.
  cbn [Vector3.x Vector3.y Vector3.z] in Hv, Hvd, Hvn.
  assert (Hx : vx = 0) by lra. assert (Hz : vz = 0) by lra. subst vx vz.
  assert (Hy : vy * vy = 1) by lra.
  split.
  - unfold Vector3.dot. cbn [Vector3.x Vector3.y Vector3.z]. lra.
  - unfold setFromUnitVectors. cbn zeta.
    destruct (Rlt_dec _ Number_EPSILON) as [Hlt | _].
    { unfold Vector3.dot in Hlt. cbn [Vector3.x Vector3.y Vector3.z] in Hlt.
      lra. }
    set (q := Quaternion.mk _ _ _ _).
    assert (Hq : Quaternion.lengthSq q = 2).
    { unfold q, Quaternion.lengthSq, Vector3.dot.
      cbn [Vector3.x Vector3.y Vector3.z Quaternion.x Quaternion.y
             Quaternion.z Quaternion.w]. nsatz. }
    destruct (quaternion_normalize_scaled q) as (k & Hk & Hval).
    { rewrite Hq. lra. }
    rewrite Hval. rewrite Hq in Hk. unfold q.
    assert (H0 : Vector3.dot
                   (Vector3.applyQuaternion (Vector3.mk 0 (-1) 0)
                      (Quaternion.mk
                         (Quaternion.x q * k) (Quaternion.y q * k)
                         (Quaternion.z q * k) (Quaternion.w q * k)))
                   (Vector3.mk 0 0 1) = 0).
    { unfold q, Vector3.dot, Vector3.applyQuaternion.
      cbn [Vector3.x Vector3.y Vector3.z Quaternion.x Quaternion.y
             Quaternion.z Quaternion.w]. nsatz. }
    unfold q in H0. rewrite H0. lra.
Qed.

Lemma solveTwoBoneIK_reaches_target_witness :
  let bone := mkBone Quaternion.identity None in
  exists L,
    value (solveTwoBoneIK (Some bone) (Some bone) 0.3 0.5
             (Vector3.mk 0.4 0 0) (Vector3.mk 0 0.3 0)
             (Vector3.mk 1 0 0) 0.016) = Some L /\
    Vector3.distanceTo
      (Vector3.multiplyScalar
         (Vector3.applyQuaternion (Vector3.mk 1 0 0) (IK.qUpperFinal L)) 0.3)
      (fst (value (ik_clampTarget 0.3 0.5 (Vector3.mk 0.4 0 0)))) = 0.5.
Proof.
  intros bone.
  destruct (solveTwoBoneIK_reaches_target bone bone 0.3 0.5
              (Vector3.mk 0.4 0 0) (Vector3.mk 0 0.3 0)
              (Vector3.mk 1 0 0) 0.016)
    as (L & HL & _ & _ & _ & _ & _ & _ & Hdist & _).
  - lra.
  - lra.
  - unfold epsilon. rewrite Rabs_left by lra. lra.
  - unfold Vector3.lengthSq. cbn [Vector3.x Vector3.y Vector3.z]. lra.
  - unfold unit_vector, Vector3.lengthSq. cbn [Vector3.x Vector3.y Vector3.z].
    ring.
  - apply reach_example_turns.
  - apply reach_example_turns.
  - exists L. split; [exact HL | exact Hdist].
Defined.

(** ** The arm targets of [applyPose] *)

Lemma distanceTo_nonneg (a b : Vector3.t) : 0 <= Vector3.distanceTo a b.
Proof. apply sqrt_pos. Qed.

Lemma distanceToSquared_nonneg (a b : Vector3.t) :
  0 <= Vector3.distanceToSquared a b.
Proof.
  unfold Vector3.distanceToSquared. cbn zeta.
  pose proof (Rle_0_sqr (Vector3.x a - Vector3.x b)) as Hx.
  pose proof (Rle_0_sqr (Vector3.y a - Vector3.y b)) as Hy.
  pose proof (Rle_0_sqr (Vector3.z a - Vector3.z b)) as Hz.
  unfold Rsqr in Hx, Hy, Hz. lra.
Qed.

Lemma distanceTo_sqr (a b : Vector3.t) :
  Vector3.distanceTo a b * Vector3.distanceTo a b =
  Vector3.distanceToSquared a b.
Proof. apply sqrt_sqrt, distanceToSquared_nonneg. Qed.

Lemma cauchy_schwarz3 (ux uy uz vx vy vz : R) :
  (ux * vx + uy * vy + uz * vz) * (ux * vx + uy * vy + uz * vz) <=
  (ux * ux + uy * uy + uz * uz) * (vx * vx + vy * vy + vz * vz).
Proof.
  pose proof (Rle_0_sqr (uy * vz - uz * vy)) as H1.
  pose proof (Rle_0_sqr (uz * vx - ux * vz)) as H2.
  pose proof (Rle_0_sqr (ux * vy - uy * vx)) as H3.
  unfold Rsqr in H1, H2, H3.
  apply Rminus_le.
  replace ((ux * vx + uy * vy + uz * vz) * (ux * vx + uy * vy + uz * vz) -
           (ux * ux + uy * uy + uz * uz) * (vx * vx + vy * vy + vz * vz))
    with (- ((uy * vz - uz * vy) * (uy * vz - uz * vy) +
             (uz * vx - ux * vz) * (uz * vx - ux * vz) +
             (ux * vy - uy * vx) * (ux * vy - uy * vx))) by ring.
  lra.
Qed.

Lemma triangle3 (ux uy uz vx vy vz : R) :
  sqrt ((ux + vx) * (ux + vx) + (uy + vy) * (uy + vy) + (uz + vz) * (uz + vz))
  <= sqrt (ux * ux + uy * uy + uz * uz) + sqrt (vx * vx + vy * vy + vz * vz).
Proof.
  pose proof (cauchy_schwarz3 ux uy uz vx vy vz) as Hcs.
  assert (HSu : 0 <= ux * ux + uy * uy + uz * uz).
  { pose proof (Rle_0_sqr ux). pose proof (Rle_0_sqr uy).
    pose proof (Rle_0_sqr uz). unfold Rsqr in *. lra. }
  assert (HSv : 0 <= vx * vx + vy * vy + vz * vz).
  { pose proof (Rle_0_sqr vx). pose proof (Rle_0_sqr vy).
    pose proof (Rle_0_sqr vz). unfold Rsqr in *. lra. }
  assert (HSw : 0 <= (ux + vx) * (ux + vx) + (uy + vy) * (uy + vy) +
                     (uz + vz) * (uz + vz)).
  { pose proof (Rle_0_sqr (ux + vx)). pose proof (Rle_0_sqr (uy + vy)).
    pose proof (Rle_0_sqr (uz + vz)). unfold Rsqr in *. lra. }
  pose proof (sqrt_sqrt _ HSu) as Su. pose proof (sqrt_sqrt _ HSv) as Sv.
  pose proof (sqrt_sqrt _ HSw) as Sw.
  pose proof (sqrt_pos (ux * ux + uy * uy + uz * uz)) as HU.
  pose proof (sqrt_pos (vx * vx + vy * vy + vz * vz)) as HV.
  generalize dependent (sqrt (ux * ux + uy * uy + uz * uz)). intros U Su HU.
  generalize dependent (sqrt (vx * vx + vy * vy + vz * vz)). intros V Sv HV.
  generalize dependent
    (sqrt ((ux + vx) * (ux + vx) + (uy + vy) * (uy + vy) +
           (uz + vz) * (uz + vz))).
  intros W Sw.
  assert (HUV : 0 <= U * V) by (apply Rmult_le_pos; assumption).
  assert (Hp : ux * vx + uy * vy + uz * vz <= U * V).
  { destruct (Rle_dec (ux * vx + uy * vy + uz * vz) 0) as [Hneg | Hpos];
      [lra |].
    apply Rsqr_incr_0_var; [| exact HUV]. unfold Rsqr.
    replace (U * V * (U * V)) with ((U * U) * (V * V)) by ring.
    rewrite Su, Sv. exact Hcs. }
  apply Rsqr_incr_0_var; [| lra].
  unfold Rsqr. rewrite Sw.
  replace ((U + V) * (U + V)) with (U * U + 2 * (U * V) + V * V) by ring.
  rewrite Su, Sv. lra.
Qed.

(** The triangle inequality for [distanceTo]. *)
Lemma distanceTo_triangle (a b c : Vector3.t) :
  Vector3.distanceTo a c <= Vector3.distanceTo a b + Vector3.distanceTo b c.
Proof.
  unfold Vector3.distanceTo, Vector3.distanceToSquared. cbn zeta.
  replace (Vector3.x a - Vector3.x c)
    with ((Vector3.x a - Vector3.x b) + (Vector3.x b - Vector3.x c)) by ring.
  replace (Vector3.y a - Vector3.y c)
    with ((Vector3.y a - Vector3.y b) + (Vector3.y b - Vector3.y c)) by ring.
  replace (Vector3.z a - Vector3.z c)
    with ((Vector3.z a - Vector3.z b) + (Vector3.z b - Vector3.z c)) by ring.
  apply triangle3.
Qed.

Lemma distanceTo_sym (a b : Vector3.t) :
  Vector3.distanceTo a b = Vector3.distanceTo b a.
Proof.
  unfold Vector3.distanceTo, Vector3.distanceToSquared. cbn zeta.
  f_equal. ring.
Qed.

Lemma length_subVectors (a b : Vector3.t) :
  Vector3.length (Vector3.subVectors a b) = Vector3.distanceTo a b.
Proof. reflexivity. Qed.

Lemma length_multiplyScalar (v : Vector3.t) (k : R) :
  0 <= k ->
  Vector3.length (Vector3.multiplyScalar v k) = Vector3.length v * k.
Proof.
  intros Hk. unfold Vector3.length. rewrite multiplyScalar_lengthSq.
  rewrite sqrt_mult; [| apply vector_lengthSq_nonneg | nra].
  rewrite sqrt_square by exact Hk. reflexivity.
Qed.

(** The target and the pole of an arm whose three landmarks do not all
    coincide. *)
Lemma armTarget_reach (upperLen lowerLen : R)
  (mpShoulder mpElbow mpWrist : Vector3.t) :
  0 <= upperLen + lowerLen ->
  Vector3.distanceTo mpShoulder mpElbow + Vector3.distanceTo mpElbow mpWrist
  <> 0 ->
  let r := armTarget upperLen lowerLen mpShoulder mpElbow mpWrist in
  Forall defined (trace r) /\
  Vector3.length (fst (value r)) <= upperLen + lowerLen /\
  Vector3.length (snd (value r)) <= upperLen + lowerLen /\
  (Vector3.lengthSq (fst (value r)) <> 0 <->
   (0 < upperLen + lowerLen /\ Vector3.distanceTo mpShoulder mpWrist <> 0)).
Proof.
  intros Hlen Hm.
  pose proof (distanceTo_nonneg mpShoulder mpElbow) as H1.
  pose proof (distanceTo_nonneg mpElbow mpWrist) as H2.
  pose proof (distanceTo_nonneg mpShoulder mpWrist) as H3.
  pose proof (distanceTo_triangle mpShoulder mpElbow mpWrist) as Htri.
  unfold armTarget. cbn zeta.
  rewrite !value_bind, !trace_bind, value_ret, trace_ret.
  unfold div at 1. unfold trace at 1. cbn [snd fst app].
  unfold div, value. cbn [fst snd].
  set (m := Vector3.distanceTo mpShoulder mpElbow +
            Vector3.distanceTo mpElbow mpWrist) in *.
  assert (Hmpos : 0 < m) by lra.
  assert (Hscale : 0 <= (upperLen + lowerLen) / m).
  { unfold Rdiv. apply Rmult_le_pos; [exact Hlen |].
    left. apply Rinv_0_lt_compat. exact Hmpos. }
  assert (Hbound : forall w, 0 <= w <= m ->
                             w * ((upperLen + lowerLen) / m)
                             <= upperLen + lowerLen).
  { intros w Hw.
    replace (upperLen + lowerLen) with (m * ((upperLen + lowerLen) / m)) at 2
      by (field; lra).
    apply Rmult_le_compat_r; lra. }
  split; [constructor; [exact Hm | constructor] |].
  split; [| split].
  - rewrite (length_multiplyScalar _ _ Hscale), length_subVectors.
    apply Hbound. rewrite distanceTo_sym. lra.
  - rewrite (length_multiplyScalar _ _ Hscale), length_subVectors.
    apply Hbound. rewrite distanceTo_sym. unfold m. lra.
  - rewrite <- vector_length_zero,
      (length_multiplyScalar _ _ Hscale), length_subVectors,
      (distanceTo_sym mpWrist mpShoulder).
    split.
    + intros Hnz. split.
      * destruct Hlen as [Hpos | Hz]; [exact Hpos |].
        exfalso. apply Hnz. rewrite <- Hz. unfold Rdiv. ring.
      * intros Hz. apply Hnz. rewrite Hz. ring.
    + intros [Hpos Hd] Hz. apply Rmult_integral in Hz.
      destruct Hz as [Hz | Hz]; [contradiction |].
      assert (0 < (upperLen + lowerLen) / m)
        by (apply Rdiv_lt_0_compat; lra).
      lra.
Qed.

(** X18: the target and the pole that [applyPose] hands to the solver are
    never farther from the shoulder than the arm of the avatar is long
    (the straight shoulder-to-wrist distance is at most the tracked arm
    length), and the scale is a defined quotient as soon as the three
    tracked landmarks do not all coincide. *)
Theorem armTarget_within_reach (upperLen lowerLen : R)
  (mpShoulder mpElbow mpWrist : Vector3.t) :
  0 <= upperLen + lowerLen ->
  Vector3.distanceTo mpShoulder mpElbow + Vector3.distanceTo mpElbow mpWrist
  <> 0 ->
  let r := armTarget upperLen lowerLen mpShoulder mpElbow mpWrist in
  Forall defined (trace r) /\
  Vector3.length (fst (value r)) <= upperLen + lowerLen /\
  Vector3.length (snd (value r)) <= upperLen + lowerLen.
Proof.
  intros Hlen Hm.
  destruct (armTarget_reach upperLen lowerLen mpShoulder mpElbow mpWrist
              Hlen Hm) as (H1 & H2 & H3 & _).
  repeat split; assumption.
Qed.

Lemma armTarget_within_reach_witness :
  let r := armTarget 0.3 0.25 (Vector3.mk 0 0 0) (Vector3.mk 1 0 0)
             (Vector3.mk 1 1 0) in
  Forall defined (trace r) /\
  Vector3.length (fst (value r)) <= 0.3 + 0.25 /\
  Vector3.length (snd (value r)) <= 0.3 + 0.25.
Proof.
  apply (armTarget_within_reach 0.3 0.25 (Vector3.mk 0 0 0) (Vector3.mk 1 0 0)
           (Vector3.mk 1 1 0)); [lra |].
  assert (H1 : Vector3.distanceTo (Vector3.mk 0 0 0) (Vector3.mk 1 0 0) = 1).
  { apply sqrt_of_square; [lra |]. unfold Vector3.distanceToSquared.
    cbn [Vector3.x Vector3.y Vector3.z]. ring. }
  assert (H2 : Vector3.distanceTo (Vector3.mk 1 0 0) (Vector3.mk 1 1 0) = 1).
  { apply sqrt_of_square; [lra |]. unfold Vector3.distanceToSquared.
    cbn [Vector3.x Vector3.y Vector3.z]. ring. }
  rewrite H1, H2. lra.
Defined.




(** X20: the elbows of the two arms bend by opposite rotations about the
    local Y axis: for the same flexion the rotation of an arm whose rest
    axis points to negative x is (0, -sin(bend/2), 0, cos(bend/2)) and
    the rotation of the other arm is its inverse. *)
Theorem ik_lowerRotation_mirrored (axisNeg axisPos : Vector3.t)
  (bendAngle : R) :
  Vector3.x axisNeg < 0 -> 0 <= Vector3.x axisPos ->
  ik_lowerRotation axisNeg bendAngle =
  Quaternion.mk 0 (- sin (bendAngle / 2)) 0 (cos (bendAngle / 2)) /\
  ik_lowerRotation axisPos bendAngle =
  Quaternion.invert (ik_lowerRotation axisNeg bendAngle) /\
  Quaternion.multiply (ik_lowerRotation axisNeg bendAngle)
    (ik_lowerRotation axisPos bendAngle) = Quaternion.identity.
Proof.
  intros Hneg Hpos.
  assert (HN : ik_lowerRotation axisNeg bendAngle =
               Quaternion.mk 0 (- sin (bendAngle / 2)) 0 (cos (bendAngle / 2))).
  { unfold ik_lowerRotation, setFromAxisAngle.
    destruct (Rlt_dec (Vector3.x axisNeg) 0); [| lra].
    cbn [Vector3.x Vector3.y Vector3.z].
    replace (- bendAngle * 1 / 2) with (- (bendAngle / 2)) by field.
    rewrite sin_neg, cos_neg. f_equal; ring. }
  assert (HP : ik_lowerRotation axisPos bendAngle =
               Quaternion.mk 0 (sin (bendAngle / 2)) 0 (cos (bendAngle / 2))).
  { unfold ik_lowerRotation, setFromAxisAngle.
    destruct (Rlt_dec (Vector3.x axisPos) 0); [lra |].
    cbn [Vector3.x Vector3.y Vector3.z].
    replace (- bendAngle * -1 / 2) with (bendAngle / 2) by field.
    f_equal; ring. }
  rewrite HN, HP. split; [reflexivity |]. split.
  - unfold Quaternion.invert.
    cbn [Quaternion.x Quaternion.y Quaternion.z Quaternion.w].
    f_equal; ring.
  - unfold Quaternion.multiply, Quaternion.identity.
    cbn [Quaternion.x Quaternion.y Quaternion.z Quaternion.w].
    pose proof (sin2_cos2 (bendAngle / 2)) as Hsc. unfold Rsqr in Hsc.
    f_equal; try ring. lra.
Qed.

Lemma ik_lowerRotation_mirrored_witness :
  ik_lowerRotation (Vector3.mk 1 0 0) 1 =
  Quaternion.invert (ik_lowerRotation (Vector3.mk (-1) 0 0) 1).
Proof.
  apply (ik_lowerRotation_mirrored (Vector3.mk (-1) 0 0) (Vector3.mk 1 0 0) 1);
    cbn [Vector3.x]; lra.
Defined.

(** ** Finger curl: shape of the response *)

Lemma Rpower_boost (x : R) : 0 < x <= 1 -> x <= Rpower x 0.7.
Proof.
  intros [Hpos Hle]. unfold Rpower.
  rewrite <- (exp_ln x Hpos) at 1.
  assert (Hln : ln x <= 0).
  { rewrite <- ln_1. destruct Hle as [Hlt | Heq].
    - left. apply ln_increasing; assumption.
    - rewrite Heq. lra. }
  destruct (Req_dec (ln x) (0.7 * ln x)) as [He | Hne].
  - rewrite <- He. lra.
  - left. apply exp_increasing. lra.
Qed.

Lemma Rpower_pos (x y : R) : 0 < Rpower x y.
Proof. unfold Rpower. apply exp_pos. Qed.

(** The straight length of a finger is at most its arc length. *)
Lemma straight_le_arc (mcpPos pipPos dipPos tipPos : Vector3.t) :
  Vector3.distanceTo mcpPos tipPos <=
  Vector3.distanceTo mcpPos pipPos + Vector3.distanceTo pipPos dipPos +
  Vector3.distanceTo dipPos tipPos.
Proof.
  pose proof (distanceTo_triangle mcpPos pipPos tipPos).
  pose proof (distanceTo_triangle pipPos dipPos tipPos).
  lra.
Qed.

(** X21: for a finger of positive arc length the reshaped curl is never
    below the raw curl 1 - straight / arc, it is exactly 1 as soon as the
    straight length is at most 0.4 times the arc length, and it is 0 only
    when the straight length equals the arc length. *)
Theorem curl_reshaping (mcpPos pipPos dipPos tipPos : Vector3.t) :
  let arcLength := Vector3.distanceTo mcpPos pipPos +
                   Vector3.distanceTo pipPos dipPos +
                   Vector3.distanceTo dipPos tipPos in
  let straightLength := Vector3.distanceTo mcpPos tipPos in
  let curl := value (curlOfJoints mcpPos pipPos dipPos tipPos) in
  0 < arcLength ->
  1 - straightLength / arcLength <= curl /\
  (straightLength <= 0.4 * arcLength -> curl = 1) /\
  (curl = 0 <-> straightLength = arcLength).
Proof.
  intros arcLength straightLength curl Harc.
  destruct (curlOfJoints_value mcpPos pipPos dipPos tipPos) as [Hv _].
  cbn zeta in Hv. fold arcLength straightLength curl in Hv.
  pose proof (straight_le_arc mcpPos pipPos dipPos tipPos) as Hle.
  fold arcLength straightLength in Hle.
  pose proof (distanceTo_nonneg mcpPos tipPos) as Hs. fold straightLength in Hs.
  assert (Hq : 0 <= straightLength / arcLength <= 1).
  { split.
    - unfold Rdiv. apply Rmult_le_pos; [exact Hs |].
      left. apply Rinv_0_lt_compat. exact Harc.
    - apply (Rmult_le_reg_r arcLength); [exact Harc |].
      unfold Rdiv. rewrite Rmult_assoc, Rinv_l by lra. lra. }
  assert (Hraw : clamp (1 - straightLength / arcLength) 0 1 =
                 1 - straightLength / arcLength)
    by (apply clamp_inside; lra).
  rewrite Hraw in Hv. set (raw := 1 - straightLength / arcLength) in *.
  unfold Math_pow, value in Hv. cbn [fst] in Hv.
  destruct (Req_dec_T raw 0) as [Hz | Hnz].
  - assert (Hc : curl = 0).
    { rewrite Hv. replace (0 * 1.5) with 0 by ring. apply clamp_inside. lra. }
    rewrite Hc. split; [lra |]. split.
    + intros H4. exfalso.
      assert (straightLength / arcLength <= 0.4).
      { apply (Rmult_le_reg_r arcLength); [exact Harc |].
        unfold Rdiv. rewrite Rmult_assoc, Rinv_l by lra. lra. }
      unfold raw in Hz. lra.
    + split; [intros _ | reflexivity].
      assert (Hone : straightLength / arcLength = 1) by (unfold raw in Hz; lra).
      apply (Rmult_eq_reg_r (/ arcLength)).
      * rewrite Rinv_r by lra. exact Hone.
      * apply Rinv_neq_0_compat. lra.
  - assert (Hrange : 0 < raw <= 1) by (unfold raw in *; lra).
    pose proof (Rpower_boost raw Hrange) as Hboost.
    pose proof (Rpower_pos raw 0.7) as Hpos.
    assert (Hcurl : raw <= curl /\ 0 < curl).
    { rewrite Hv. unfold clamp.
      assert (Hmin : raw <= Rmin 1 (Rpower raw 0.7 * 1.5) /\
                     0 < Rmin 1 (Rpower raw 0.7 * 1.5)).
      { unfold Rmin. destruct (Rle_dec 1 (Rpower raw 0.7 * 1.5)); lra. }
      unfold Rmax. destruct (Rle_dec 0 (Rmin 1 (Rpower raw 0.7 * 1.5))); lra. }
    split; [apply Hcurl |]. split.
    + intros H4.
      assert (H6 : 0.6 <= raw).
      { assert (straightLength / arcLength <= 0.4).
        { apply (Rmult_le_reg_r arcLength); [exact Harc |].
          unfold Rdiv. rewrite Rmult_assoc, Rinv_l by lra. lra. }
        unfold raw. lra. }
      rewrite Hv. apply clamp_above; [lra |].
      pose proof reshaped_curl_saturates as Hsat.
      assert (Hmono : Rpower 0.6 0.7 <= Rpower raw 0.7)
        by (apply Rle_Rpower_l; lra).
      lra.
    + split; [intros H0; lra |].
      intros Heq. exfalso. apply Hnz. unfold raw. rewrite Heq.
      unfold Rdiv. rewrite Rinv_r by lra. ring.
Qed.

Lemma curl_reshaping_witness :
  let curl := value (curlOfJoints (Vector3.mk 0 0 0) (Vector3.mk 3 0 0)
                       (Vector3.mk 3 4 0) (Vector3.mk 0 4 0)) in
  curl = 1.
Proof.
  intros curl.
  assert (H1 : Vector3.distanceTo (Vector3.mk 0 0 0) (Vector3.mk 3 0 0) = 3).
  { apply sqrt_of_square; [lra |]. unfold Vector3.distanceToSquared.
    cbn [Vector3.x Vector3.y Vector3.z]. ring. }
  assert (H2 : Vector3.distanceTo (Vector3.mk 3 0 0) (Vector3.mk 3 4 0) = 4).
  { apply sqrt_of_square; [lra |]. unfold Vector3.distanceToSquared.
    cbn [Vector3.x Vector3.y Vector3.z]. ring. }
  assert (H3 : Vector3.distanceTo (Vector3.mk 3 4 0) (Vector3.mk 0 4 0) = 3).
  { apply sqrt_of_square; [lra |]. unfold Vector3.distanceToSquared.
    cbn [Vector3.x Vector3.y Vector3.z]. ring. }
  assert (H4 : Vector3.distanceTo (Vector3.mk 0 0 0) (Vector3.mk 0 4 0) = 4).
  { apply sqrt_of_square; [lra |]. unfold Vector3.distanceToSquared.
    cbn [Vector3.x Vector3.y Vector3.z]. ring. }
  destruct (curl_reshaping (Vector3.mk 0 0 0) (Vector3.mk 3 0 0)
              (Vector3.mk 3 4 0) (Vector3.mk 0 4 0)) as (_ & Hsat & _).
  - rewrite H1, H2, H3. lra.
  - apply Hsat. rewrite H1, H2, H3, H4. lra.
Defined.

Lemma distanceTo_similar (k : R) (o a b : Vector3.t) :
  Vector3.distanceTo (similar k o a) (similar k o b) =
  Rabs k * Vector3.distanceTo a b.
Proof.
  unfold Vector3.distanceTo, Vector3.distanceToSquared, similar.
  cbn [Vector3.x Vector3.y Vector3.z]. cbn zeta.
  replace ((k * Vector3.x a + Vector3.x o - (k * Vector3.x b + Vector3.x o)) *
           (k * Vector3.x a + Vector3.x o - (k * Vector3.x b + Vector3.x o)) +
           (k * Vector3.y a + Vector3.y o - (k * Vector3.y b + Vector3.y o)) *
           (k * Vector3.y a + Vector3.y o - (k * Vector3.y b + Vector3.y o)) +
           (k * Vector3.z a + Vector3.z o - (k * Vector3.z b + Vector3.z o)) *
           (k * Vector3.z a + Vector3.z o - (k * Vector3.z b + Vector3.z o)))
    with (Rsqr k * Vector3.distanceToSquared a b)
    by (unfold Rsqr, Vector3.distanceToSquared; cbn zeta; ring).
  rewrite sqrt_mult;
    [| apply Rle_0_sqr | apply distanceToSquared_nonneg].
  rewrite sqrt_Rsqr_abs. reflexivity.
Qed.

(** X22: the curl does not depend on the size or the place of the hand:
    scaling the four joints by the same factor other than 0 and shifting
    them by the same vector leaves the curl of a finger of non-zero arc
    length unchanged. *)
Theorem curl_similarity_invariant (k : R) (o : Vector3.t)
  (mcpPos pipPos dipPos tipPos : Vector3.t) :
  k <> 0 ->
  Vector3.distanceTo mcpPos pipPos + Vector3.distanceTo pipPos dipPos +
  Vector3.distanceTo dipPos tipPos <> 0 ->
  value (curlOfJoints (similar k o mcpPos) (similar k o pipPos)
           (similar k o dipPos) (similar k o tipPos)) =
  value (curlOfJoints mcpPos pipPos dipPos tipPos).
Proof.
  intros Hk Harc.
  destruct (curlOfJoints_value mcpPos pipPos dipPos tipPos) as [Hv _].
  destruct (curlOfJoints_value (similar k o mcpPos) (similar k o pipPos)
              (similar k o dipPos) (similar k o tipPos)) as [Hv' _].
  cbn zeta in Hv, Hv'. rewrite Hv, Hv', !distanceTo_similar.
  assert (Hak : Rabs k <> 0) by (apply Rabs_no_R0; exact Hk).
  set (arc := Vector3.distanceTo mcpPos pipPos +
              Vector3.distanceTo pipPos dipPos +
              Vector3.distanceTo dipPos tipPos) in *.
  replace (Rabs k * Vector3.distanceTo mcpPos pipPos +
           Rabs k * Vector3.distanceTo pipPos dipPos +
           Rabs k * Vector3.distanceTo dipPos tipPos)
    with (Rabs k * arc) by (unfold arc; ring).
  replace (Rabs k * Vector3.distanceTo mcpPos tipPos / (Rabs k * arc))
    with (Vector3.distanceTo mcpPos tipPos / arc)
    by (field; repeat split; assumption).
  reflexivity.
Qed.

Lemma curl_similarity_invariant_witness :
  value (curlOfJoints (similar 2 (Vector3.mk 1 1 1) (Vector3.mk 0 0 0))
           (similar 2 (Vector3.mk 1 1 1) (Vector3.mk 3 0 0))
           (similar 2 (Vector3.mk 1 1 1) (Vector3.mk 3 4 0))
           (similar 2 (Vector3.mk 1 1 1) (Vector3.mk 0 4 0))) =
  value (curlOfJoints (Vector3.mk 0 0 0) (Vector3.mk 3 0 0)
           (Vector3.mk 3 4 0) (Vector3.mk 0 4 0)).
Proof.
  apply curl_similarity_invariant; [lra |].
  assert (H1 : Vector3.distanceTo (Vector3.mk 0 0 0) (Vector3.mk 3 0 0) = 3).
  { apply sqrt_of_square; [lra |]. unfold Vector3.distanceToSquared.
    cbn [Vector3.x Vector3.y Vector3.z]. ring. }
  pose proof (distanceTo_nonneg (Vector3.mk 3 0 0) (Vector3.mk 3 4 0)).
  pose proof (distanceTo_nonneg (Vector3.mk 3 4 0) (Vector3.mk 0 4 0)).
  rewrite H1. lra.
Defined.

(** ** Finger, thumb and head rotations *)

Lemma setFromEuler_unit (euler : Euler) : unit_quaternion (setFromEuler euler).
Proof.
  unfold unit_quaternion, Quaternion.lengthSq, setFromEuler.
  pose proof (sin2_cos2 (euler_x euler / 2)) as H1.
  pose proof (sin2_cos2 (euler_y euler / 2)) as H2.
  pose proof (sin2_cos2 (euler_z euler / 2)) as H3.
  unfold Rsqr in H1, H2, H3. cbn zeta.
  generalize dependent (sin (euler_x euler / 2)). intros s1.
  generalize dependent (cos (euler_x euler / 2)). intros c1 H1.
  generalize dependent (sin (euler_y euler / 2)). intros s2.
  generalize dependent (cos (euler_y euler / 2)). intros c2 H2.
  generalize dependent (sin (euler_z euler / 2)). intros s3.
  generalize dependent (cos (euler_z euler / 2)). intros c3 H3.
  destruct (euler_order euler);
    cbn [Quaternion.x Quaternion.y Quaternion.z Quaternion.w]; nsatz.
Qed.

Lemma half_zero : 0 / 2 = 0.
Proof. field. Qed.

Lemma setFromEuler_z (a : R) :
  setFromEuler (mkEuler 0 0 a XYZ) =
  Quaternion.mk 0 0 (sin (a / 2)) (cos (a / 2)).
Proof.
  unfold setFromEuler. cbn [euler_x euler_y euler_z euler_order].
  rewrite half_zero, sin_0, cos_0. f_equal; ring.
Qed.

Lemma setFromEuler_y (a : R) :
  setFromEuler (mkEuler 0 a 0 XYZ) =
  Quaternion.mk 0 (sin (a / 2)) 0 (cos (a / 2)).
Proof.
  unfold setFromEuler. cbn [euler_x euler_y euler_z euler_order].
  rewrite half_zero, sin_0, cos_0. f_equal; ring.
Qed.

Lemma half_neg (a : R) : - a / 2 = - (a / 2).
Proof. field. Qed.

Lemma cos_half_pos (angle : R) : 0 <= angle <= PI * 0.55 -> 0 < cos (angle / 2).
Proof.
  intros H. pose proof PI_RGT_0 as Hpi.
  apply cos_gt_0; lra.
Qed.

Lemma finger_joint (f : Finger) (isRight : bool) (curl angle : R) :
  isThumb f = false ->
  0 <= curl <= 1 -> 0 <= angle <= PI * 0.55 * curl ->
  let sigma := if isRight then 1 else -1 in
  let q := setFromEuler (mkEuler 0 0 (if isRight then angle else - angle) XYZ) in
  joint_rotation f curl sigma q /\ unit_quaternion q /\ 0 < Quaternion.w q.
Proof.
  intros Hf Hc Ha sigma q. pose proof PI_RGT_0 as Hpi.
  assert (Hq : q = Quaternion.mk 0 0 (sigma * sin (angle / 2)) (cos (angle / 2))).
  { unfold q, sigma. rewrite setFromEuler_z. destruct isRight.
    - f_equal. ring.
    - rewrite half_neg, sin_neg, cos_neg. f_equal. ring. }
  split; [exists angle; rewrite Hf; split; [exact Ha | exact Hq] |].
  split; [apply setFromEuler_unit |].
  rewrite Hq. cbn [Quaternion.w]. apply cos_half_pos. nra.
Qed.

Lemma thumb_joint (f : Finger) (isRight : bool) (curl angle : R) :
  isThumb f = true ->
  0 <= curl <= 1 -> 0 <= angle <= PI * 0.45 * curl ->
  let sigma := if isRight then 1 else -1 in
  let q := setFromEuler (mkEuler 0 (if isRight then - angle else angle) 0 XYZ) in
  joint_rotation f curl sigma q /\ unit_quaternion q /\ 0 < Quaternion.w q.
Proof.
  intros Hf Hc Ha sigma q. pose proof PI_RGT_0 as Hpi.
  assert (Hq : q = Quaternion.mk 0 (- sigma * sin (angle / 2)) 0
                     (cos (angle / 2))).
  { unfold q, sigma. rewrite setFromEuler_y. destruct isRight.
    - rewrite half_neg, sin_neg, cos_neg. f_equal. ring.
    - f_equal. ring. }
  split; [exists angle; rewrite Hf; split; [exact Ha | exact Hq] |].
  split; [apply setFromEuler_unit |].
  rewrite Hq. cbn [Quaternion.w]. apply cos_half_pos. nra.
Qed.

Lemma Forall_app_intro {A : Type} (P : A -> Prop) (l1 l2 : list A) :
  Forall P l1 -> Forall P l2 -> Forall P (l1 ++ l2).
Proof. intros H1 H2. apply Forall_app. split; assumption. Qed.

Lemma Forall_optional {A : Type} (P : A -> Prop) (b : bool) (a : A) :
  P a -> Forall P (if b then [a] else []).
Proof. intros H. destruct b; [constructor; [exact H | constructor] | constructor]. Qed.

(** X23: for a curl in [0, 1] every rotation written to a bone of a digit
    is a unit quaternion with positive scalar part: for the thumb a turn
    about the local Y axis by an angle of at most 0.45 * PI * curl, for
    each of the four other fingers a turn about the local Z axis by an
    angle of at most 0.55 * PI * curl, in one sense for the right hand
    and in the opposite sense for any other prefix; a curl of 0 writes
    the identity; and on a complete rig the rotations of the left hand
    are the inverses of the rotations of the right hand. *)
Theorem fingerRotations_spec (hasBone : string -> bool) (prefix : string)
  (f : Finger) (curl : R) :
  0 <= curl <= 1 ->
  let sigma := if String.eqb prefix "right" then 1 else -1 in
  Forall (fun w => joint_rotation f curl sigma (snd w) /\
                   unit_quaternion (snd w) /\ 0 < Quaternion.w (snd w))
    (fingerRotations hasBone prefix f curl) /\
  (curl = 0 ->
   Forall (fun w => snd w = Quaternion.identity)
     (fingerRotations hasBone prefix f curl)) /\
  map snd (fingerRotations (fun _ => true) "left" f curl) =
  map Quaternion.invert
    (map snd (fingerRotations (fun _ => true) "right" f curl)).
Proof.
  intros Hc sigma. pose proof PI_RGT_0 as Hpi.
  assert (Hid : forall b : bool,
             setFromEuler (mkEuler 0 0 (if b then 0 else - 0) XYZ) =
             Quaternion.identity /\
             setFromEuler (mkEuler 0 (if b then - 0 else 0) 0 XYZ) =
             Quaternion.identity).
  { intros b. rewrite Ropp_0. destruct b;
      rewrite setFromEuler_z, half_zero, sin_0, cos_0;
      split; reflexivity. }
  split; [| split].
  - unfold fingerRotations. destruct (isThumb f) eqn:Hf.
    + unfold applyThumbCurl.
      repeat apply Forall_app_intro; apply Forall_optional; cbn [snd];
        apply thumb_joint; try exact Hf; try exact Hc; nra.
    + unfold applyFingerCurl. cbn [combine flat_map fst snd].
      rewrite app_nil_r.
      repeat apply Forall_app_intro; apply Forall_optional; cbn [snd];
        apply finger_joint; try exact Hf; try exact Hc; nra.
  - intros H0. subst curl. unfold fingerRotations. destruct (isThumb f).
    + unfold applyThumbCurl.
      replace (0 * PI * 0.4) with 0 by ring.
      replace (0 * PI * 0.45) with 0 by ring.
      repeat apply Forall_app_intro; apply Forall_optional; cbn [snd];
        apply Hid.
    + unfold applyFingerCurl. cbn [combine flat_map fst snd].
      rewrite app_nil_r.
      replace (0 * (PI * 0.45)) with 0 by ring.
      replace (0 * (PI * 0.55)) with 0 by ring.
      repeat apply Forall_app_intro; apply Forall_optional; cbn [snd];
        apply Hid.
  - unfold fingerRotations. destruct (isThumb f).
    + unfold applyThumbCurl.
      change (String.eqb "left" "right") with false.
      change (String.eqb "right" "right") with true.
      cbn [app map snd].
      rewrite !setFromEuler_y, !half_neg, !sin_neg, !cos_neg.
      unfold Quaternion.invert.
      cbn [Quaternion.x Quaternion.y Quaternion.z Quaternion.w].
      rewrite ?Ropp_involutive, ?Ropp_0. reflexivity.
    + unfold applyFingerCurl.
      change (String.eqb "left" "right") with false.
      change (String.eqb "right" "right") with true.
      cbn [combine flat_map app map fst snd].
      rewrite !setFromEuler_z, !half_neg, !sin_neg, !cos_neg.
      unfold Quaternion.invert.
      cbn [Quaternion.x Quaternion.y Quaternion.z Quaternion.w].
      rewrite ?Ropp_involutive, ?Ropp_0. reflexivity.
Qed.

Lemma fingerRotations_spec_witness :
  Forall (fun w => joint_rotation Thumb 0.5 1 (snd w) /\
                   unit_quaternion (snd w) /\ 0 < Quaternion.w (snd w))
    (fingerRotations (fun _ => true) "right" Thumb 0.5) /\
  Forall (fun w => joint_rotation Index 0.5 (-1) (snd w) /\
                   unit_quaternion (snd w) /\ 0 < Quaternion.w (snd w))
    (fingerRotations (fun _ => true) "left" Index 0.5) /\
  map snd (fingerRotations (fun _ => true) "left" Index 0.5) =
  map Quaternion.invert
    (map snd (fingerRotations (fun _ => true) "right" Index 0.5)).
Proof.
  split; [| split].
  - apply (fingerRotations_spec (fun _ => true) "right" Thumb 0.5). lra.
  - apply (fingerRotations_spec (fun _ => true) "left" Index 0.5). lra.
  - apply (fingerRotations_spec (fun _ => true) "right" Index 0.5). lra.
Defined.

Lemma clamp_odd (v limit : R) :
  0 <= limit -> clamp (- v) (- limit) limit = - clamp v (- limit) limit.
Proof.
  intros H.
  destruct (Rle_dec v (- limit)) as [Hlow | Hlow].
  - rewrite (clamp_below v) by lra. rewrite clamp_above by lra. ring.
  - destruct (Rle_dec limit v) as [Hhigh | Hhigh].
    + rewrite (clamp_above v) by lra. rewrite clamp_below by lra. ring.
    + rewrite !clamp_inside by lra. reflexivity.
Qed.

Lemma Rabs_le_bounds (a b : R) : Rabs a <= b -> - b <= a <= b.
Proof. unfold Rabs. destruct (Rcase_abs a); lra. Qed.

(** X24: the head is never turned beyond PI/4 in pitch, PI/3 in yaw and
    PI/6 in roll, and the neck never beyond three tenths of that; angles
    within those limits pass with yaw and roll negated (the mirror);
    negating the tracked yaw and roll negates the yaw and roll of the
    head; and the rotations handed to the head and the neck are unit
    quaternions. *)
Theorem applyHeadRotation_limits (currentVrm hasHead hasNeck : bool)
  (euler : Euler) (deltaTime : R) :
  let h := headEuler euler in
  let n := neckEuler h in
  (- PI / 4 <= euler_x h <= PI / 4 /\
   - PI / 3 <= euler_y h <= PI / 3 /\
   - PI / 6 <= euler_z h <= PI / 6) /\
  (Rabs (euler_x n) <= 0.3 * (PI / 4) /\
   Rabs (euler_y n) <= 0.3 * (PI / 3) /\
   Rabs (euler_z n) <= 0.3 * (PI / 6)) /\
  (Rabs (euler_x euler) <= PI / 4 -> Rabs (euler_y euler) <= PI / 3 ->
   Rabs (euler_z euler) <= PI / 6 ->
   h = mkEuler (euler_x euler) (- euler_y euler) (- euler_z euler)
         (euler_order euler)) /\
  headEuler (mkEuler (euler_x euler) (- euler_y euler) (- euler_z euler)
               (euler_order euler)) =
  mkEuler (euler_x h) (- euler_y h) (- euler_z h) (euler_order h) /\
  Forall (fun w => unit_quaternion (snd (fst w)))
    (applyHeadRotation_targets currentVrm hasHead hasNeck euler deltaTime).
Proof.
  intros h n. pose proof PI_RGT_0 as Hpi.
  assert (Hx : - PI / 4 <= euler_x h <= PI / 4)
    by (apply clamp_bounds; lra).
  assert (Hy : - PI / 3 <= euler_y h <= PI / 3)
    by (apply clamp_bounds; lra).
  assert (Hz : - PI / 6 <= euler_z h <= PI / 6)
    by (apply clamp_bounds; lra).
  split; [repeat split; lra |]. split; [| split; [| split]].
  - unfold n, neckEuler. cbn [euler_x euler_y euler_z].
    repeat split; apply Rabs_le; lra.
  - intros Ax Ay Az.
    apply Rabs_le_bounds in Ax. apply Rabs_le_bounds in Ay.
    apply Rabs_le_bounds in Az.
    unfold h, headEuler. f_equal.
    + apply clamp_inside. lra.
    + rewrite clamp_inside by lra. ring.
    + rewrite clamp_inside by lra. ring.
  - unfold h, headEuler. cbn [euler_x euler_y euler_z euler_order].
    f_equal.
    + replace (- euler_y euler * -1) with (- (euler_y euler * -1)) by ring.
      replace (- PI / 3) with (- (PI / 3)) by field.
      apply clamp_odd. lra.
    + replace (- euler_z euler * -1) with (- (euler_z euler * -1)) by ring.
      replace (- PI / 6) with (- (PI / 6)) by field.
      apply clamp_odd. lra.
  - unfold applyHeadRotation_targets. destruct (negb currentVrm); [constructor |].
    apply Forall_app_intro; apply Forall_optional; cbn [fst snd];
      apply setFromEuler_unit.
Qed.

Lemma applyHeadRotation_limits_witness :
  headEuler (mkEuler 0.1 0.2 (-0.3) YXZ) =
  mkEuler 0.1 (- (0.2)) (- (-0.3)) YXZ.
Proof.
  pose proof PI2_3_2 as Hpi.
  destruct (applyHeadRotation_limits true true true
              (mkEuler 0.1 0.2 (-0.3) YXZ) 0) as (_ & _ & H & _).
  cbn [euler_x euler_y euler_z euler_order] in H.
  apply H; apply Rabs_le; lra.
Defined.

(** ** Expressions *)

Lemma getScore_range (categories : list (string * R)) (name : string) :
  Forall (fun c => 0 <= snd c <= 1) categories ->
  0 <= getScore categories name <= 1.
Proof.
  induction categories as [| [n v] rest IH]; intros H; [cbn; lra |].
  apply Forall_cons_iff in H. destruct H as [Hv Hrest]. cbn [snd] in Hv.
  cbn [getScore]. destruct (String.eqb n name); [exact Hv | apply IH, Hrest].
Qed.

Lemma lerp_in_range (lo hi x y t : R) :
  0 <= t <= 1 -> lo <= x <= hi -> lo <= y <= hi -> lo <= lerp x y t <= hi.
Proof. intros Ht Hx Hy. unfold lerp. split; nra. Qed.

Lemma lerp_le_max (x y cap t : R) :
  0 <= t <= 1 -> y <= cap -> lerp x y t <= Rmax x cap.
Proof.
  intros Ht Hy. unfold lerp.
  pose proof (Rmax_l x cap). pose proof (Rmax_r x cap). nra.
Qed.

Lemma getLerpFactor_unit (deltaTime speed : R) :
  0 <= deltaTime -> 0 < speed -> 0 <= getLerpFactor deltaTime speed <= 1.
Proof.
  intros Hd Hs. pose proof (getLerpFactor_range deltaTime speed Hd Hs). lra.
Qed.

(** X25: when every score of the tracker is in [0, 1] and every current
    expression value is in [0, 1], every value that a frame writes to an
    expression is in [0, 1]. *)
Theorem applyBlendshapes_in_range (currentVrm : bool)
  (getValue : Expression -> option R) (categories : list (string * R))
  (deltaTime : R) :
  0 <= deltaTime ->
  Forall (fun c => 0 <= snd c <= 1) categories ->
  (forall e v, getValue e = Some v -> 0 <= v <= 1) ->
  Forall (fun w => 0 <= snd w <= 1)
    (applyBlendshapes currentVrm getValue categories deltaTime).
Proof.
  intros Hd Hc Hv. unfold applyBlendshapes.
  destruct (negb currentVrm); [constructor |]. cbn zeta.
  pose proof (getLerpFactor_unit deltaTime 15 Hd ltac:(lra)) as Hf.
  assert (Hcur : forall e,
             0 <= match getValue e with Some v => v | None => 0 end <= 1).
  { intros e. destruct (getValue e) eqn:E; [apply (Hv e), E | lra]. }
  assert (Hs : forall name, 0 <= getScore categories name <= 1)
    by (intros name; apply getScore_range; exact Hc).
  repeat (apply Forall_cons; [cbn [snd]; apply lerp_in_range;
                              [exact Hf | apply Hcur |] |]);
    try apply Forall_nil.
  - apply Hs.
  - pose proof (Hs "mouthPucker"%string). pose proof (Hs "mouthFunnel"%string).
    unfold Rmax. destruct (Rle_dec _ _); lra.
  - pose proof (Hs "mouthStretchLeft"%string).
    pose proof (Hs "mouthStretchRight"%string). lra.
  - apply Hs.
  - apply Hs.
  - pose proof (Hs "eyeBlinkLeft"%string). pose proof (Hs "eyeSquintLeft"%string).
    unfold Rmin. destruct (Rle_dec _ _); lra.
  - pose proof (Hs "eyeBlinkRight"%string).
    pose proof (Hs "eyeSquintRight"%string).
    unfold Rmin. destruct (Rle_dec _ _); lra.
  - pose proof (Hs "mouthSmileLeft"%string).
    pose proof (Hs "mouthSmileRight"%string).
    destruct (Rgt_dec _ _); [| lra].
    unfold Rmin. destruct (Rle_dec _ _); lra.
  - pose proof (Hs "browInnerUp"%string).
    destruct (Rgt_dec _ _); [| lra].
    unfold Rmin. destruct (Rle_dec _ _); lra.
  - pose proof (Hs "browDownLeft"%string). pose proof (Hs "browDownRight"%string).
    destruct (Rgt_dec _ _); lra.
Qed.

Lemma applyBlendshapes_in_range_witness :
  Forall (fun w => 0 <= snd w <= 1)
    (applyBlendshapes true (fun _ => Some 0.5)
       [("jawOpen"%string, 0.8); ("eyeBlinkLeft"%string, 1)] 0.016).
Proof.
  apply applyBlendshapes_in_range.
  - lra.
  - repeat constructor; cbn [snd]; lra.
  - intros e v H. injection H as <-. lra.
Defined.

(** X26: the value that an expression holds after a frame is the last one
    written.  For the two blink expressions it eases toward
    min(blink + 0.3 * squint, 0.8), not toward the blink score, so it
    never exceeds the larger of its current value and 0.8; Happy never
    exceeds the larger of its current value and 0.5, Sad the larger of
    its current value and 0.4, whatever the scores are. *)
Theorem applyBlendshapes_caps (getValue : Expression -> option R)
  (categories : list (string * R)) (deltaTime : R) :
  0 <= deltaTime ->
  let current := fun e => match getValue e with Some v => v | None => 0 end in
  let score := getScore categories in
  let factor := getLerpFactor deltaTime 15 in
  let final := fun e =>
    lastWrite e (applyBlendshapes true getValue categories deltaTime) in
  final BlinkLeft =
  Some (lerp (current BlinkLeft)
          (Rmin (score "eyeBlinkLeft"%string
                 + score "eyeSquintLeft"%string * 0.3) 0.8) factor) /\
  final BlinkRight =
  Some (lerp (current BlinkRight)
          (Rmin (score "eyeBlinkRight"%string
                 + score "eyeSquintRight"%string * 0.3) 0.8) factor) /\
  (forall v, final BlinkLeft = Some v -> v <= Rmax (current BlinkLeft) 0.8) /\
  (forall v, final BlinkRight = Some v -> v <= Rmax (current BlinkRight) 0.8) /\
  (forall v, final Happy = Some v -> v <= Rmax (current Happy) 0.5) /\
  (forall v, final Sad = Some v -> v <= Rmax (current Sad) 0.4).
Proof.
  intros Hd current score factor final.
  pose proof (getLerpFactor_unit deltaTime 15 Hd ltac:(lra)) as Hf.
  fold factor in Hf.
  assert (HL : final BlinkLeft =
               Some (lerp (current BlinkLeft)
                       (Rmin (score "eyeBlinkLeft"%string
                              + score "eyeSquintLeft"%string * 0.3) 0.8)
                       factor)) by reflexivity.
  assert (HR : final BlinkRight =
               Some (lerp (current BlinkRight)
                       (Rmin (score "eyeBlinkRight"%string
                              + score "eyeSquintRight"%string * 0.3) 0.8)
                       factor)) by reflexivity.
  split; [exact HL |]. split; [exact HR |].
  split; [| split; [| split]].
  - intros v H. rewrite HL in H. injection H as <-.
    apply lerp_le_max; [exact Hf | apply Rmin_r].
  - intros v H. rewrite HR in H. injection H as <-.
    apply lerp_le_max; [exact Hf | apply Rmin_r].
  - intros v H.
    assert (HH : final Happy =
                 Some (lerp (current Happy)
                         (if Rgt_dec ((score "mouthSmileLeft"%string
                                       + score "mouthSmileRight"%string) / 2) 0.3
                          then Rmin ((score "mouthSmileLeft"%string
                                      + score "mouthSmileRight"%string) / 2 * 0.5)
                                 0.5
                          else 0) factor)) by reflexivity.
    rewrite HH in H. injection H as <-.
    apply lerp_le_max; [exact Hf |].
    destruct (Rgt_dec _ _); [apply Rmin_r | lra].
  - intros v H.
    assert (HS : final Sad =
                 Some (lerp (current Sad)
                         (if Rgt_dec (score "browInnerUp"%string) 0.3
                          then Rmin (score "browInnerUp"%string * 0.5) 0.4
                          else 0) factor)) by reflexivity.
    rewrite HS in H. injection H as <-.
    apply lerp_le_max; [exact Hf |].
    destruct (Rgt_dec _ _); [apply Rmin_r | lra].
Qed.

Lemma applyBlendshapes_caps_witness :
  0 <= 0.016 /\
  lastWrite BlinkLeft
    (applyBlendshapes true (fun _ => Some 0.2)
       [("eyeBlinkLeft"%string, 1)] 0.016) =
  Some (lerp 0.2 (Rmin (1 + 0 * 0.3) 0.8) (getLerpFactor 0.016 15)).
Proof.
  split; [lra |].
  destruct (applyBlendshapes_caps (fun _ => Some 0.2)
              [("eyeBlinkLeft"%string, 1)] 0.016) as (H & _).
  - lra.
  - exact H.
Defined.

(** X27: a frame without any blend-shape category reads every score as
    0: every expression is written its current value scaled by
    1 - factor, so all of them ease toward 0. *)
Theorem applyBlendshapes_no_scores (getValue : Expression -> option R)
  (deltaTime : R) :
  let current := fun e => match getValue e with Some v => v | None => 0 end in
  let factor := getLerpFactor deltaTime 15 in
  Forall (fun w => snd w = (1 - factor) * current (fst w))
    (applyBlendshapes true getValue [] deltaTime) /\
  map fst (applyBlendshapes true getValue [] deltaTime) =
  [Aa; Ou; Ih; BlinkLeft; BlinkRight; BlinkLeft; BlinkRight; Happy; Sad; Angry].
Proof.
  intros current factor. split; [| reflexivity].
  unfold applyBlendshapes. cbn [negb getScore]. cbn zeta.
  assert (Hmax : Rmax 0 (0 * 0.7) = 0).
  { replace (0 * 0.7) with 0 by ring. apply Rmax_left. lra. }
  assert (Hmin : Rmin (0 + 0 * 0.3) 0.8 = 0).
  { replace (0 + 0 * 0.3) with 0 by ring. apply Rmin_left. lra. }
  rewrite Hmax, Hmin.
  destruct (Rgt_dec ((0 + 0) / 2) 0.3) as [Hgt | _]; [lra |].
  destruct (Rgt_dec 0 0.3) as [Hgt | _]; [lra |].
  repeat (apply Forall_cons;
          [cbn [fst snd]; unfold lerp, current, factor; cbv beta; field |]).
  apply Forall_nil.
Qed.

(** ** Audio mix and level meters *)

Lemma byte_range (b : Byte.byte) : 0 <= INR (Byte.to_nat b) <= 255.
Proof.
  split; [apply pos_INR |].
  replace 255 with (INR 255) by (rewrite INR_IZR_INZ; reflexivity).
  apply le_INR. apply Byte.to_nat_bounded.
Qed.

Lemma sum_bytes_range (data : list Byte.byte) :
  forall acc : R,
    acc <= fold_left (fun sum b => sum + INR (Byte.to_nat b)) data acc
        <= acc + 255 * INR (length data).
Proof.
  induction data as [| b data IH]; intros acc.
  - cbn [fold_left length INR]. lra.
  - cbn [fold_left]. specialize (IH (acc + INR (Byte.to_nat b))).
    pose proof (byte_range b) as Hb.
    change (length (b :: data)) with (S (length data)). rewrite S_INR. lra.
Qed.

Lemma getAudioLevel_range (dataArray : list Byte.byte) :
  dataArray <> [] ->
  0 <= value (getAudioLevel dataArray) <= 100 /\
  Forall defined (trace (getAudioLevel dataArray)).
Proof.
  intros Hne. unfold getAudioLevel. cbn zeta.
  rewrite value_bind, trace_bind, value_ret, trace_ret, app_nil_r.
  unfold div, value, trace. cbn [fst snd].
  assert (Hlen : 0 < INR (length dataArray)).
  { apply lt_0_INR. destruct dataArray; [contradiction | apply Nat.lt_0_succ]. }
  pose proof (sum_bytes_range dataArray 0) as Hsum.
  set (sum := fold_left (fun sum b => sum + INR (Byte.to_nat b)) dataArray 0)
    in *.
  assert (Havg : 0 <= sum / INR (length dataArray)).
  { unfold Rdiv. apply Rmult_le_pos; [lra |].
    left. apply Rinv_0_lt_compat. exact Hlen. }
  split.
  - unfold Rmin. destruct (Rle_dec 100 _); lra.
  - constructor; [cbn [defined]; lra | constructor].
Qed.

Lemma scaled_percent (level gain : R) :
  0 <= level <= 100 -> 0 <= gain <= 1 -> 0 <= level * gain <= 100.
Proof.
  intros Hl Hg. split.
  - apply Rmult_le_pos; lra.
  - assert (level * gain <= level * 1)
      by (apply Rmult_le_compat_l; lra).
    lra.
Qed.

Lemma updateAudioMeters_value (audioMixValue : R)
  (micAnalyser tabAnalyser : option (list Byte.byte)) :
  value (updateAudioMeters audioMixValue micAnalyser tabAnalyser) =
  (option_map (fun data => value (getAudioLevel data)
                           * ((100 - audioMixValue) / 100)) micAnalyser,
   option_map (fun data => value (getAudioLevel data)
                           * (audioMixValue / 100)) tabAnalyser) /\
  trace (updateAudioMeters audioMixValue micAnalyser tabAnalyser) =
  match micAnalyser with
  | Some data => trace (getAudioLevel data)
  | None => []
  end ++
  match tabAnalyser with
  | Some data => trace (getAudioLevel data)
  | None => []
  end.
Proof.
  destruct micAnalyser, tabAnalyser; split; reflexivity.
Qed.

(** X28: for a slider value between 0 and 100 the two gains are in [0, 1]
    and add up to 1, and the width given to each meter bar, for an
    analyser with at least one frequency bin, is between 0 and 100
    percent; no quotient of the update is undefined. *)
Theorem updateAudioMeters_range (audioMixValue : R)
  (micAnalyser tabAnalyser : option (list Byte.byte)) :
  0 <= audioMixValue <= 100 ->
  (forall data, micAnalyser = Some data -> data <> []) ->
  (forall data, tabAnalyser = Some data -> data <> []) ->
  let gains := updateAudioMix audioMixValue in
  let widths := updateAudioMeters audioMixValue micAnalyser tabAnalyser in
  fst gains + snd gains = 1 /\
  0 <= fst gains <= 1 /\ 0 <= snd gains <= 1 /\
  Forall defined (trace widths) /\
  (forall w, fst (value widths) = Some w -> 0 <= w <= 100) /\
  (forall w, snd (value widths) = Some w -> 0 <= w <= 100) /\
  (micAnalyser = None -> fst (value widths) = None) /\
  (tabAnalyser = None -> snd (value widths) = None).
Proof.
  intros Hmix Hmic Htab gains widths.
  unfold gains, updateAudioMix. cbn [fst snd].
  split; [field |]. split; [lra |]. split; [lra |].
  destruct (updateAudioMeters_value audioMixValue micAnalyser tabAnalyser)
    as [Hv Ht].
  unfold widths. rewrite Hv, Ht. cbn [fst snd].
  split.
  { apply Forall_defined_app.
    - destruct micAnalyser as [md |]; [| constructor].
      apply getAudioLevel_range, Hmic. reflexivity.
    - destruct tabAnalyser as [td |]; [| constructor].
      apply getAudioLevel_range, Htab. reflexivity. }
  split.
  { intros w H. destruct micAnalyser as [md |]; [| discriminate H].
    cbn [option_map] in H. injection H as <-.
    destruct (getAudioLevel_range md (Hmic md eq_refl)) as [Hr _].
    apply scaled_percent; [exact Hr | lra]. }
  split.
  { intros w H. destruct tabAnalyser as [td |]; [| discriminate H].
    cbn [option_map] in H. injection H as <-.
    destruct (getAudioLevel_range td (Htab td eq_refl)) as [Hr _].
    apply scaled_percent; [exact Hr | lra]. }
  split; intros H; rewrite H; reflexivity.
Qed.

Lemma updateAudioMeters_range_witness :
  0 <= 50 <= 100 /\
  Forall defined
    (trace (updateAudioMeters 50 (Some [Byte.xff; Byte.x00]) None)) /\
  snd (value (updateAudioMeters 50 (Some [Byte.xff; Byte.x00]) None)) = None.
Proof.
  split; [lra |].
  destruct (updateAudioMeters_range 50 (Some [Byte.xff; Byte.x00]) None)
    as (_ & _ & _ & Hd & _ & _ & _ & Hn).
  - lra.
  - intros data Hd. injection Hd as <-. discriminate.
  - discriminate.
  - split; [exact Hd | exact (Hn eq_refl)].
Defined.

(** ** Dragging the small avatar *)

Lemma drag_clamp (v m : R) :
  0 <= Rmax 0 (Rmin v m) /\
  (0 <= m -> Rmax 0 (Rmin v m) <= m) /\
  (0 <= v <= m -> Rmax 0 (Rmin v m) = v).
Proof.
  split; [apply Rmax_l |]. split.
  - intros Hm. apply Rmax_lub; [exact Hm | apply Rmin_r].
  - intros [H0 Hm]. rewrite (Rmin_left v m Hm). apply Rmax_right. exact H0.
Qed.

(** X29: while a drag is in progress the avatar window is placed at a
    position that is never negative, it follows the pointer while that
    keeps the window inside the viewport, and the window is kept entirely
    inside a viewport that is at least as large as the window; without a
    drag in progress, or without the window element, the stored position
    is unchanged. *)
Theorem onDragMove_on_screen (offsetWidth offsetHeight : R)
  (client dragOffset inner : R * R) (pos : option R * option R) :
  (exists newX newY,
      onDragMove true (Some (offsetWidth, offsetHeight)) client dragOffset
        inner pos = (Some newX, Some newY) /\
      0 <= newX /\ 0 <= newY /\
      (offsetWidth <= fst inner -> newX + offsetWidth <= fst inner) /\
      (offsetHeight <= snd inner -> newY + offsetHeight <= snd inner) /\
      (0 <= fst client - fst dragOffset <= fst inner - offsetWidth ->
       newX = fst client - fst dragOffset) /\
      (0 <= snd client - snd dragOffset <= snd inner - offsetHeight ->
       newY = snd client - snd dragOffset)) /\
  onDragMove false (Some (offsetWidth, offsetHeight)) client dragOffset inner
    pos = pos /\
  onDragMove true None client dragOffset inner pos = pos.
Proof.
  split; [| split; reflexivity].
  unfold onDragMove. cbn [negb]. eexists. eexists.
  split; [reflexivity |].
  destruct (drag_clamp (fst client - fst dragOffset) (fst inner - offsetWidth))
    as (Hx0 & Hx1 & Hx2).
  destruct (drag_clamp (snd client - snd dragOffset)
              (snd inner - offsetHeight)) as (Hy0 & Hy1 & Hy2).
  split; [exact Hx0 |]. split; [exact Hy0 |].
  split; [intros H; specialize (Hx1 ltac:(lra)); lra |].
  split; [intros H; specialize (Hy1 ltac:(lra)); lra |].
  split; [exact Hx2 | exact Hy2].
Qed.

Lemma onDragMove_on_screen_witness :
  exists newX newY,
    onDragMove true (Some (320, 500)) (2000, 100) (10, 10) (1280, 720)
      (None, None) = (Some newX, Some newY) /\
    newX + 320 <= 1280.
Proof.
  destruct (onDragMove_on_screen 320 500 (2000, 100) (10, 10) (1280, 720)
              (None, None)) as [(x & y & H & _ & _ & Hx & _) _].
  exists x, y. split; [exact H |]. apply Hx. cbn [fst]. lra.
Defined.

(** ** Chat messages *)

Lemma updateMessageFading_skipn (chatMessages : list string) :
  updateMessageFading chatMessages =
  skipn (length chatMessages - (MAX_VISIBLE_MESSAGES + 1)) chatMessages.
Proof.
  induction chatMessages as [| m rest IH]; [reflexivity |].
  cbn [updateMessageFading].
  destruct (MAX_VISIBLE_MESSAGES + 1 <? length (m :: rest))%nat eqn:E.
  - apply Nat.ltb_lt in E. rewrite IH.
    change (length (m :: rest)) with (S (length rest)) in *.
    replace (S (length rest) - (MAX_VISIBLE_MESSAGES + 1))%nat
      with (S (length rest - (MAX_VISIBLE_MESSAGES + 1)))
      by (unfold MAX_VISIBLE_MESSAGES in *; lia).
    reflexivity.
  - apply Nat.ltb_ge in E.
    replace (length (m :: rest) - (MAX_VISIBLE_MESSAGES + 1))%nat with 0%nat
      by lia.
    reflexivity.
Qed.

(** X30: adding a message whose text is not blank, with the container
    present, keeps the newest messages in their order: at most 6 of them,
    the new message last; a blank text or a missing container leaves the
    list as it is. *)
Theorem addChatMessage_queue (trim : string -> string) (text : string)
  (chatMessages : list string) :
  (trim text <> ""%string ->
   let added := addChatMessage trim true text chatMessages in
   added = skipn (length chatMessages + 1 - 6) (chatMessages ++ [text]) /\
   length added = Nat.min 6 (length chatMessages + 1) /\
   last added ""%string = text /\
   exists dropped, chatMessages ++ [text] = dropped ++ added) /\
  (trim text = ""%string ->
   addChatMessage trim true text chatMessages = chatMessages) /\
  addChatMessage trim false text chatMessages = chatMessages.
Proof.
  split; [| split].
  - intros Hne. cbn zeta. unfold addChatMessage.
    destruct (String.eqb (trim text) "") eqn:E;
      [apply String.eqb_eq in E; contradiction |].
    cbn [negb]. rewrite updateMessageFading_skipn, length_app.
    cbn [length]. unfold MAX_VISIBLE_MESSAGES.
    change (5 + 1)%nat with 6%nat.
    set (n := (length chatMessages + 1 - 6)%nat).
    split; [reflexivity |]. split; [| split].
    + rewrite length_skipn, length_app. cbn [length]. unfold n. lia.
    + assert (Hn : (n <= length chatMessages)%nat) by (unfold n; lia).
      rewrite skipn_app.
      replace (n - length chatMessages)%nat with 0%nat by lia.
      cbn [skipn]. apply last_last.
    + exists (firstn n (chatMessages ++ [text])).
      symmetry. apply firstn_skipn.
  - intros Hblank. unfold addChatMessage. rewrite Hblank. reflexivity.
  - unfold addChatMessage. destruct (String.eqb (trim text) ""); reflexivity.
Qed.

Lemma addChatMessage_queue_witness :
  let added :=
    addChatMessage (fun s => s) true "g"
      ["a"; "b"; "c"; "d"; "e"; "f"]%string in
  added = skipn (6 + 1 - 6)
            (["a"; "b"; "c"; "d"; "e"; "f"]%string ++ ["g"%string])%list /\
  length added = Nat.min 6 (6 + 1).
Proof.
  destruct (addChatMessage_queue (fun s => s) "g"
              ["a"; "b"; "c"; "d"; "e"; "f"]%string) as [H _].
  destruct H as (H1 & H2 & _); [discriminate |].
  split; [exact H1 | exact H2].
Defined.
